(** * KahelJS: the dependency-injection container, modules and app bootstrap

    A shallow embedding of [di-container.ts], [define-module.ts],
    [define-controller.ts] and [create-app.ts].

    JavaScript objects that are shared and mutated (containers, controller
    instances) live in an explicit store and are named by their address;
    function objects (factories, class constructors) are named by an address
    into a table that gives their [name], [length], [prototype], static
    [inject] property and behaviour when called. *)

From stdpp Require Import base option list gmap strings pretty.

Open Scope string_scope.
Open Scope nat_scope.

(** ** Tokens, values, functions *)

(** [Token = string | symbol | Constructor].  A symbol is its identity
    together with its description; a function is its address. *)
Inductive Token :=
  | TString (s : string)
  | TSymbol (id : nat) (description : option string)
  | TFunction (fn : nat).

Global Instance Token_eq_dec : EqDecision Token.
Proof. solve_decision. Defined.

Definition Token_encode (t : Token) : string + (nat * option string) + nat :=
  match t with
  | TString s => inl (inl s)
  | TSymbol i d => inl (inr (i, d))
  | TFunction f => inr f
  end.

Definition Token_decode (x : string + (nat * option string) + nat) : Token :=
  match x with
  | inl (inl s) => TString s
  | inl (inr (i, d)) => TSymbol i d
  | inr f => TFunction f
  end.

Global Instance Token_countable : Countable Token.
Proof.
  apply (inj_countable' Token_encode Token_decode).
  intros []; reflexivity.
Defined.

Inductive Value :=
  | VUndefined
  | VNumber (z : Z)
  | VString (s : string)
  | VObject (addr : nat).

Global Instance Value_eq_dec : EqDecision Value.
Proof. solve_decision. Defined.

(** The completion of a call: a value, or a thrown error (its message). *)
Inductive Completion (A : Type) :=
  | Normal (a : A)
  | Throw (message : string).
Arguments Normal {A} a.
Arguments Throw {A} message.

(** A function object.  [fn_body n args] is what the [n]-th invocation made
    in the program does when given [args] (so a body may answer differently
    from one call to the next, as [Math.random] or a counter would). *)
Record JsFunction := {
  fn_name : string;
  fn_length : nat;
  fn_prototype : bool;
  fn_inject : option (list Token);
  fn_body : nat → list Value → Completion Value;
}.

Inductive Lifetime := Singleton | Transient.

Global Instance Lifetime_eq_dec : EqDecision Lifetime.
Proof. solve_decision. Defined.

(** [Provider = ValueProvider | ClassProvider | FactoryProvider]. *)
Inductive ProviderBody :=
  | UseValue (useValue : Value)
  | UseClass (useClass : nat) (deps : option (list Token))
  | UseFactory (useFactory : nat) (deps : option (list Token)).

Record Provider := {
  provide : Token;
  lifetime : option Lifetime;
  body : ProviderBody;
}.

(** [InjectableLike]: a symbol token and the provider that goes with it. *)
Record InjectableLike := {
  inj_token : Token;
  inj_provider : Provider;
}.

(** The argument of [get], [has], [registerValue]: a token or an injectable. *)
Inductive TokenArg :=
  | ArgToken (t : Token)
  | ArgInjectable (i : InjectableLike).

(** [isInjectableLike(token) ? token.token : token] *)
Definition actualToken (token : TokenArg) : Token :=
  match token with
  | ArgToken t => t
  | ArgInjectable i => inj_token i
  end.

(** ** The store *)

Record DIContainer := {
  providers : gmap Token Provider;
  instances : gmap Token Value;
  parent : option nat;
  debug : bool;
}.

(** One entry per call of a factory or constructor made by a container. *)
Record Invocation := {
  inv_for : Token;
  inv_fn : nat;
  inv_args : list Value;
  inv_result : Completion Value;
}.

Record World := {
  heap : list DIContainer;
  calls : list Invocation;
  console : list string;
}.

Definition empty_world : World :=
  {| heap := []; calls := []; console := [] |}.

Definition blank (parent : option nat) (debug : bool) : DIContainer :=
  {| providers := ∅; instances := ∅; parent := parent; debug := debug |}.

(** The container at an address (an address outside the heap reads as a
    blank container and cannot be written). *)
Definition cont (w : World) (c : nat) : DIContainer :=
  default (blank None false) (heap w !! c).

Definition set_cont (c : nat) (x : DIContainer) (w : World) : World :=
  {| heap := <[c := x]> (heap w); calls := calls w; console := console w |}.

Definition set_providers (m : gmap Token Provider) (c : DIContainer) : DIContainer :=
  {| providers := m; instances := instances c; parent := parent c; debug := debug c |}.

Definition set_instances (m : gmap Token Value) (c : DIContainer) : DIContainer :=
  {| providers := providers c; instances := m; parent := parent c; debug := debug c |}.

Definition warn (line : string) (w : World) : World :=
  {| heap := heap w; calls := calls w; console := console w ++ [line] |}.

(** [new DIContainer(parent, options)] *)
Definition newContainer (parent : option nat) (debug : option bool) (w : World)
  : nat * World :=
  (length (heap w),
   {| heap := heap w ++ [blank parent (default false debug)];
      calls := calls w; console := console w |}).

(** [createChild()] *)
Definition createChild (this : nat) (w : World) : nat * World :=
  newContainer (Some this) None w.

(** ** Strings used by the messages *)

Definition LF : string := String (Ascii.ascii_of_nat 10) EmptyString.
Definition DQ : string := String (Ascii.ascii_of_nat 34) EmptyString.

Definition join (sep : string) (l : list string) : string := String.concat sep l.

(** A JS [Set], in insertion order. *)
Definition set_has `{EqDecision A} (x : A) (s : list A) : bool := bool_decide (x ∈ s).
Definition set_add `{EqDecision A} (x : A) (s : list A) : list A :=
  if set_has x s then s else s ++ [x].
Definition set_delete `{EqDecision A} (x : A) (s : list A) : list A :=
  filter (λ y, y ≠ x) s.

Section Container.

(** The function objects of the program. *)
Variable functions : nat → JsFunction.

(** [typeof token === "function" && token.prototype != null] *)
Definition isConstructorToken (token : Token) : bool :=
  match token with
  | TFunction f => fn_prototype (functions f)
  | _ => false
  end.

Definition getInjectTokens (ctor : nat) : option (list Token) :=
  fn_inject (functions ctor).

Definition or_else (s fallback : string) : string :=
  if String.eqb s EmptyString then fallback else s.

Definition getTokenName (token : Token) : string :=
  match token with
  | TString s => s
  | TSymbol _ d => or_else (default EmptyString d) "Symbol"
  | TFunction f => or_else (fn_name (functions f)) "AnonymousClass"
  end.

(** ** Registration *)

Definition register (this : nat) (provider : Provider) (w : World) : World :=
  let c := cont w this in
  let w1 :=
    if bool_decide (is_Some (providers c !! provide provider)) && debug c
    then warn ("[DI Container] Warning: Overwriting existing provider for token "
               +:+ DQ +:+ getTokenName (provide provider) +:+ DQ +:+ ". "
               +:+ "This may indicate a misconfiguration.") w
    else w in
  let c1 := set_providers (<[provide provider := provider]> (providers c)) c in
  let c2 :=
    match body provider with
    | UseValue v => set_instances (<[provide provider := v]> (instances c1)) c1
    | _ => set_instances (delete (provide provider) (instances c1)) c1
    end in
  set_cont this c2 w1.

Definition registerMany (this : nat) (ps : list Provider) (w : World) : World :=
  foldl (λ w p, register this p w) w ps.

Definition registerValue (this : nat) (token : TokenArg) (value : Value) (w : World)
  : World :=
  register this
    {| provide := actualToken token; lifetime := None; body := UseValue value |} w.

Definition registerClass (this : nat) (token : TokenArg) (useClass : option nat)
    (deps : option (list Token)) (lt : option Lifetime) (w : World)
  : Completion unit * World :=
  let targetClass :=
    match useClass with
    | Some k => Some k
    | None =>
        match actualToken token with
        | TFunction f => if isConstructorToken (TFunction f) then Some f else None
        | _ => None
        end
    end in
  match targetClass with
  | None => (Throw "registerClass requires a constructor token or useClass value", w)
  | Some k =>
      (Normal tt,
       register this
         {| provide := actualToken token; lifetime := lt; body := UseClass k deps |} w)
  end.

Definition registerFactory (this : nat) (token : TokenArg) (useFactory : nat)
    (deps : option (list Token)) (lt : option Lifetime) (w : World) : World :=
  register this
    {| provide := actualToken token; lifetime := lt; body := UseFactory useFactory deps |} w.

(** ** Lookup through the parent chain

    A parent exists before its child is constructed and the field is
    read-only, so a container's address bounds the length of its chain. *)
Fixpoint lookupProvider_from (n : nat) (w : World) (this : nat) (token : Token)
  : option (Provider * nat) :=
  match providers (cont w this) !! token with
  | Some p => Some (p, this)
  | None =>
      match parent (cont w this), n with
      | Some q, S n' => lookupProvider_from n' w q token
      | _, _ => None
      end
  end.

Definition lookupProvider (w : World) (this : nat) (token : Token)
  : option (Provider * nat) :=
  lookupProvider_from this w this token.

Fixpoint has_from (n : nat) (w : World) (this : nat) (token : Token) : bool :=
  bool_decide (is_Some (providers (cont w this) !! token))
  || match parent (cont w this), n with
     | Some q, S n' => has_from n' w q token
     | _, _ => false
     end.

Definition has (w : World) (this : nat) (token : TokenArg) : bool :=
  has_from this w this (actualToken token).

(** ** Error messages *)

Definition chain (resolvingNames : list string) (tokenName : string) : string :=
  "Dependency chain: " +:+ join " -> " resolvingNames +:+ " -> " +:+ tokenName.

Definition missing_provider_message (resolving : list Token) (token : Token) : string :=
  let tokenName := getTokenName token in
  let resolvingNames := getTokenName <$> resolving in
  "[DI Container] No provider found for " +:+ DQ +:+ tokenName +:+ DQ +:+ "." +:+ LF
  +:+ (if bool_decide (0 < length resolvingNames)
       then chain resolvingNames tokenName +:+ LF
       else EmptyString)
  +:+ "Make sure you've added it to your module's providers array:" +:+ LF
  +:+ "  providers: [" +:+ tokenName +:+ ".provider]".

Definition circular_message (resolving : list Token) (token : Token) : string :=
  let tokenName := getTokenName token in
  let resolvingNames := getTokenName <$> resolving in
  "[DI Container] Circular dependency detected!" +:+ LF
  +:+ chain resolvingNames tokenName +:+ LF +:+ LF
  +:+ "This means these services depend on each other in a circle:" +:+ LF
  +:+ join LF (imap (λ i name, "  " +:+ pretty (i + 1) +:+ ". " +:+ name) resolvingNames)
  +:+ LF
  +:+ "  " +:+ pretty (length resolvingNames + 1) +:+ ". " +:+ tokenName
  +:+ " (tries to depend on step 1)" +:+ LF +:+ LF
  +:+ "To fix this, consider:" +:+ LF
  +:+ "  - Using lazy injection (getter function)" +:+ LF
  +:+ "  - Extracting shared logic to a separate service" +:+ LF
  +:+ "  - Restructuring your dependencies".

Definition dependencies_line (declaredDeps : list Token) : string :=
  "[" +:+ join ", " (getTokenName <$> declaredDeps) +:+ "]".

Definition instantiate_failed_message (token : Token) (error : string)
    (declaredDeps : list Token) : string :=
  "[DI Container] Failed to instantiate " +:+ DQ +:+ getTokenName token +:+ DQ +:+ "."
  +:+ LF +:+ "Error: " +:+ error +:+ LF
  +:+ "Dependencies: " +:+ dependencies_line declaredDeps.

Definition factory_failed_message (token : Token) (error : string)
    (declaredDeps : list Token) : string :=
  "[DI Container] Failed to create " +:+ DQ +:+ getTokenName token +:+ DQ
  +:+ " from factory." +:+ LF +:+ "Error: " +:+ error +:+ LF
  +:+ "Dependencies: " +:+ dependencies_line declaredDeps.

Definition count_mismatch_message (token : Token) (expectedParams provided : nat)
    (declaredDeps : list Token) : string :=
  "[DI Container] Dependency count mismatch for " +:+ DQ +:+ getTokenName token
  +:+ DQ +:+ "." +:+ LF
  +:+ "Factory function expects " +:+ pretty expectedParams
  +:+ " parameter(s), but " +:+ pretty provided +:+ " dependencies were provided."
  +:+ LF
  +:+ "Provided dependencies: " +:+ dependencies_line declaredDeps +:+ LF +:+ LF
  +:+ "Make sure your deps array matches your factory function parameters:" +:+ LF
  +:+ "  defineInjectable(" +:+ LF
  +:+ "    (dep1, dep2) => ({ ... })," +:+ LF
  +:+ "    [service1, service2]  // â† Must match parameter count" +:+ LF
  +:+ "  )".

(** ** Resolution *)

(** The outcome of a step of resolution: the completion, the resolving set
    and the store as the step leaves them.  [None] is the model running out
    of recursion depth, which is not a behaviour of the program. *)
Definition Outcome (A : Type) : Type := option (Completion A * list Token * World).

(** [provider.useFactory(...deps)] and [new provider.useClass(...deps)]:
    the call is entered in the log with what it returned or threw. *)
Definition invoke (token : Token) (f : nat) (args : list Value) (w : World)
  : Completion Value * World :=
  let r := fn_body (functions f) (length (calls w)) args in
  (r, {| heap := heap w;
         calls := calls w ++ [{| inv_for := token; inv_fn := f;
                                 inv_args := args; inv_result := r |}];
         console := console w |}).

Section Resolve.

(** [this.resolve], one level of recursion down. *)
Variable rec : nat → Token → list Token → World → Outcome Value.

(** [depTokens.map((dep) => this.resolve(dep, resolving))] *)
Fixpoint resolveDependencies (this : nat) (depTokens : list Token)
    (resolving : list Token) (w : World) : Outcome (list Value) :=
  match depTokens with
  | [] => Some (Normal [], resolving, w)
  | dep :: rest =>
      match rec this dep resolving w with
      | None => None
      | Some (Throw e, resolving1, w1) => Some (Throw e, resolving1, w1)
      | Some (Normal v, resolving1, w1) =>
          match resolveDependencies this rest resolving1 w1 with
          | None => None
          | Some (Throw e, resolving2, w2) => Some (Throw e, resolving2, w2)
          | Some (Normal vs, resolving2, w2) => Some (Normal (v :: vs), resolving2, w2)
          end
      end
  end.

Definition instantiateProvider (this : nat) (provider : Provider)
    (resolving : list Token) (w : World) : Outcome Value :=
  match body provider with
  | UseClass useClass deps =>
      let declaredDeps :=
        match deps with
        | Some d => d
        | None => default [] (getInjectTokens useClass)
        end in
      match resolveDependencies this declaredDeps resolving w with
      | None => None
      | Some (Throw e, resolving1, w1) => Some (Throw e, resolving1, w1)
      | Some (Normal args, resolving1, w1) =>
          match invoke (provide provider) useClass args w1 with
          | (Normal instance, w2) => Some (Normal instance, resolving1, w2)
          | (Throw error, w2) =>
              Some (Throw (instantiate_failed_message (provide provider) error declaredDeps),
                    resolving1, w2)
          end
      end
  | UseFactory useFactory deps =>
      let declaredDeps := default [] deps in
      match resolveDependencies this declaredDeps resolving w with
      | None => None
      | Some (Throw e, resolving1, w1) => Some (Throw e, resolving1, w1)
      | Some (Normal args, resolving1, w1) =>
          let expectedParams := fn_length (functions useFactory) in
          if bool_decide (0 < expectedParams) && bool_decide (length args ≠ expectedParams)
          then Some (Throw (count_mismatch_message (provide provider) expectedParams
                              (length args) declaredDeps),
                     resolving1, w1)
          else
            match invoke (provide provider) useFactory args w1 with
            | (Normal instance, w2) => Some (Normal instance, resolving1, w2)
            | (Throw error, w2) =>
                Some (Throw (factory_failed_message (provide provider) error declaredDeps),
                      resolving1, w2)
            end
      end
  | UseValue useValue => Some (Normal useValue, resolving, w)
  end.

End Resolve.

Definition lifetime_of (provider : Provider) : Lifetime :=
  default Singleton (lifetime provider).

(** [owner.instances.has/get(provider.provide)] for a singleton. *)
Definition cached (w : World) (owner : nat) (provider : Provider) : option Value :=
  match lifetime_of provider with
  | Singleton => instances (cont w owner) !! provide provider
  | Transient => None
  end.

(** [owner.instances.set(provider.provide, instance)] for a singleton. *)
Definition cache (owner : nat) (provider : Provider) (instance : Value) (w : World)
  : World :=
  match lifetime_of provider with
  | Singleton =>
      let c := cont w owner in
      set_cont owner (set_instances (<[provide provider := instance]> (instances c)) c) w
  | Transient => w
  end.

Fixpoint resolve (fuel : nat) (this : nat) (token : Token) (resolving : list Token)
    (w : World) : Outcome Value :=
  match fuel with
  | 0 => None
  | S fuel' =>
      match lookupProvider w this token with
      | None =>
          match token with
          | TFunction f =>
              if isConstructorToken token then
                resolve fuel' this token resolving
                  (register this
                     {| provide := token; lifetime := None; body := UseClass f None |} w)
              else Some (Throw (missing_provider_message resolving token), resolving, w)
          | _ => Some (Throw (missing_provider_message resolving token), resolving, w)
          end
      | Some (provider, owner) =>
          match body provider with
          | UseValue useValue => Some (Normal useValue, resolving, w)
          | _ =>
              match cached w owner provider with
              | Some instance => Some (Normal instance, resolving, w)
              | None =>
                  if set_has (provide provider) resolving then
                    Some (Throw (circular_message resolving (provide provider)),
                          resolving, w)
                  else
                    match instantiateProvider (resolve fuel') this provider
                            (set_add (provide provider) resolving) w with
                    | None => None
                    | Some (Normal instance, resolving1, w1) =>
                        Some (Normal instance,
                              set_delete (provide provider) resolving1,
                              cache owner provider instance w1)
                    | Some (Throw error, resolving1, w1) =>
                        Some (Throw error, set_delete (provide provider) resolving1, w1)
                    end
              end
          end
      end
  end.

(** [get(token)]: [this.resolve(actualToken, new Set())].  The resolving set
    is dropped when the call completes. *)
Definition get (fuel : nat) (this : nat) (token : TokenArg) (w : World)
  : option (Completion Value * World) :=
  match resolve fuel this (actualToken token) [] w with
  | None => None
  | Some (r, _, w') => Some (r, w')
  end.

End Container.

(** ** The router (external): what this code does to it *)

Inductive Method := GET | POST | PUT | DELETE | PATCH | OPTIONS.

Record HonoOptions := { strict : option bool }.

(** The calls made on a [Hono] instance, in order; handlers and middleware
    are opaque and named by an address. *)
Unset Elimination Schemes.
Inductive HonoEntry :=
  | HUse (path : string) (handlers : list nat)
  | HOn (method : Method) (path : string) (handlers : list nat)
  | HRoute (prefix : string) (sub : list HonoEntry).
Set Elimination Schemes.

Record Hono := {
  hono_options : option HonoOptions;
  entries : list HonoEntry;
}.

(** [new Hono(options)] *)
Definition newHono (options : option HonoOptions) : Hono :=
  {| hono_options := options; entries := [] |}.

Definition hono_add (e : HonoEntry) (app : Hono) : Hono :=
  {| hono_options := hono_options app; entries := entries app ++ [e] |}.

(** ** Controllers *)

(** [InternalControllerDefinition]: an object, compared by identity. *)
Record ControllerDefinition := {
  prefix : string;
  app : Hono;
}.

(** What a setup callback [(r, deps) => void] does, in order: calls on the
    route builder and [deps.get]. *)
Inductive SetupOp :=
  | r_use (path : string) (handlers : list nat)
  | r_on (method : Method) (path : string) (handlers : list nat)
  | deps_get (token : TokenArg).

(** The arguments of [defineController(prefix, setup)]; the factory it
    returns is [controllerFactory] below. *)
Record ControllerFactory := {
  cf_prefix : string;
  cf_setup : list SetupOp;
}.

(** The store of the whole program: the containers and the controller
    instances. *)
Record Store := {
  di : World;
  controllerHeap : list ControllerDefinition;
}.

Definition empty_store : Store := {| di := empty_world; controllerHeap := [] |}.

(** ** Modules *)

Unset Elimination Schemes.
Inductive ModuleDefinition := mkModule {
  m_controllers : list nat;
  m_imports : list ModuleDefinition;
  m_exports : list TokenArg;
  m_providers : list Provider;
  m_container : nat;
}.
Set Elimination Schemes.

(** [ModuleConfig]; an absent property is the empty list. *)
Record ModuleConfig := {
  cfg_controllers : list ControllerFactory;
  cfg_imports : list ModuleDefinition;
  cfg_exports : list TokenArg;
  cfg_providers : list Provider;
}.

Section Modules.

Variable functions : nat → JsFunction.

(** [setup(routeBuilder, container)] *)
Fixpoint runSetup (fuel : nat) (container : nat) (setup : list SetupOp) (app : Hono)
    (w : World) : option (Completion Hono * World) :=
  match setup with
  | [] => Some (Normal app, w)
  | r_use path handlers :: rest =>
      runSetup fuel container rest (hono_add (HUse path handlers) app) w
  | r_on method path handlers :: rest =>
      runSetup fuel container rest (hono_add (HOn method path handlers) app) w
  | deps_get token :: rest =>
      match get functions fuel container token w with
      | None => None
      | Some (Throw e, w1) => Some (Throw e, w1)
      | Some (Normal _, w1) => runSetup fuel container rest app w1
      end
  end.

(** The [factory] closure of [defineController]: a new router, the setup
    callback run on it, and a new [{ prefix, app }] object. *)
Definition controllerFactory (fuel : nat) (cf : ControllerFactory) (container : nat)
    (s : Store) : option (Completion nat * Store) :=
  match runSetup fuel container (cf_setup cf) (newHono None) (di s) with
  | None => None
  | Some (Throw e, w1) => Some (Throw e, {| di := w1; controllerHeap := controllerHeap s |})
  | Some (Normal app, w1) =>
      Some (Normal (length (controllerHeap s)),
            {| di := w1;
               controllerHeap :=
                 controllerHeap s ++ [{| prefix := cf_prefix cf; app := app |}] |})
  end.

(** [importedModule.exports.forEach(...)] of [defineModule] *)
Fixpoint importExports (fuel : nat) (container : nat) (imported : nat)
    (exported : list TokenArg) (w : World) : option (Completion unit * World) :=
  match exported with
  | [] => Some (Normal tt, w)
  | exportedToken :: rest =>
      if has w imported exportedToken then
        match get functions fuel imported exportedToken w with
        | None => None
        | Some (Throw e, w1) => Some (Throw e, w1)
        | Some (Normal instance, w1) =>
            importExports fuel container imported rest
              (registerValue functions container exportedToken instance w1)
        end
      else importExports fuel container imported rest w
  end.

(** [imports.forEach(...)] of [defineModule] *)
Fixpoint importModules (fuel : nat) (container : nat) (imports : list ModuleDefinition)
    (w : World) : option (Completion unit * World) :=
  match imports with
  | [] => Some (Normal tt, w)
  | importedModule :: rest =>
      match importExports fuel container (m_container importedModule)
              (m_exports importedModule) w with
      | None => None
      | Some (Throw e, w1) => Some (Throw e, w1)
      | Some (Normal _, w1) => importModules fuel container rest w1
      end
  end.

(** [controllers.map((controllerFactory) => controllerFactory(container))] *)
Fixpoint instantiateControllers (fuel : nat) (container : nat)
    (controllers : list ControllerFactory) (s : Store)
  : option (Completion (list nat) * Store) :=
  match controllers with
  | [] => Some (Normal [], s)
  | cf :: rest =>
      match controllerFactory fuel cf container s with
      | None => None
      | Some (Throw e, s1) => Some (Throw e, s1)
      | Some (Normal c, s1) =>
          match instantiateControllers fuel container rest s1 with
          | None => None
          | Some (Throw e, s2) => Some (Throw e, s2)
          | Some (Normal cs, s2) => Some (Normal (c :: cs), s2)
          end
      end
  end.

Definition defineModule (fuel : nat) (config : ModuleConfig) (s : Store)
  : option (Completion ModuleDefinition * Store) :=
  let (container, w0) := newContainer None None (di s) in
  match importModules fuel container (cfg_imports config) w0 with
  | None => None
  | Some (Throw e, w1) => Some (Throw e, {| di := w1; controllerHeap := controllerHeap s |})
  | Some (Normal _, w1) =>
      let w2 := registerMany functions container (cfg_providers config) w1 in
      match instantiateControllers fuel container (cfg_controllers config)
              {| di := w2; controllerHeap := controllerHeap s |} with
      | None => None
      | Some (Throw e, s3) => Some (Throw e, s3)
      | Some (Normal controllerInstances, s3) =>
          Some (Normal {| m_controllers := controllerInstances;
                          m_imports := cfg_imports config;
                          m_exports := cfg_exports config;
                          m_providers := cfg_providers config;
                          m_container := container |},
                s3)
      end
  end.

End Modules.

(** ** App bootstrap *)

Record CreateAppOptions := {
  opt_hono : option HonoOptions;
  opt_middleware : option (list nat);
}.

(** [options?: CreateAppOptions<E> | HonoOptions<E>] *)
Inductive Options :=
  | NewApi (o : CreateAppOptions)
  | OldApi (o : HonoOptions).

(** [options && ('middleware' in options || 'hono' in options)] *)
Definition isCreateAppOptions (options : option Options) : bool :=
  match options with
  | Some (NewApi o) => bool_decide (is_Some (opt_middleware o))
                       || bool_decide (is_Some (opt_hono o))
  | _ => false
  end.

(** [collectControllers(module)], on the set [allControllers]. *)
Fixpoint collectControllers (module : ModuleDefinition) (allControllers : list nat)
  : list nat :=
  let own := foldl (λ acc controller, set_add controller acc) allControllers
               (m_controllers module) in
  foldl (λ acc importedModule, collectControllers importedModule acc) own
    (m_imports module).

(** [app.route(controller.prefix, controller.app)] *)
Definition mount (heap : list ControllerDefinition) (router : Hono) (controller : nat)
  : Hono :=
  match heap !! controller with
  | Some c => hono_add (HRoute (prefix c) (entries (app c))) router
  | None => router
  end.

(** A reference seen through its static type: the members the type exposes
    and the object behind it. *)
Record View := {
  members : list string;
  target : Hono;
}.

(** [Omit<T, K>] on the member names of [T]. *)
Definition Omit (T K : list string) : list string :=
  filter (λ k, k ∉ K) T.

Section CreateApp.

(** The member names of the external router's type [Hono<E>]. *)
Variable Hono_members : list string.

(** [KahelApp<E> = Omit<Hono<E>, 'use' | 'route' | 'mount' | 'basePath'>] *)
Definition KahelApp : list string :=
  Omit Hono_members ["use"; "route"; "mount"; "basePath"].

Definition createApp (heap : list ControllerDefinition) (rootModule : ModuleDefinition)
    (options : option Options) : View :=
  let honoOptions :=
    match options with
    | Some (NewApi o) =>
        if isCreateAppOptions options then opt_hono o else Some {| strict := None |}
    | Some (OldApi o) => Some o
    | None => None
    end in
  let middleware :=
    match options with
    | Some (NewApi o) => if isCreateAppOptions options then opt_middleware o else None
    | _ => None
    end in
  let app0 := newHono honoOptions in
  let app1 :=
    match middleware with
    | Some mws => foldl (λ a mw, hono_add (HUse "*" [mw]) a) app0 mws
    | None => app0
    end in
  let allControllers := collectControllers rootModule [] in
  let app2 := foldl (mount heap) app1 allControllers in
  {| members := KahelApp; target := app2 |}.

End CreateApp.

(** * Properties *)

(** ** The store *)

Lemma cont_set_cont (c c' : nat) (x : DIContainer) (w : World) :
  cont (set_cont c x w) c' =
  if decide (c' = c ∧ c < length (heap w)) then x else cont w c'.
Proof.
  unfold cont, set_cont; simpl.
  destruct (decide (c' = c ∧ c < length (heap w))) as [[-> Hlt]|Hn].
  - by rewrite list_lookup_insert_eq.
  - destruct (decide (c' = c)) as [->|Hne].
    + rewrite list_insert_ge; [done|lia].
    + by rewrite list_lookup_insert_ne.
Qed.

Lemma cont_warn (line : string) (w : World) (c : nat) : cont (warn line w) c = cont w c.
Proof. done. Qed.

Lemma cont_invalid (w : World) (c : nat) :
  length (heap w) ≤ c → cont w c = blank None false.
Proof. intros H. unfold cont. by rewrite lookup_ge_None_2. Qed.

Lemma providers_valid (w : World) (c : nat) (t : Token) (p : Provider) :
  providers (cont w c) !! t = Some p → c < length (heap w).
Proof.
  intros H. destruct (decide (c < length (heap w))) as [|Hn]; [done|].
  rewrite cont_invalid in H; [|lia]. cbn [providers blank] in H.
  by rewrite lookup_empty in H.
Qed.

Section Facts.

Variable functions : nat → JsFunction.

#[local] Abbreviation register := (register functions).
#[local] Abbreviation resolve := (resolve functions).
#[local] Abbreviation get := (get functions).
#[local] Abbreviation instantiateProvider := (instantiateProvider functions).
#[local] Abbreviation isConstructorToken := (isConstructorToken functions).
#[local] Abbreviation getTokenName := (getTokenName functions).

(** What [register] does to the container it is called on. *)
Definition registered (p : Provider) (c : DIContainer) : DIContainer :=
  {| providers := <[provide p := p]> (providers c);
     instances := match body p with
                  | UseValue v => <[provide p := v]> (instances c)
                  | _ => delete (provide p) (instances c)
                  end;
     parent := parent c; debug := debug c |}.

Lemma cont_register (this : nat) (p : Provider) (w : World) (c : nat) :
  cont (register this p w) c =
  if decide (c = this ∧ this < length (heap w)) then registered p (cont w this)
  else cont w c.
Proof.
  unfold register.
  set (w1 := if _ && _ then _ else _).
  assert (Hh : heap w1 = heap w) by (subst w1; by destruct (_ && _)).
  rewrite cont_set_cont, Hh.
  assert (Hc : cont w1 c = cont w c) by (unfold cont; by rewrite Hh).
  rewrite Hc. destruct (decide _); [|done].
  unfold registered. by destruct (body p).
Qed.

Lemma calls_register (this : nat) (p : Provider) (w : World) :
  calls (register this p w) = calls w.
Proof. unfold register. by destruct (_ && _). Qed.

Lemma length_heap_register (this : nat) (p : Provider) (w : World) :
  length (heap (register this p w)) = length (heap w).
Proof. unfold register, set_cont; simpl. rewrite length_insert. by destruct (_ && _). Qed.

Lemma parent_register (this : nat) (p : Provider) (w : World) (c : nat) :
  parent (cont (register this p w) c) = parent (cont w c).
Proof. rewrite cont_register. destruct (decide _) as [[-> _]|]; done. Qed.

Lemma providers_register (this : nat) (p : Provider) (w : World) (c : nat) (t : Token) :
  providers (cont (register this p w) c) !! t =
  if decide (c = this ∧ this < length (heap w) ∧ t = provide p) then Some p
  else providers (cont w c) !! t.
Proof.
  rewrite cont_register. destruct (decide (c = this ∧ _)) as [[-> Hlt]|Hn]; simpl.
  - rewrite lookup_insert. destruct (decide (provide p = t)) as [<-|Hne].
    + rewrite decide_True; done.
    + rewrite decide_False; [done|]. intros (_ & _ & ->); done.
  - rewrite decide_False; [done|]. intros (-> & ? & _); apply Hn; done.
Qed.

Lemma instances_register_ne (this : nat) (p : Provider) (w : World) (c : nat) (t : Token) :
  (c, t) ≠ (this, provide p) →
  instances (cont (register this p w) c) !! t = instances (cont w c) !! t.
Proof.
  intros Hne. rewrite cont_register.
  destruct (decide (c = this ∧ _)) as [[-> Hlt]|Hn]; [|done]; simpl.
  assert (provide p ≠ t) by congruence.
  destruct (body p); by rewrite ?lookup_insert_ne, ?lookup_delete_ne.
Qed.

(** ** Lookup *)

Lemma lookup_from_register_ne (n this : nat) (p : Provider) (w : World) (c : nat)
    (t : Token) :
  t ≠ provide p →
  lookupProvider_from n (register this p w) c t = lookupProvider_from n w c t.
Proof.
  intros Hne. revert c. induction n as [|n IH]; intros c; simpl;
    rewrite providers_register, parent_register;
    (rewrite decide_False; [|by intros (_ & _ & ->)]).
  - done.
  - destruct (providers (cont w c) !! t); [done|].
    destruct (parent (cont w c)); [apply IH|done].
Qed.

Lemma lookup_register_ne (this : nat) (p : Provider) (w : World) (c : nat) (t : Token) :
  t ≠ provide p →
  lookupProvider (register this p w) c t = lookupProvider w c t.
Proof. apply lookup_from_register_ne. Qed.

Lemma lookup_register_eq (this : nat) (p : Provider) (w : World) :
  this < length (heap w) →
  lookupProvider (register this p w) this (provide p) = Some (p, this).
Proof.
  intros Hlt. unfold lookupProvider.
  destruct this; simpl; rewrite providers_register, decide_True; done.
Qed.

Lemma lookup_here (w : World) (this : nat) (t : Token) (p : Provider) :
  providers (cont w this) !! t = Some p → lookupProvider w this t = Some (p, this).
Proof. intros H. unfold lookupProvider. destruct this; simpl; by rewrite H. Qed.

Lemma lookup_None_here (w : World) (this : nat) (t : Token) :
  lookupProvider w this t = None → providers (cont w this) !! t = None.
Proof.
  unfold lookupProvider. destruct this; simpl;
    destruct (providers (cont w _) !! t); done.
Qed.

Lemma lookup_from_owner (n : nat) (w : World) (c : nat) (t : Token) (p : Provider)
    (o : nat) :
  lookupProvider_from n w c t = Some (p, o) → providers (cont w o) !! t = Some p.
Proof.
  revert c. induction n as [|n IH]; intros c; simpl.
  - destruct (providers (cont w c) !! t) eqn:E; [|by destruct (parent _)].
    intros [= <- <-]; done.
  - destruct (providers (cont w c) !! t) eqn:E; [intros [= <- <-]; done|].
    destruct (parent (cont w c)); [apply IH|done].
Qed.

Lemma lookup_owner (w : World) (c : nat) (t : Token) (p : Provider) (o : nat) :
  lookupProvider w c t = Some (p, o) → providers (cont w o) !! t = Some p.
Proof. apply lookup_from_owner. Qed.

Lemma bool_decide_is_Some {A} (o : option A) :
  bool_decide (is_Some o) = match o with Some _ => true | None => false end.
Proof.
  destruct o.
  - apply bool_decide_eq_true_2; eauto.
  - apply bool_decide_eq_false_2. intros []; done.
Qed.

Lemma has_from_lookup (n : nat) (w : World) (c : nat) (t : Token) :
  has_from n w c t = bool_decide (is_Some (lookupProvider_from n w c t)).
Proof.
  revert c. induction n as [|n IH]; intros c;
    cbn [has_from lookupProvider_from]; rewrite !bool_decide_is_Some;
    destruct (providers (cont w c) !! t) eqn:E; try done.
  - by destruct (parent _).
  - destruct (parent _); [|done]. by rewrite IH, bool_decide_is_Some.
Qed.

Lemma has_lookup (w : World) (c : nat) (token : TokenArg) :
  has w c token = bool_decide (is_Some (lookupProvider w c (actualToken token))).
Proof. apply has_from_lookup. Qed.

(** ** One step of [resolve] *)

Definition is_value (p : Provider) : bool :=
  match body p with UseValue _ => true | _ => false end.

(** [declaredDeps] of [instantiateProvider]. *)
Definition declaredDeps (p : Provider) : list Token :=
  match body p with
  | UseClass useClass deps =>
      match deps with
      | Some d => d
      | None => default [] (getInjectTokens functions useClass)
      end
  | UseFactory _ deps => default [] deps
  | UseValue _ => []
  end.

(** What [instantiateProvider] does once the dependencies are resolved. *)
Definition finish (p : Provider) (args : list Value) (w : World)
  : Completion Value * World :=
  match body p with
  | UseClass useClass _ =>
      match invoke functions (provide p) useClass args w with
      | (Normal instance, w2) => (Normal instance, w2)
      | (Throw error, w2) =>
          (Throw (instantiate_failed_message functions (provide p) error (declaredDeps p)),
           w2)
      end
  | UseFactory useFactory _ =>
      let expectedParams := fn_length (functions useFactory) in
      if bool_decide (0 < expectedParams) && bool_decide (length args ≠ expectedParams)
      then (Throw (count_mismatch_message functions (provide p) expectedParams
                     (length args) (declaredDeps p)), w)
      else
        match invoke functions (provide p) useFactory args w with
        | (Normal instance, w2) => (Normal instance, w2)
        | (Throw error, w2) =>
            (Throw (factory_failed_message functions (provide p) error (declaredDeps p)),
             w2)
        end
  | UseValue v => (Normal v, w)
  end.

Lemma instantiate_eq rec (this : nat) (p : Provider) (R : list Token) (w : World) :
  instantiateProvider rec this p R w =
  match resolveDependencies rec this (declaredDeps p) R w with
  | None => None
  | Some (Throw e, R1, w1) => Some (Throw e, R1, w1)
  | Some (Normal args, R1, w1) => Some ((finish p args w1).1, R1, (finish p args w1).2)
  end.
Proof.
  unfold instantiateProvider, finish, declaredDeps.
  destruct (body p) as [v|k deps|f deps]; [done| |].
  - destruct (resolveDependencies _ _ _ _ _) as [[[[args|e] R1] w1]|]; try done.
    unfold invoke. by destruct (fn_body (functions k) _ _).
  - destruct (resolveDependencies _ _ _ _ _) as [[[[args|e] R1] w1]|]; try done.
    destruct (_ && _); [done|]. unfold invoke. by destruct (fn_body (functions f) _ _).
Qed.

Lemma resolve_unfold (fuel this : nat) (token : Token) (R : list Token) (w : World) :
  resolve (S fuel) this token R w =
  match lookupProvider w this token with
  | None =>
      if isConstructorToken token then
        match token with
        | TFunction f =>
            resolve fuel this token R
              (register this {| provide := token; lifetime := None; body := UseClass f None |} w)
        | _ => None
        end
      else Some (Throw (missing_provider_message functions R token), R, w)
  | Some (p, o) =>
      if is_value p then
        match body p with UseValue v => Some (Normal v, R, w) | _ => None end
      else
        match cached w o p with
        | Some instance => Some (Normal instance, R, w)
        | None =>
            if set_has (provide p) R then
              Some (Throw (circular_message functions R (provide p)), R, w)
            else
              match instantiateProvider (resolve fuel) this p (set_add (provide p) R) w with
              | None => None
              | Some (Normal instance, R1, w1) =>
                  Some (Normal instance, set_delete (provide p) R1, cache o p instance w1)
              | Some (Throw error, R1, w1) =>
                  Some (Throw error, set_delete (provide p) R1, w1)
              end
        end
  end.
Proof.
  simpl. destruct (lookupProvider w this token) as [[p o]|].
  - unfold is_value. by destruct (body p).
  - by destruct token.
Qed.

(** The tail of [instantiateProvider]: at most one call, entered in the log. *)
Lemma finish_heap (p : Provider) (args : list Value) (w : World) :
  heap (finish p args w).2 = heap w.
Proof.
  unfold finish, invoke. destruct (body p) as [v|k deps|f deps]; simpl; try done.
  - by destruct (fn_body (functions k) _ _).
  - destruct (_ && _); [done|]. by destruct (fn_body (functions f) _ _).
Qed.

(** The function that [p] calls: its class or its factory. *)
Definition callee (p : Provider) : nat :=
  match body p with
  | UseClass useClass _ => useClass
  | UseFactory useFactory _ => useFactory
  | UseValue _ => 0
  end.

(** The error thrown when the factory or constructor of [p] throws [error]. *)
Definition failed_message (p : Provider) (error : string) : string :=
  match body p with
  | UseFactory _ _ => factory_failed_message functions (provide p) error (declaredDeps p)
  | _ => instantiate_failed_message functions (provide p) error (declaredDeps p)
  end.

Lemma finish_calls (p : Provider) (args : list Value) (w : World) :
  is_value p = false →
  (calls (finish p args w).2 = calls w ∧ ∃ e, (finish p args w).1 = Throw e)
  ∨ ∃ (r : Completion Value), calls (finish p args w).2
           = (calls w ++ [{| inv_for := provide p; inv_fn := callee p; inv_args := args;
                            inv_result := r |}])%list
         ∧ r = fn_body (functions (callee p)) (length (calls w)) args
         ∧ match r with
           | Normal v => (finish p args w).1 = Normal v
           | Throw error => (finish p args w).1 = Throw (failed_message p error)
           end.
Proof.
  unfold is_value, finish, failed_message, invoke, callee.
  destruct (body p) as [v|k deps|f deps]; [done| |]; intros _.
  - right. exists (fn_body (functions k) (length (calls w)) args).
    destruct (fn_body (functions k) _ _); simpl; eauto.
  - destruct (_ && _); simpl; [left; eauto|].
    right. exists (fn_body (functions f) (length (calls w)) args).
    destruct (fn_body (functions f) _ _); simpl; eauto.
Qed.

(** ** Parents *)

(** A parent is constructed before its child. *)
Definition wf_parents (w : World) : Prop :=
  ∀ c q, parent (cont w c) = Some q → q < c.

Lemma lookup_from_fuel (w : World) (n m c : nat) (t : Token) :
  wf_parents w → c ≤ n → c ≤ m →
  lookupProvider_from n w c t = lookupProvider_from m w c t.
Proof.
  intros Hwf. revert m c. induction n as [|n IH]; intros m c Hn Hm.
  - destruct m as [|m]; [done|]. simpl.
    destruct (providers (cont w c) !! t); [done|].
    destruct (parent (cont w c)) as [q|] eqn:Hq; [|done]. apply Hwf in Hq. lia.
  - destruct m as [|m]; simpl;
      (destruct (providers (cont w c) !! t); [done|]);
      (destruct (parent (cont w c)) as [q|] eqn:Hq; [|done]); apply Hwf in Hq.
    + lia.
    + apply IH; lia.
Qed.

(** [lookupProvider] as the source writes it. *)
Lemma lookup_unfold (w : World) (c : nat) (t : Token) :
  wf_parents w →
  lookupProvider w c t =
  match providers (cont w c) !! t with
  | Some p => Some (p, c)
  | None =>
      match parent (cont w c) with
      | Some q => lookupProvider w q t
      | None => None
      end
  end.
Proof.
  intros Hwf. unfold lookupProvider. destruct c as [|c]; simpl;
    (destruct (providers (cont w _) !! t); [done|]);
    (destruct (parent (cont w _)) as [q|] eqn:Hq; [|done]); apply Hwf in Hq; [lia|].
  apply lookup_from_fuel; [done|lia..].
Qed.

Lemma has_unfold (w : World) (c : nat) (token : TokenArg) :
  wf_parents w →
  has w c token =
  bool_decide (is_Some (providers (cont w c) !! actualToken token))
  || match parent (cont w c) with
     | Some q => has w q token
     | None => false
     end.
Proof.
  intros Hwf. rewrite has_lookup, lookup_unfold, !bool_decide_is_Some by done.
  destruct (providers (cont w c) !! actualToken token); [done|].
  destruct (parent (cont w c)); [|done]. by rewrite has_lookup, bool_decide_is_Some.
Qed.

(** ** What a resolution leaves untouched *)

(** A token in the resolving set whose provider is still to be instantiated. *)
Definition pending (w : World) (this : nat) (x : Token) (p : Provider) (o : nat) : Prop :=
  lookupProvider w this x = Some (p, o) ∧ provide p = x ∧ is_value p = false
  ∧ cached w o p = None.

Definition keyed (w : World) : Prop :=
  ∀ c t p, providers (cont w c) !! t = Some p → provide p = t.

(** The provider that [resolve] registers for a constructor token. *)
Definition auto_provider (f : nat) : Provider :=
  {| provide := TFunction f; lifetime := None; body := UseClass f None |}.

(** [Frame this R w w']: a resolution started from container [this] with
    resolving set [R] took the store from [w] to [w']. *)
Record Frame (this : nat) (R : list Token) (w w' : World) : Prop := {
  fr_length : length (heap w') = length (heap w);
  fr_parent : ∀ c, parent (cont w' c) = parent (cont w c);
  fr_providers : ∀ c t p,
    providers (cont w c) !! t = Some p → providers (cont w' c) !! t = Some p;
  fr_instances : ∀ c t p v,
    providers (cont w c) !! t = Some p → instances (cont w c) !! t = Some v →
    instances (cont w' c) !! t = Some v;
  fr_new : ∀ c t p,
    providers (cont w' c) !! t = Some p →
    providers (cont w c) !! t = Some p
    ∨ ∃ f, t = TFunction f ∧ p = auto_provider f ∧ isConstructorToken t = true;
  fr_other : ∀ c t, c ≠ this → providers (cont w' c) !! t = providers (cont w c) !! t;
  fr_lookup : ∀ t x, lookupProvider w this t = Some x → lookupProvider w' this t = Some x;
  fr_lookup_all : wf_parents w →
    ∀ c t x, lookupProvider w c t = Some x → lookupProvider w' c t = Some x;
  fr_pending : ∀ x p o, x ∈ R → pending w this x p o → pending w' this x p o;
  fr_calls : ∃ delta, calls w' = (calls w ++ delta)%list
    ∧ ∀ x p o, x ∈ R → pending w this x p o → Forall (λ i, inv_for i ≠ x) delta;
}.

Lemma Frame_refl (this : nat) (R : list Token) (w : World) : Frame this R w w.
Proof.
  split; try done; [by left|].
  exists []. split; [by rewrite app_nil_r|]. intros; constructor.
Qed.

Lemma fr_keyed (this : nat) (R : list Token) (w w' : World) :
  Frame this R w w' → keyed w → keyed w'.
Proof.
  intros F Hk c t p Hp.
  destruct (fr_new _ _ _ _ F _ _ _ Hp) as [?|(f & -> & -> & _)]; [|done].
  by apply (Hk c).
Qed.

Lemma Frame_wf_parents (this : nat) (R : list Token) (w w' : World) :
  Frame this R w w' → wf_parents w → wf_parents w'.
Proof. intros F Hwf c q. rewrite (fr_parent _ _ _ _ F). apply Hwf. Qed.

Lemma Frame_trans (this : nat) (R : list Token) (w1 w2 w3 : World) :
  Frame this R w1 w2 → Frame this R w2 w3 → Frame this R w1 w3.
Proof.
  intros F1 F2. split.
  - rewrite (fr_length _ _ _ _ F2). apply F1.
  - intros c. rewrite (fr_parent _ _ _ _ F2). apply F1.
  - intros c t p Hp. by apply F2, F1.
  - intros c t p v Hp Hv.
    eapply (fr_instances _ _ _ _ F2); [by apply (fr_providers _ _ _ _ F1)|].
    by eapply (fr_instances _ _ _ _ F1).
  - intros c t p Hp. destruct (fr_new _ _ _ _ F2 _ _ _ Hp) as [Hold|?]; [|by right].
    by apply (fr_new _ _ _ _ F1).
  - intros c t Hc. rewrite (fr_other _ _ _ _ F2) by done. by apply F1.
  - intros t x Hx. by apply F2, F1.
  - intros Hwf c t x Hx.
    apply (fr_lookup_all _ _ _ _ F2); [by eapply Frame_wf_parents|].
    by apply (fr_lookup_all _ _ _ _ F1).
  - intros x p o Hx Hp. apply (fr_pending _ _ _ _ F2); [done|]. by apply F1.
  - destruct (fr_calls _ _ _ _ F1) as (d1 & C1 & A1).
    destruct (fr_calls _ _ _ _ F2) as (d2 & C2 & A2).
    exists (d1 ++ d2)%list. split; [by rewrite C2, C1, app_assoc|].
    intros x p o Hx Hp. apply Forall_app; split; [by eapply A1|].
    eapply A2; [done|]. by apply F1.
Qed.

Lemma Frame_mono (this : nat) (R R' : list Token) (w w' : World) :
  R ⊆ R' → Frame this R' w w' → Frame this R w w'.
Proof.
  intros Hsub F. split; try apply F.
  - intros x p o Hx. apply F. by apply Hsub.
  - destruct (fr_calls _ _ _ _ F) as (d & C & A).
    exists d. split; [done|]. intros x p o Hx. apply A. by apply Hsub.
Qed.

Lemma lookup_from_ext (n : nat) (w w' : World) (c : nat) (t : Token) :
  (∀ c, providers (cont w' c) !! t = providers (cont w c) !! t) →
  (∀ c, parent (cont w' c) = parent (cont w c)) →
  lookupProvider_from n w' c t = lookupProvider_from n w c t.
Proof.
  intros Hp Hq. revert c. induction n as [|n IH]; intros c; simpl; rewrite Hp, Hq.
  - done.
  - destruct (providers (cont w c) !! t); [done|].
    destruct (parent (cont w c)); [apply IH|done].
Qed.

Lemma cont_cache (o : nat) (p : Provider) (v : Value) (w : World) (c : nat) :
  cont (cache o p v w) c =
  if decide (lifetime_of p = Singleton ∧ c = o ∧ o < length (heap w))
  then set_instances (<[provide p := v]> (instances (cont w o))) (cont w o)
  else cont w c.
Proof.
  unfold cache. destruct (lifetime_of p).
  - rewrite cont_set_cont. destruct (decide (c = o ∧ _)) as [[-> ?]|Hn].
    + by rewrite decide_True.
    + rewrite decide_False; [done|]. intros (_ & ? & ?); by apply Hn.
  - by rewrite decide_False by (by intros [? _]).
Qed.

Lemma providers_cache (o : nat) (p : Provider) (v : Value) (w : World) (c : nat) :
  providers (cont (cache o p v w) c) = providers (cont w c).
Proof. rewrite cont_cache. by destruct (decide _) as [(_ & -> & _)|]. Qed.

Lemma parent_cache (o : nat) (p : Provider) (v : Value) (w : World) (c : nat) :
  parent (cont (cache o p v w) c) = parent (cont w c).
Proof. rewrite cont_cache. by destruct (decide _) as [(_ & -> & _)|]. Qed.

Lemma instances_cache_ne (o : nat) (p : Provider) (v : Value) (w : World) (c : nat)
    (t : Token) :
  (c, t) ≠ (o, provide p) →
  instances (cont (cache o p v w) c) !! t = instances (cont w c) !! t.
Proof.
  intros Hne. rewrite cont_cache. destruct (decide _) as [(_ & -> & _)|]; [|done].
  simpl. rewrite lookup_insert_ne; [done|congruence].
Qed.

Lemma instances_cache_eq (o : nat) (p : Provider) (v : Value) (w : World) :
  lifetime_of p = Singleton → o < length (heap w) →
  instances (cont (cache o p v w) o) !! provide p = Some v.
Proof.
  intros Hl Hlt. rewrite cont_cache, decide_True by done. simpl.
  by rewrite lookup_insert_eq.
Qed.

Lemma lookup_cache (o : nat) (p : Provider) (v : Value) (w : World) (c : nat) (t : Token) :
  lookupProvider (cache o p v w) c t = lookupProvider w c t.
Proof.
  apply lookup_from_ext; intros c'; by rewrite ?providers_cache, ?parent_cache.
Qed.

Lemma calls_cache (o : nat) (p : Provider) (v : Value) (w : World) :
  calls (cache o p v w) = calls w.
Proof. unfold cache. by destruct (lifetime_of p). Qed.

Lemma length_heap_cache (o : nat) (p : Provider) (v : Value) (w : World) :
  length (heap (cache o p v w)) = length (heap w).
Proof. unfold cache. destruct (lifetime_of p); [|done]. simpl. by rewrite length_insert. Qed.

Lemma cached_None_instances (w : World) (o : nat) (p : Provider) :
  cached w o p = None →
  lifetime_of p = Transient ∨ instances (cont w o) !! provide p = None.
Proof. unfold cached. destruct (lifetime_of p); eauto. Qed.

(** Caching the instance of a provider that had none when the resolution
    started. *)
Lemma Frame_cache (this : nat) (R : list Token) (w w1 : World) (o : nat) (p : Provider)
    (v : Value) :
  Frame this R w w1 → cached w o p = None → provide p ∉ R →
  Frame this R w (cache o p v w1).
Proof.
  intros F Hc Hn. split.
  - rewrite length_heap_cache. apply F.
  - intros c. rewrite parent_cache. apply F.
  - intros c t q Hq. rewrite providers_cache. by apply F.
  - intros c t q u Hq Hu.
    destruct (cached_None_instances _ _ _ Hc) as [Ht|Hnone].
    + unfold cache. rewrite Ht. by eapply (fr_instances _ _ _ _ F).
    + rewrite instances_cache_ne; [by eapply (fr_instances _ _ _ _ F)|].
      intros [= -> ->]. congruence.
  - intros c t q. rewrite providers_cache. apply F.
  - intros c t Hc'. rewrite providers_cache. by apply F.
  - intros t x Hx. rewrite lookup_cache. by apply F.
  - intros Hwf c t x Hx. rewrite lookup_cache. by apply F.
  - intros x q o' Hx Hq.
    destruct (fr_pending _ _ _ _ F x q o' Hx Hq) as (Hl & Hpx & Hv & Hcx).
    split; [by rewrite lookup_cache|]. split; [done|]. split; [done|].
    unfold cached in *. destruct (lifetime_of q); [|done].
    rewrite instances_cache_ne; [done|]. intros [= -> Heq]. apply Hn. congruence.
  - destruct (fr_calls _ _ _ _ F) as (d & C & A). exists d. by rewrite calls_cache.
Qed.

(** The call of the factory or constructor itself. *)
Lemma Frame_finish (this : nat) (R : list Token) (w : World) (p : Provider)
    (args : list Value) :
  is_value p = false → provide p ∉ R → Frame this R w (finish p args w).2.
Proof.
  intros Hv Hn.
  assert (Hc : ∀ c, cont (finish p args w).2 c = cont w c)
    by (intros c; unfold cont; by rewrite finish_heap).
  assert (Hl : ∀ c t, lookupProvider (finish p args w).2 c t = lookupProvider w c t).
  { intros c t. apply lookup_from_ext; intros c'; by rewrite Hc. }
  split.
  - by rewrite finish_heap.
  - intros c. by rewrite Hc.
  - intros c t q. by rewrite Hc.
  - intros c t q u. by rewrite Hc.
  - intros c t q. rewrite Hc. by left.
  - intros c t _. by rewrite Hc.
  - intros t x. by rewrite Hl.
  - intros _ c t x. by rewrite Hl.
  - intros x q o Hx (H1 & H2 & H3 & H4). unfold pending, cached in *.
    rewrite Hl, Hc. done.
  - destruct (finish_calls p args w Hv) as [[-> _]|(r & -> & _)].
    + exists []. split; [by rewrite app_nil_r|]. intros; constructor.
    + eexists. split; [done|]. intros x q o Hx _. constructor; [|constructor].
      simpl. intros <-. done.
Qed.

(** Registering where lookup finds nothing changes no lookup that found
    something. *)
Lemma lookup_from_register_stable (this : nat) (p : Provider) (w : World) (n c : nat) x :
  wf_parents w → lookupProvider w this (provide p) = None → c ≤ n →
  lookupProvider_from n w c (provide p) = Some x →
  lookupProvider_from n (register this p w) c (provide p) = Some x.
Proof.
  intros Hwf Hnone. revert c.
  assert (Hthis : ∀ m, this ≤ m → lookupProvider_from m w this (provide p) = None).
  { intros m Hm. rewrite <-Hnone. unfold lookupProvider.
    by apply lookup_from_fuel. }
  induction n as [|n IH]; intros c Hle; simpl;
    rewrite providers_register, parent_register.
  - destruct (decide _) as [(-> & _ & _)|_]; [|done].
    intros Hx. specialize (Hthis 0 Hle). simpl in Hthis. congruence.
  - destruct (decide _) as [(-> & _ & _)|_].
    + intros Hx. specialize (Hthis (S n) Hle). simpl in Hthis. congruence.
    + destruct (providers (cont w c) !! provide p); [done|].
      destruct (parent (cont w c)) as [q|] eqn:Hq; [|done].
      apply IH. apply Hwf in Hq. lia.
Qed.

Lemma lookup_register_stable (this : nat) (p : Provider) (w : World) (c : nat)
    (t : Token) x :
  wf_parents w → lookupProvider w this (provide p) = None →
  lookupProvider w c t = Some x → lookupProvider (register this p w) c t = Some x.
Proof.
  intros Hwf Hnone. destruct (decide (t = provide p)) as [->|Hne];
    [|by rewrite lookup_register_ne].
  by apply lookup_from_register_stable.
Qed.

(** Auto-registration of a constructor token that has no provider. *)
Lemma Frame_register (this : nat) (R : list Token) (w : World) (f : nat) :
  isConstructorToken (TFunction f) = true →
  lookupProvider w this (TFunction f) = None →
  Frame this R w (register this (auto_provider f) w).
Proof.
  intros Hctor Hnone. pose proof (lookup_None_here _ _ _ Hnone) as Hhere.
  split.
  - apply length_heap_register.
  - intros c. apply parent_register.
  - intros c t q Hq. rewrite providers_register. cbn [provide auto_provider].
    destruct (decide _) as [(-> & _ & ->)|]; [congruence|done].
  - intros c t q u Hq Hu. rewrite instances_register_ne; [done|].
    cbn [provide auto_provider]. intros [= -> ->]. congruence.
  - intros c t q. rewrite providers_register. cbn [provide auto_provider].
    destruct (decide _) as [(-> & _ & ->)|]; [intros [= <-]; right; by exists f|by left].
  - intros c t Hc. rewrite providers_register. rewrite decide_False; [done|].
    by intros (-> & _).
  - intros t x Hx. rewrite lookup_register_ne; [done|].
    cbn [provide auto_provider]. intros ->. congruence.
  - intros Hwf c t x. by apply lookup_register_stable.
  - intros x q o Hx (H1 & H2 & H3 & H4).
    assert (x ≠ TFunction f) by (intros ->; congruence).
    split; [by rewrite lookup_register_ne|]. split; [done|]. split; [done|].
    unfold cached in *. destruct (lifetime_of q); [|done].
    rewrite instances_register_ne; [done|].
    cbn [provide auto_provider]. intros [= -> Heq]. congruence.
  - exists []. rewrite calls_register. split; [by rewrite app_nil_r|]. intros; constructor.
Qed.

Lemma set_delete_add (x : Token) (R : list Token) :
  set_has x R = false → set_delete x (set_add x R) = R.
Proof.
  intros Hx. unfold set_add, set_delete. rewrite Hx.
  apply bool_decide_eq_false in Hx.
  rewrite filter_app, filter_cons_False, filter_nil, app_nil_r by (by intros ?).
  induction R as [|y R IH]; [done|].
  rewrite filter_cons_True.
  - f_equal. apply IH. set_solver.
  - intros ->. apply Hx. left.
Qed.

Lemma set_has_false (x : Token) (R : list Token) : x ∉ R → set_has x R = false.
Proof. intros H. by apply bool_decide_eq_false_2. Qed.

Lemma set_has_true (x : Token) (R : list Token) : x ∈ R → set_has x R = true.
Proof. intros H. by apply bool_decide_eq_true_2. Qed.

Lemma set_add_subseteq (x : Token) (R : list Token) : R ⊆ set_add x R.
Proof. unfold set_add. destruct (set_has x R); set_solver. Qed.

Lemma elem_of_set_add (x : Token) (R : list Token) : x ∈ set_add x R.
Proof.
  unfold set_add. destruct (set_has x R) eqn:E; [|set_solver].
  by apply bool_decide_eq_true in E.
Qed.

(** A resolution function that hands back the resolving set it was given
    and respects [Frame]. *)
Definition framed (rec : nat → Token → list Token → World → Outcome Value) : Prop :=
  ∀ this t R w res R1 w1,
    rec this t R w = Some (res, R1, w1) → R1 = R ∧ Frame this R w w1.

Lemma resolveDependencies_framed rec (this : nat) (depTokens R : list Token) (w : World)
    res R1 w1 :
  framed rec →
  resolveDependencies rec this depTokens R w = Some (res, R1, w1) →
  R1 = R ∧ Frame this R w w1.
Proof.
  intros Hrec. revert R w res R1 w1.
  induction depTokens as [|d ds IH]; intros R w res R1 w1; simpl.
  - intros [= <- <- <-]. split; [done|apply Frame_refl].
  - destruct (rec this d R w) as [[[[v|e] R2] w2]|] eqn:E; [| |done].
    + destruct (Hrec _ _ _ _ _ _ _ E) as [-> F1].
      destruct (resolveDependencies rec this ds R w2) as [[[[vs|e] R3] w3]|] eqn:E2;
        [| |done]; intros [= <- <- <-];
        destruct (IH _ _ _ _ _ E2) as [-> F2]; eauto using Frame_trans.
    + intros [= <- <- <-]. by apply Hrec in E.
Qed.

Lemma resolve_framed (fuel : nat) : framed (resolve fuel).
Proof.
  induction fuel as [|fuel IH]; intros this t R w res R1 w1; [done|].
  rewrite resolve_unfold.
  destruct (lookupProvider w this t) as [[p o]|] eqn:Hl.
  - destruct (is_value p) eqn:Hv.
    { destruct (body p); [|done..]. intros [= <- <- <-]. eauto using Frame_refl. }
    destruct (cached w o p) as [u|] eqn:Hc.
    { intros [= <- <- <-]. eauto using Frame_refl. }
    destruct (set_has (provide p) R) eqn:Hr.
    { intros [= <- <- <-]. eauto using Frame_refl. }
    rewrite instantiate_eq.
    destruct (resolveDependencies _ _ _ _ _) as [[[[args|e] R2] w2]|] eqn:E; [| |done].
    + destruct (resolveDependencies_framed _ _ _ _ _ _ _ _ IH E) as [-> F].
      apply (Frame_mono _ R) in F; [|apply set_add_subseteq].
      assert (Hn : provide p ∉ R) by (by apply bool_decide_eq_false in Hr).
      assert (F2 : Frame this R w (finish p args w2).2)
        by eauto using Frame_trans, Frame_finish.
      destruct (finish p args w2) as [[u|e] w3]; simpl in *;
        intros [= <- <- <-]; (split; [by apply set_delete_add|]); [|done].
      by apply Frame_cache.
    + destruct (resolveDependencies_framed _ _ _ _ _ _ _ _ IH E) as [-> F].
      intros [= <- <- <-]. split; [by apply set_delete_add|].
      eapply Frame_mono; [apply set_add_subseteq|done].
  - destruct (isConstructorToken t) eqn:Hk.
    + destruct t as [| |f]; [done..|]. intros E. apply IH in E as [-> F].
      split; [done|]. eapply Frame_trans; [|done].
      by apply Frame_register.
    + intros [= <- <- <-]. eauto using Frame_refl.
Qed.

(** Recursion depth: more never changes an answer. *)
Definition resolve_le (rec rec' : nat → Token → list Token → World → Outcome Value) : Prop :=
  ∀ this t R w r, rec this t R w = Some r → rec' this t R w = Some r.

Lemma resolveDependencies_le rec rec' (this : nat) (depTokens R : list Token) (w : World) r :
  resolve_le rec rec' →
  resolveDependencies rec this depTokens R w = Some r →
  resolveDependencies rec' this depTokens R w = Some r.
Proof.
  intros Hle. revert R w r. induction depTokens as [|d ds IH]; intros R w r; simpl; [done|].
  destruct (rec this d R w) as [[[[v|e] R2] w2]|] eqn:E; [| |done];
    rewrite (Hle _ _ _ _ _ E); [|done].
  destruct (resolveDependencies rec this ds R2 w2) as [r2|] eqn:E2; [|done].
  by rewrite (IH _ _ _ E2).
Qed.

Lemma resolve_S (fuel : nat) : resolve_le (resolve fuel) (resolve (S fuel)).
Proof.
  induction fuel as [|fuel IH]; intros this t R w r; [done|].
  rewrite (resolve_unfold (S fuel)), (resolve_unfold fuel).
  destruct (lookupProvider w this t) as [[p o]|].
  - destruct (is_value p); [done|]. destruct (cached w o p); [done|].
    destruct (set_has _ _); [done|]. rewrite !instantiate_eq.
    destruct (resolveDependencies (resolve fuel) _ _ _ _) as [r2|] eqn:E; [|done].
    by rewrite (resolveDependencies_le _ _ _ _ _ _ _ IH E).
  - destruct (isConstructorToken t); [|done]. destruct t; try done. apply IH.
Qed.

Lemma resolve_fuel_mono (fuel fuel' : nat) (this : nat) (t : Token) (R : list Token)
    (w : World) r :
  fuel ≤ fuel' → resolve fuel this t R w = Some r → resolve fuel' this t R w = Some r.
Proof. induction 1 as [|n Hle IH]; [done|]. intros E. by apply resolve_S, IH. Qed.

Lemma get_fuel_mono (fuel fuel' : nat) (this : nat) (token : TokenArg) (w : World) r :
  fuel ≤ fuel' → get fuel this token w = Some r → get fuel' this token w = Some r.
Proof.
  intros Hle. unfold get.
  destruct (resolve fuel _ _ _ _) as [[[c R] w1]|] eqn:E; [|done].
  by rewrite (resolve_fuel_mono _ _ _ _ _ _ _ Hle E).
Qed.

(** ** The instantiating step of [resolve], taken apart *)

Definition entry (t : Token) (f : nat) (args : list Value) (r : Completion Value)
  : Invocation :=
  {| inv_for := t; inv_fn := f; inv_args := args; inv_result := r |}.

Lemma pending_cached (w : World) (this : nat) (t : Token) (p : Provider) (o : nat) :
  pending w this t p o → cached w o p = None.
Proof. by intros (_ & _ & _ & ?). Qed.

(** A token still to be instantiated and not in progress: its dependencies
    are resolved without any call made for the token itself, then its
    factory or constructor is called at most once. *)
Lemma resolve_instantiates (fuel this : nat) (t : Token) (R : list Token) (w : World)
    (p : Provider) (o : nat) res R1 w1 :
  pending w this t p o → t ∉ R →
  resolve (S fuel) this t R w = Some (res, R1, w1) →
  R1 = R ∧ ∃ (mid : list Invocation) (w2 : World) (dr : Completion (list Value)),
    resolveDependencies (resolve fuel) this (declaredDeps p) (set_add t R) w
      = Some (dr, set_add t R, w2)
    ∧ Frame this (set_add t R) w w2
    ∧ calls w2 = (calls w ++ mid)%list
    ∧ Forall (λ i, inv_for i ≠ t) mid
    ∧ match dr with
      | Throw e => res = Throw e ∧ w1 = w2
      | Normal args =>
          match (finish p args w2).1 with
          | Normal v => res = Normal v ∧ w1 = cache o p v (finish p args w2).2
          | Throw e => res = Throw e ∧ w1 = (finish p args w2).2
          end
      end.
Proof.
  intros Hp Hn. pose proof Hp as (Hl & Hpt & Hv & Hc).
  rewrite resolve_unfold, Hl, Hv, Hc, Hpt.
  rewrite set_has_false by done.
  rewrite instantiate_eq.
  destruct (resolveDependencies _ _ _ _ _) as [[[dr R2] w2]|] eqn:E; [|by destruct fuel].
  destruct (resolveDependencies_framed _ _ _ _ _ _ _ _ (resolve_framed fuel) E) as [-> F].
  assert (Hd : set_delete t (set_add t R) = R)
    by (by apply set_delete_add, set_has_false).
  destruct (fr_calls _ _ _ _ F) as (mid & Hcalls & Hmid).
  assert (Hfa : Forall (λ i, inv_for i ≠ t) mid)
    by (eapply Hmid; [apply elem_of_set_add|done]).
  intros Hres.
  assert (R1 = R ∧
          match dr with
          | Throw e => res = Throw e ∧ w1 = w2
          | Normal args =>
              match (finish p args w2).1 with
              | Normal v => res = Normal v ∧ w1 = cache o p v (finish p args w2).2
              | Throw e => res = Throw e ∧ w1 = (finish p args w2).2
              end
          end) as [-> Hcase].
  { destruct dr as [args|e]; [destruct ((finish p args w2).1) as [v|e]|];
      rewrite Hd in Hres; by injection Hres as <- <-. }
  split; [done|]. by exists mid, w2, dr.
Qed.

Lemma resolve_cached (fuel this : nat) (t : Token) (R : list Token) (w : World)
    (p : Provider) (o : nat) (v : Value) :
  lookupProvider w this t = Some (p, o) → is_value p = false → cached w o p = Some v →
  resolve (S fuel) this t R w = Some (Normal v, R, w).
Proof. intros Hl Hv Hc. by rewrite resolve_unfold, Hl, Hv, Hc. Qed.

Lemma owner_valid (w : World) (this : nat) (t : Token) (p : Provider) (o : nat) :
  lookupProvider w this t = Some (p, o) → o < length (heap w).
Proof. intros Hl. eapply providers_valid, lookup_owner, Hl. Qed.

(** A successful instantiation: exactly one call for the token, which
    produced the instance; a singleton is then cached in the owner. *)
Lemma resolve_creates (fuel this : nat) (t : Token) (R : list Token) (w : World)
    (p : Provider) (o : nat) (v : Value) R1 w1 :
  pending w this t p o → t ∉ R →
  resolve (S fuel) this t R w = Some (Normal v, R1, w1) →
  (∃ mid args, calls w1 = (calls w ++ mid ++ [entry t (callee p) args (Normal v)])%list
               ∧ Forall (λ i, inv_for i ≠ t) mid)
  ∧ lookupProvider w1 this t = Some (p, o)
  ∧ cached w1 o p = match lifetime_of p with Singleton => Some v | Transient => None end
  ∧ Frame this R w w1.
Proof.
  intros Hp Hn Hres. pose proof Hp as (Hl & Hpt & Hv & Hc).
  pose proof (resolve_framed _ _ _ _ _ _ _ _ Hres) as [_ Fall].
  destruct (resolve_instantiates _ _ _ _ _ _ _ _ _ _ Hp Hn Hres)
    as (-> & mid & w2 & dr & Hdeps & F & Hcalls & Hmid & Hcase).
  destruct dr as [args|e]; [|by destruct Hcase].
  destruct (finish_calls p args w2 Hv) as [[_ [e He]]|(r & Hc3 & Hr & Hfin)].
  { rewrite He in Hcase. by destruct Hcase. }
  destruct ((finish p args w2).1) as [u|e] eqn:Efin; [|by destruct Hcase].
  destruct Hcase as [[= <-] ->].
  destruct r as [v0|e]; [|congruence]. assert (v0 = v) as -> by congruence.
  split; [|split; [|split]]; [| | |done].
  - exists mid, args. split; [|done].
    rewrite calls_cache, Hc3, Hcalls, Hpt. by rewrite <-app_assoc.
  - by apply (fr_lookup _ _ _ _ Fall).
  - unfold cached. destruct (lifetime_of p) eqn:Hlt; [|done].
    apply instances_cache_eq; [done|].
    rewrite finish_heap, (fr_length _ _ _ _ F). by eapply owner_valid.
Qed.

Lemma keyed_lookup (w : World) (this : nat) (t : Token) (p : Provider) (o : nat) :
  keyed w → lookupProvider w this t = Some (p, o) → provide p = t.
Proof. intros Hk Hl. eapply Hk, lookup_owner, Hl. Qed.



(** [n] calls of [get] for the same token, one after the other. *)
Fixpoint get_times (fuel : nat) (this : nat) (token : TokenArg) (n : nat) (w : World)
  : option (list (Completion Value) * World) :=
  match n with
  | 0 => Some ([], w)
  | S n' =>
      match get fuel this token w with
      | None => None
      | Some (r, w1) =>
          match get_times fuel this token n' w1 with
          | None => None
          | Some (rs, w2) => Some (r :: rs, w2)
          end
      end
  end.

Lemma get_cached (fuel this : nat) (t : Token) (w : World) (p : Provider) (o : nat)
    (v : Value) :
  lookupProvider w this t = Some (p, o) → is_value p = false → cached w o p = Some v →
  get (S fuel) this (ArgToken t) w = Some (Normal v, w).
Proof. intros Hl Hv Hc. unfold get. simpl actualToken. by erewrite resolve_cached. Qed.


(** ** Missing providers *)


(** ** Lifetimes *)


(** ** Constructor tokens *)


(** ** A factory or constructor that throws *)

Lemma pending_same_heap (w w' : World) (this : nat) (t : Token) (p : Provider) (o : nat) :
  heap w' = heap w → pending w this t p o → pending w' this t p o.
Proof.
  intros Hh (H1 & H2 & H3 & H4).
  assert (Hc : ∀ c, cont w' c = cont w c) by (intros c; unfold cont; by rewrite Hh).
  split; [|split; [done|split; [done|]]].
  - rewrite <-H1. apply lookup_from_ext; intros c; by rewrite Hc.
  - unfold cached in *. by rewrite Hc.
Qed.

(** C10. The provider found for [t] is a class or factory provider with no
    cached instance, and the call of its factory or constructor, the last
    call made while [t] was resolved, threw [msg].  Then the resolution
    throws (the container's failure message around [msg]); the resolving set
    comes back as it was given, without [t]; nothing is cached for [t] and
    its provider is still the one found; so the next [get] neither finds a
    stale instance nor reports a cycle, it instantiates the provider again.
    [get] is [resolve] on the empty resolving set. *)
Theorem failed_instantiation_leaves_no_trace (fuel this : nat) (t : Token)
    (R : list Token) (w : World) (p : Provider) (o : nat)
    res R1 w1 (mid : list Invocation) (args : list Value) (msg : string) :
  keyed w →
  lookupProvider w this t = Some (p, o) →
  is_value p = false →
  cached w o p = None →
  resolve (S fuel) this t R w = Some (res, R1, w1) →
  calls w1 = (calls w ++ mid ++ [entry t (callee p) args (Throw msg)])%list →
  res = Throw (failed_message p msg)
  ∧ R1 = R ∧ (t ∉ R1)
  ∧ lookupProvider w1 this t = Some (p, o)
  ∧ cached w1 o p = None
  ∧ (lifetime_of p = Singleton → instances (cont w1 o) !! t = None)
  ∧ ∀ fuel',
      get (S fuel') this (ArgToken t) w1
      = match instantiateProvider (resolve fuel') this p [t] w1 with
        | None => None
        | Some (Normal instance, _, w2) => Some (Normal instance, cache o p instance w2)
        | Some (Throw error, _, w2) => Some (Throw error, w2)
        end.
Proof.
  intros Hk Hl Hv Hc Hres Hcalls.
  assert (Hpt : provide p = t) by eauto using keyed_lookup.
  assert (Hp : pending w this t p o) by done.
  assert (Hlen : ∀ (l : list Invocation) x, l ≠ (l ++ mid ++ [x])%list).
  { intros l x Heq. apply (f_equal length) in Heq.
    rewrite !length_app in Heq. simpl in Heq. lia. }
  assert (Hn : t ∉ R).
  { intros Hin. rewrite resolve_unfold, Hl, Hv, Hc, Hpt, set_has_true in Hres by done.
    injection Hres as <- <- <-. by apply Hlen in Hcalls. }
  destruct (resolve_instantiates _ _ _ _ _ _ _ _ _ _ Hp Hn Hres)
    as (-> & mid0 & w2 & dr & Hdeps & F & Hc2 & Hmid0 & Hcase).
  assert (Hno : ∀ x, calls w1 = (calls w ++ mid0)%list →
                inv_for x = t → calls w1 ≠ (calls w ++ mid ++ [x])%list).
  { intros x H1 Hx H2. rewrite H1 in H2. apply app_inv_head in H2. subst mid0.
    apply Forall_app in Hmid0 as [_ Hlast]. by inversion Hlast. }
  assert (Hfin : res = Throw (failed_message p msg) ∧ w1 = (finish p args w2).2
                 ∧ heap w1 = heap w2).
  { destruct dr as [args0|e].
    - destruct (finish_calls p args0 w2 Hv) as [[Hsame [e He]]|(r & Hc3 & Hr & Hf)].
      + rewrite He in Hcase. destruct Hcase as [-> ->].
        exfalso. eapply (Hno _ ); [by rewrite Hsame|..|exact Hcalls]. done.
      + assert (Hw : calls w1 = calls (finish p args0 w2).2).
        { destruct ((finish p args0 w2).1); destruct Hcase as [_ ->];
            by rewrite ?calls_cache. }
        rewrite Hcalls, Hc3, Hc2, <-app_assoc in Hw.
        apply app_inv_head, app_inj_tail in Hw as [-> Hentry].
        rewrite Hpt in Hentry. injection Hentry as -> <-.
        rewrite Hf in Hcase. destruct Hcase as [-> ->].
        by rewrite finish_heap.
    - destruct Hcase as [-> ->]. exfalso. eapply (Hno _); [done|..|exact Hcalls]. done. }
  destruct Hfin as (-> & Hw1 & Hheap).
  assert (Hp1 : pending w1 this t p o).
  { eapply pending_same_heap; [done|].
    eapply (fr_pending _ _ _ _ F); [apply elem_of_set_add|done]. }
  pose proof Hp1 as (Hl1 & _ & _ & Hc1).
  repeat split; try done.
  - intros Hlt. unfold cached in Hc1. by rewrite Hlt, Hpt in Hc1.
  - intros fuel'. unfold get. simpl actualToken.
    rewrite resolve_unfold, Hl1, Hv, Hc1, Hpt, set_has_false by set_solver.
    change (set_add t []) with [t].
    by destruct (instantiateProvider _ _ _ _ _) as [[[[]]]|].
Qed.

(** ** Parent and child containers *)

(** [createChild]: a new container, empty, whose parent is [this]. *)
Lemma createChild_spec (this : nat) (w : World) :
  let child := (createChild this w).1 in
  let w' := (createChild this w).2 in
  child = length (heap w)
  ∧ cont w' child = blank (Some this) false
  ∧ (∀ c, c ≠ child → cont w' c = cont w c)
  ∧ calls w' = calls w.
Proof.
  unfold createChild, newContainer, cont. simpl.
  split; [done|]. split; [|split; [|done]].
  - by rewrite lookup_app_r, Nat.sub_diag by lia.
  - intros c Hc. destruct (decide (c < length (heap w))).
    + by rewrite lookup_app_l.
    + rewrite !lookup_ge_None_2; [done|lia|rewrite length_app; simpl; lia].
Qed.

(** C4. A container [child] whose parent is [par], and a token whose
    provider is found from [par] in the ancestor [o].  If [child] has no
    provider of its own for the token, lookup from [child] finds the
    ancestor's provider, owned by the ancestor; when [get] on [child]
    returns an instance of that singleton, the instance is held by the
    owning ancestor, and [get] on any container that finds this provider
    (the owner, the parent, the child, any other descendant) returns the
    same instance.  If [child] has its own provider for the token, lookup
    from [child] finds that one. *)
Theorem child_container_shares_ancestor_singleton (fuel child par : nat) (t : Token)
    (w : World) (p : Provider) (o : nat) :
  keyed w → wf_parents w →
  parent (cont w child) = Some par →
  lookupProvider w par t = Some (p, o) →
  (providers (cont w child) !! t = None →
     lookupProvider w child t = Some (p, o) ∧ o ≠ child
     ∧ ∀ v w',
         is_value p = false → lifetime_of p = Singleton →
         get fuel child (ArgToken t) w = Some (Normal v, w') →
         instances (cont w' o) !! t = Some v
         ∧ lookupProvider w' o t = Some (p, o)
         ∧ lookupProvider w' par t = Some (p, o)
         ∧ lookupProvider w' child t = Some (p, o)
         ∧ ∀ d fuel', lookupProvider w' d t = Some (p, o) →
                      get (S fuel') d (ArgToken t) w' = Some (Normal v, w'))
  ∧ (∀ pc, providers (cont w child) !! t = Some pc →
           lookupProvider w child t = Some (pc, child)).
Proof.
  intros Hk Hwf Hpar Hl. split; [|by intros pc; apply lookup_here].
  intros Hnone.
  assert (Hlc : lookupProvider w child t = Some (p, o))
    by (by rewrite lookup_unfold, Hnone, Hpar).
  assert (Hpt : provide p = t) by eauto using keyed_lookup.
  assert (Hne : o ≠ child).
  { intros ->. apply lookup_owner in Hl. congruence. }
  split; [done|]. split; [done|].
  intros v w' Hv Hlt Hget.
  assert (Hpost : Frame child [] w w' ∧ cached w' o p = Some v) .
  { destruct fuel as [|fuel]; [done|].
    destruct (cached w o p) as [u|] eqn:Hc.
    - rewrite (get_cached _ _ _ _ _ _ _ Hlc Hv Hc) in Hget. injection Hget as <- <-.
      split; [apply Frame_refl|done].
    - unfold get in Hget. simpl actualToken in Hget.
      destruct (resolve (S fuel) child t [] w) as [[[r R1] w1]|] eqn:E; [|done].
      injection Hget as -> ->.
      assert (Hn : t ∉ []) by set_solver.
      assert (Hp : pending w child t p o) by done.
      destruct (resolve_creates _ _ _ _ _ _ _ _ _ _ Hp Hn E) as (_ & _ & Hc' & F).
      by rewrite Hlt in Hc'. }
  destruct Hpost as [F Hc'].
  pose proof (Frame_wf_parents _ _ _ _ F Hwf) as Hwf'.
  pose proof (fr_lookup _ _ _ _ F _ _ Hlc) as Hlc'.
  assert (Hlo' : lookupProvider w' o t = Some (p, o)).
  { apply lookup_here, (fr_providers _ _ _ _ F). by eapply lookup_owner. }
  assert (Hlp' : lookupProvider w' par t = Some (p, o)).
  { rewrite lookup_unfold in Hlc' by done.
    destruct (providers (cont w' child) !! t); [congruence|].
    by rewrite (fr_parent _ _ _ _ F), Hpar in Hlc'. }
  split; [|split; [done|split; [done|split; [done|]]]].
  - unfold cached in Hc'. by rewrite Hlt, Hpt in Hc'.
  - intros d fuel' Hd. by eapply get_cached.
Qed.

(** ** Cycles *)




Section Trapped.

Variable this : nat.
Variable C : list Token.





End Trapped.

(** ** Resolution terminates in a finite program *)

Section Termination.

(** The tokens of the program. *)
Variable U : list Token.
Variable this : nat.











End Termination.

(** ** Dependency cycles *)













End Facts.

(** ** The module tree *)

(** Induction on a module tree. *)
Fixpoint ModuleDefinition_tree_ind (P : ModuleDefinition → Prop)
    (step : ∀ cs imports ex ps c,
        Forall P imports → P (mkModule cs imports ex ps c))
    (m : ModuleDefinition) : P m :=
  match m with
  | mkModule cs imports ex ps c =>
      step cs imports ex ps c
        ((fix all (l : list ModuleDefinition) : Forall P l :=
            match l with
            | [] => @List.Forall_nil _ P
            | x :: l' =>
                @List.Forall_cons _ P x l' (ModuleDefinition_tree_ind P step x) (all l')
            end) imports)
  end.

(** The controllers of a module and of the modules it imports, transitively,
    with repetitions. *)
Fixpoint tree_controllers (m : ModuleDefinition) : list nat :=
  m_controllers m ++ concat (map tree_controllers (m_imports m)).

Section SetAdd.

Context `{EqDecision A}.

Lemma set_add_spec (x y : A) (s : list A) : y ∈ set_add x s ↔ y ∈ s ∨ y = x.
Proof.
  unfold set_add, set_has. case_bool_decide.
  - split; [by left|]. by intros [?| ->].
  - by rewrite elem_of_app, list_elem_of_singleton.
Qed.

Lemma set_add_NoDup (x : A) (s : list A) : NoDup s → NoDup (set_add x s).
Proof.
  intros Hs. unfold set_add, set_has. case_bool_decide; [done|].
  apply NoDup_app. split; [done|]. split; [|apply NoDup_singleton].
  intros y Hy Hx. apply list_elem_of_singleton in Hx as ->. done.
Qed.

Lemma set_add_all_spec (l s : list A) (y : A) :
  y ∈ foldl (λ acc x, set_add x acc) s l ↔ y ∈ s ∨ y ∈ l.
Proof.
  revert s. induction l as [|x l IH]; intros s; simpl.
  - rewrite elem_of_nil. tauto.
  - rewrite IH, set_add_spec, elem_of_cons. tauto.
Qed.

Lemma set_add_all_NoDup (l s : list A) :
  NoDup s → NoDup (foldl (λ acc x, set_add x acc) s l).
Proof.
  revert s. induction l as [|x l IH]; intros s Hs; simpl; [done|].
  by apply IH, set_add_NoDup.
Qed.

End SetAdd.

Lemma collectControllers_spec (m : ModuleDefinition) (acc : list nat) :
  (NoDup acc → NoDup (collectControllers m acc))
  ∧ ∀ c, c ∈ collectControllers m acc ↔ c ∈ acc ∨ c ∈ tree_controllers m.
Proof.
  revert acc. induction m as [cs imports ex ps k IH] using ModuleDefinition_tree_ind.
  intros acc. cbn [collectControllers tree_controllers m_controllers m_imports].
  set (own := foldl (λ acc c, set_add c acc) acc cs).
  assert (Hown : (NoDup acc → NoDup own) ∧ ∀ c, c ∈ own ↔ c ∈ acc ∨ c ∈ cs).
  { split; [apply set_add_all_NoDup|]. intros c. apply set_add_all_spec. }
  clearbody own. destruct Hown as [Hnd Hin].
  assert (Himp : ∀ start,
    (NoDup start → NoDup (foldl (λ a i, collectControllers i a) start imports))
    ∧ ∀ c, c ∈ foldl (λ a i, collectControllers i a) start imports
           ↔ c ∈ start ∨ c ∈ concat (map tree_controllers imports)).
  { induction IH as [|i imports Hi _ IHl]; intros start; simpl.
    - split; [done|]. intros c. rewrite elem_of_nil. tauto.
    - destruct (Hi start) as [Hnd1 Hin1].
      destruct (IHl (collectControllers i start)) as [Hnd2 Hin2].
      split; [by intros; apply Hnd2, Hnd1|].
      intros c. rewrite Hin2, Hin1, elem_of_app. tauto. }
  destruct (Himp own) as [Hnd2 Hin2]. split; [by intros; apply Hnd2, Hnd|].
  intros c. rewrite Hin2, Hin, elem_of_app. tauto.
Qed.

(** The [route] call that mounts a controller. *)
Definition route_of (heap : list ControllerDefinition) (controller : nat)
  : option HonoEntry :=
  (λ c, HRoute (prefix c) (entries (app c))) <$> heap !! controller.

Lemma mount_all_entries (heap : list ControllerDefinition) (router : Hono)
    (cs : list nat) :
  entries (foldl (mount heap) router cs) = (entries router ++ omap (route_of heap) cs)%list.
Proof.
  revert router. induction cs as [|c cs IH]; intros router; simpl.
  - by rewrite app_nil_r.
  - rewrite IH. unfold mount, route_of. destruct (heap !! c); simpl; [|done].
    by rewrite <-app_assoc.
Qed.

Lemma use_all_entries (router : Hono) (mws : list nat) :
  entries (foldl (λ a mw, hono_add (HUse "*" [mw]) a) router mws)
  = (entries router ++ ((λ mw, HUse "*" [mw]) <$> mws))%list.
Proof.
  revert router. induction mws as [|mw mws IH]; intros router; simpl.
  - by rewrite app_nil_r.
  - rewrite IH. simpl. by rewrite <-app_assoc.
Qed.

(** The global middleware that [createApp] applies. *)
Definition global_middleware (options : option Options) : list nat :=
  match options with
  | Some (NewApi o) => default [] (opt_middleware o)
  | _ => []
  end.

(** C6. [createApp] calls [route] on the controllers collected from the
    module tree, after the global middleware: the collected controllers are
    exactly those of the root module and of the modules reachable through
    imports, each collected once however many import paths lead to it, and
    each is mounted at its own prefix with its own routes. *)
Theorem createApp_mounts_every_controller_once (Hono_members : list string)
    (heap : list ControllerDefinition) (rootModule : ModuleDefinition)
    (options : option Options) :
  NoDup (collectControllers rootModule [])
  ∧ (∀ c, c ∈ collectControllers rootModule [] ↔ c ∈ tree_controllers rootModule)
  ∧ entries (target (createApp Hono_members heap rootModule options))
    = (((λ mw, HUse "*" [mw]) <$> global_middleware options)
       ++ omap (route_of heap) (collectControllers rootModule []))%list
  ∧ (∀ c def, c ∈ tree_controllers rootModule → heap !! c = Some def →
       HRoute (prefix def) (entries (app def))
       ∈ entries (target (createApp Hono_members heap rootModule options))).
Proof.
  destruct (collectControllers_spec rootModule []) as [Hnd Hin].
  assert (Hentries :
    entries (target (createApp Hono_members heap rootModule options))
    = (((λ mw, HUse "*" [mw]) <$> global_middleware options)
       ++ omap (route_of heap) (collectControllers rootModule []))%list).
  { unfold createApp. cbn [target]. rewrite mount_all_entries. f_equal.
    unfold global_middleware, isCreateAppOptions.
    destruct options as [[o|o]|]; try done.
    destruct (opt_middleware o) as [mws|] eqn:Hm; simpl.
    - by rewrite use_all_entries.
    - by destruct (bool_decide _). }
  split; [apply Hnd; constructor|].
  split; [intros c; rewrite Hin, elem_of_nil; tauto|].
  split; [done|].
  intros c def Hc Hdef. rewrite Hentries. apply elem_of_app. right.
  apply list_elem_of_omap. exists c. split; [apply Hin; by right|].
  unfold route_of. by rewrite Hdef.
Qed.


(** ** Building stores *)

Lemma cont_newContainer (par : option nat) (dbg : option bool) (w : World) (c : nat) :
  cont (newContainer par dbg w).2 c =
  if decide (c = length (heap w)) then blank par (default false dbg) else cont w c.
Proof.
  unfold newContainer, cont. simpl. destruct (decide (c = length (heap w))) as [->|Hne].
  - by rewrite lookup_app_r, Nat.sub_diag by lia.
  - destruct (decide (c < length (heap w))).
    + by rewrite lookup_app_l.
    + rewrite !lookup_ge_None_2; [done|lia|rewrite length_app; simpl; lia].
Qed.

Lemma cont_empty_world (c : nat) : cont empty_world c = blank None false.
Proof. done. Qed.

Lemma keyed_empty : keyed empty_world.
Proof. intros c t p. rewrite cont_empty_world. cbn. by rewrite lookup_empty. Qed.

Lemma wf_parents_empty : wf_parents empty_world.
Proof. intros c q. by rewrite cont_empty_world. Qed.

Lemma keyed_newContainer (par : option nat) (dbg : option bool) (w : World) :
  keyed w → keyed (newContainer par dbg w).2.
Proof.
  intros Hk c t p. rewrite cont_newContainer. destruct (decide _); [|apply Hk].
  cbn. by rewrite lookup_empty.
Qed.

Lemma wf_parents_newContainer (par : option nat) (dbg : option bool) (w : World) :
  wf_parents w → (∀ q, par = Some q → q < length (heap w)) →
  wf_parents (newContainer par dbg w).2.
Proof.
  intros Hwf Hpar c q. rewrite cont_newContainer. destruct (decide _) as [->|]; [|apply Hwf].
  cbn. apply Hpar.
Qed.

Lemma lookup_from_newContainer (par : option nat) (dbg : option bool) (w : World)
    (n c : nat) (t : Token) :
  wf_parents w → c < length (heap w) →
  lookupProvider_from n (newContainer par dbg w).2 c t = lookupProvider_from n w c t.
Proof.
  intros Hwf. revert c. induction n as [|n IH]; intros c Hc; cbn [lookupProvider_from];
    rewrite cont_newContainer, decide_False by lia; [done|].
  destruct (providers (cont w c) !! t); [done|].
  destruct (parent (cont w c)) as [q|] eqn:Hq; [|done].
  apply IH. apply Hwf in Hq. lia.
Qed.

Section Building.

Variable functions : nat → JsFunction.

#[local] Abbreviation register := (register functions).

Lemma keyed_register (this : nat) (p : Provider) (w : World) :
  keyed w → keyed (register this p w).
Proof.
  intros Hk c t q. rewrite providers_register.
  destruct (decide _) as [(_ & _ & ->)|]; [by intros [= <-]|apply Hk].
Qed.

Lemma wf_parents_register (this : nat) (p : Provider) (w : World) :
  wf_parents w → wf_parents (register this p w).
Proof. intros Hwf c q. rewrite parent_register. apply Hwf. Qed.



Lemma lookup_register_below (this : nat) (p : Provider) (w : World) (c : nat) (t : Token) :
  wf_parents w → c < this →
  lookupProvider (register this p w) c t = lookupProvider w c t.
Proof.
  intros Hwf. unfold lookupProvider. generalize c at 2 4 as n. intros n. revert c.
  induction n as [|n IH]; intros c Hc; simpl;
    rewrite providers_register, parent_register, decide_False by lia; [done|].
  destruct (providers (cont w c) !! t); [done|].
  destruct (parent (cont w c)) as [q|] eqn:Hq; [|done].
  apply IH. apply Hwf in Hq. lia.
Qed.

End Building.

(** ** Defining a module *)

(** The exported tokens that [defineModule] goes through, in order, each
    with the container of the module that exports it. *)
Definition import_pairs (imports : list ModuleDefinition) : list (nat * TokenArg) :=
  concat ((λ i, (λ e, (m_container i, e)) <$> m_exports i) <$> imports).

(** The tokens of a module's own providers. *)
Definition own_tokens (config : ModuleConfig) : list Token :=
  provide <$> cfg_providers config.

(** A setup callback that resolves nothing. *)
Definition setup_resolves_nothing (cf : ControllerFactory) : Prop :=
  ∀ token, deps_get token ∉ cf_setup cf.

Section ModuleFacts.

Variable functions : nat → JsFunction.

#[local] Abbreviation register := (register functions).
#[local] Abbreviation registerValue := (registerValue functions).
#[local] Abbreviation registerMany := (registerMany functions).
#[local] Abbreviation resolve := (resolve functions).
#[local] Abbreviation get := (get functions).
#[local] Abbreviation isConstructorToken := (isConstructorToken functions).
#[local] Abbreviation importExports := (importExports functions).
#[local] Abbreviation importModules := (importModules functions).
#[local] Abbreviation runSetup := (runSetup functions).
#[local] Abbreviation controllerFactory := (controllerFactory functions).
#[local] Abbreviation instantiateControllers := (instantiateControllers functions).
#[local] Abbreviation defineModule := (defineModule functions).
#[local] Abbreviation Frame := (Frame functions).

Lemma get_Frame (fuel this : nat) (token : TokenArg) (w : World) r w' :
  get fuel this token w = Some (r, w') → Frame this [] w w'.
Proof.
  unfold get. destruct (resolve fuel _ _ _ _) as [[[r0 R1] w1]|] eqn:E; [|done].
  intros [= <- <-]. by apply resolve_framed in E as [_ F].
Qed.

(** The two loops over the imports, as one loop over [import_pairs]. *)
Fixpoint importPairs (fuel : nat) (container : nat) (pairs : list (nat * TokenArg))
    (w : World) : option (Completion unit * World) :=
  match pairs with
  | [] => Some (Normal tt, w)
  | (imported, exportedToken) :: rest =>
      if has w imported exportedToken then
        match get fuel imported exportedToken w with
        | None => None
        | Some (Throw e, w1) => Some (Throw e, w1)
        | Some (Normal instance, w1) =>
            importPairs fuel container rest
              (registerValue container exportedToken instance w1)
        end
      else importPairs fuel container rest w
  end.

Lemma importPairs_app (fuel M : nat) (l1 l2 : list (nat * TokenArg)) (w : World) :
  importPairs fuel M (l1 ++ l2) w =
  match importPairs fuel M l1 w with
  | None => None
  | Some (Throw e, w1) => Some (Throw e, w1)
  | Some (Normal _, w1) => importPairs fuel M l2 w1
  end.
Proof.
  revert w. induction l1 as [|[c e] l1 IH]; intros w; simpl; [done|].
  destruct (has w c e); [|apply IH].
  destruct (get fuel c e w) as [[[v|err] w1]|]; [apply IH|done..].
Qed.

Lemma importExports_pairs (fuel M c : nat) (es : list TokenArg) (w : World) :
  importExports fuel M c es w = importPairs fuel M ((λ e, (c, e)) <$> es) w.
Proof.
  revert w. induction es as [|e es IH]; intros w; simpl; [done|].
  destruct (has w c e); [|apply IH].
  destruct (get fuel c e w) as [[[v|err] w1]|]; [apply IH|done..].
Qed.

Lemma importModules_pairs (fuel M : nat) (imports : list ModuleDefinition) (w : World) :
  importModules fuel M imports w = importPairs fuel M (import_pairs imports) w.
Proof.
  revert w. induction imports as [|i imports IH]; intros w; [done|].
  unfold import_pairs. cbn [import_pairs importModules fmap list_fmap concat].
  rewrite importPairs_app, importExports_pairs.
  destruct (importPairs _ _ _ _) as [[[[]|err] w1]|]; [apply IH|done..].
Qed.

(** A property of the store kept by every step of the loops. *)
Lemma importPairs_inv (Inv : World → Prop) (fuel M : nat) (pairs : list (nat * TokenArg)) :
  (∀ c e w r w', (c, e) ∈ pairs → Inv w → get fuel c e w = Some (r, w') → Inv w') →
  (∀ c e w v, (c, e) ∈ pairs → Inv w → Inv (registerValue M e v w)) →
  ∀ w r w', Inv w → importPairs fuel M pairs w = Some (r, w') → Inv w'.
Proof.
  induction pairs as [|[c e] pairs IH]; intros Hget Hreg w r w' Hw; simpl.
  - by intros [= <- <-].
  - assert (Hin : (c, e) ∈ (c, e) :: pairs) by left.
    assert (IH' : ∀ w r w', Inv w → importPairs fuel M pairs w = Some (r, w') → Inv w').
    { apply IH; [intros c0 e0 w0 r0 w0' Hin0; apply Hget; by right
                |intros c0 e0 w0 v0 Hin0; apply (Hreg c0); by right]. }
    destruct (has w c e); [|by apply IH'].
    destruct (get fuel c e w) as [[[v|err] w1]|] eqn:E; [| |done].
    + apply IH'. apply (Hreg c); [done|]. by eapply Hget.
    + intros [= <- <-]. by eapply Hget.
Qed.

Lemma registerMany_inv (Inv : World → Prop) (M : nat) (ps : list Provider) (w : World) :
  (∀ q w, q ∈ ps → Inv w → Inv (register M q w)) →
  Inv w → Inv (registerMany M ps w).
Proof.
  unfold registerMany. revert w. induction ps as [|q ps IH]; intros w Hreg Hw; [done|].
  simpl. apply IH; [intros; apply Hreg; [by right|done]|]. apply Hreg; [left|done].
Qed.

Lemma runSetup_inv (Inv : World → Prop) (fuel M : nat) (setup : list SetupOp) :
  (∀ t w r w', Inv w → get fuel M t w = Some (r, w') → Inv w') →
  ∀ router w r w', Inv w → runSetup fuel M setup router w = Some (r, w') → Inv w'.
Proof.
  intros Hget. induction setup as [|[path hs|m path hs|t] setup IH];
    intros router w r w' Hw; simpl; [by intros [= <- <-]|by apply IH..|].
  destruct (get fuel M t w) as [[[v|err] w1]|] eqn:E; [| |done].
  - apply IH. by eapply Hget.
  - intros [= <- <-]. by eapply Hget.
Qed.

Lemma instantiateControllers_inv (Inv : World → Prop) (fuel M : nat)
    (cfs : list ControllerFactory) :
  (∀ t w r w', Inv w → get fuel M t w = Some (r, w') → Inv w') →
  ∀ s r s', Inv (di s) → instantiateControllers fuel M cfs s = Some (r, s') → Inv (di s').
Proof.
  intros Hget. induction cfs as [|cf cfs IH]; intros s r s' Hs; simpl;
    [by intros [= <- <-]|].
  unfold controllerFactory.
  destruct (runSetup fuel M (cf_setup cf) (newHono None) (di s))
    as [[[router|err] w1]|] eqn:E; [| |done].
  - pose proof (runSetup_inv Inv fuel M _ Hget _ _ _ _ Hs E) as H1.
    destruct (instantiateControllers fuel M cfs _) as [[[cs|err] s2]|] eqn:E2; [| |done];
      intros [= <- <-]; (eapply IH; [|exact E2]); exact H1.
  - intros [= <- <-]. simpl. by eapply runSetup_inv.
Qed.

(** [defineModule], step by step. *)
Lemma defineModule_steps (fuel : nat) (config : ModuleConfig) (s : Store)
    (m : ModuleDefinition) (s' : Store) :
  defineModule fuel config s = Some (Normal m, s') →
  let M := length (heap (di s)) in
  ∃ w1,
    importPairs fuel M (import_pairs (cfg_imports config))
      (newContainer None None (di s)).2 = Some (Normal tt, w1)
    ∧ instantiateControllers fuel M (cfg_controllers config)
        {| di := registerMany M (cfg_providers config) w1;
           controllerHeap := controllerHeap s |}
      = Some (Normal (m_controllers m), s')
    ∧ m_container m = M ∧ m_imports m = cfg_imports config
    ∧ m_exports m = cfg_exports config ∧ m_providers m = cfg_providers config.
Proof.
  unfold defineModule. cbn [newContainer]. rewrite importModules_pairs.
  destruct (importPairs _ _ _ _) as [[[[]|err] w1]|] eqn:E; [| |done].
  - destruct (instantiateControllers _ _ _ _) as [[[cs|err] s3]|] eqn:E2; [| |done];
      intros [= <- <-]. by exists w1.
  - done.
Qed.

(** A property kept by every step of [defineModule]. *)
Lemma defineModule_inv (Inv : World → Prop) (fuel : nat) (config : ModuleConfig)
    (s : Store) (m : ModuleDefinition) (s' : Store) :
  let M := length (heap (di s)) in
  (∀ c e w r w', (c, e) ∈ import_pairs (cfg_imports config) → Inv w →
                 get fuel c e w = Some (r, w') → Inv w') →
  (∀ c e w v, (c, e) ∈ import_pairs (cfg_imports config) → Inv w →
              Inv (registerValue M e v w)) →
  (∀ q w, q ∈ cfg_providers config → Inv w → Inv (register M q w)) →
  (∀ t w r w', Inv w → get fuel M t w = Some (r, w') → Inv w') →
  defineModule fuel config s = Some (Normal m, s') →
  Inv (newContainer None None (di s)).2 → Inv (di s').
Proof.
  intros M H1 H2 H3 H4 Hdef H0.
  destruct (defineModule_steps _ _ _ _ _ Hdef) as (w1 & Himp & Hctl & _).
  eapply (instantiateControllers_inv Inv); [done| |done]. simpl.
  apply registerMany_inv; [done|].
  eapply (importPairs_inv Inv); [| |done|done]; done.
Qed.

Lemma runSetup_resolves_nothing (fuel M : nat) (setup : list SetupOp) (router : Hono)
    (w : World) r w' :
  (∀ token, deps_get token ∉ setup) →
  runSetup fuel M setup router w = Some (r, w') → w' = w.
Proof.
  revert router. induction setup as [|[path hs|mt path hs|t] setup IH];
    intros router Hpure; simpl.
  - by intros [= <- <-].
  - apply IH. intros token Hin. apply (Hpure token). by right.
  - apply IH. intros token Hin. apply (Hpure token). by right.
  - destruct (Hpure t). left.
Qed.

Lemma instantiateControllers_resolves_nothing (fuel M : nat)
    (cfs : list ControllerFactory) (s : Store) r s' :
  (∀ cf, cf ∈ cfs → setup_resolves_nothing cf) →
  instantiateControllers fuel M cfs s = Some (r, s') → di s' = di s.
Proof.
  revert s r s'. induction cfs as [|cf cfs IH]; intros s r s' Hpure; simpl.
  - by intros [= <- <-].
  - unfold controllerFactory.
    destruct (runSetup fuel M (cf_setup cf) (newHono None) (di s))
      as [[[router|err] w1]|] eqn:E; [| |done];
      apply runSetup_resolves_nothing in E as ->; try (apply Hpure; left).
    + destruct (instantiateControllers fuel M cfs _) as [[[cs|err] s2]|] eqn:E2; [| |done];
        intros [= <- <-]; apply IH in E2; try done;
        intros cf' Hcf'; apply Hpure; by right.
    + by intros [= <- <-].
Qed.




(** ** What importing leaves in place *)

(** Providers are never removed, and parents never change. *)
Definition grows (w w' : World) : Prop :=
  (∀ c, parent (cont w' c) = parent (cont w c))
  ∧ (∀ c t, is_Some (providers (cont w c) !! t) → is_Some (providers (cont w' c) !! t)).

Lemma grows_refl (w : World) : grows w w.
Proof. by split. Qed.

Lemma grows_trans (w1 w2 w3 : World) : grows w1 w2 → grows w2 w3 → grows w1 w3.
Proof.
  intros [P1 H1] [P2 H2]. split; [intros c; by rewrite P2|]. intros c t Hs. by apply H2, H1.
Qed.

Lemma Frame_grows (this : nat) (R : list Token) (w w' : World) :
  Frame this R w w' → grows w w'.
Proof.
  intros F. split; [apply F|]. intros c t [p Hp]. exists p. by apply F.
Qed.

Lemma register_grows (this : nat) (q : Provider) (w : World) : grows w (register this q w).
Proof.
  split; [intros c; apply parent_register|]. intros c t Hs. rewrite providers_register.
  by destruct (decide _).
Qed.

Lemma has_from_grows (n : nat) (w w' : World) (c : nat) (t : Token) :
  grows w w' → has_from n w c t = true → has_from n w' c t = true.
Proof.
  intros [Hp Hs]. revert c. induction n as [|n IH]; intros c; cbn [has_from];
    rewrite !orb_true_iff, !bool_decide_eq_true, Hp.
  - intros [H|H]; [left; by apply Hs|right; done].
  - intros [H|H]; [left; by apply Hs|right].
    destruct (parent (cont w c)); [by apply IH|done].
Qed.

Lemma has_grows (w w' : World) (c : nat) (token : TokenArg) :
  grows w w' → has w c token = true → has w' c token = true.
Proof. apply has_from_grows. Qed.

(** [Ext M w w']: the store went from [w] to [w'] by resolutions and by
    registrations in the container [M]. *)
Record Ext (M : nat) (w w' : World) : Prop := {
  e_length : length (heap w') = length (heap w);
  e_parent : ∀ c, parent (cont w' c) = parent (cont w c);
  e_other : ∀ c t p, c ≠ M →
    providers (cont w c) !! t = Some p → providers (cont w' c) !! t = Some p;
  e_inst : ∀ c t p v, c ≠ M →
    providers (cont w c) !! t = Some p → instances (cont w c) !! t = Some v →
    instances (cont w' c) !! t = Some v;
  e_lookup : wf_parents w →
    ∀ c t x, c < M → lookupProvider w c t = Some x → lookupProvider w' c t = Some x;
  e_keyed : keyed w → keyed w';
}.

Lemma Ext_wf_parents (M : nat) (w w' : World) : Ext M w w' → wf_parents w → wf_parents w'.
Proof. intros E Hwf c q. rewrite (e_parent _ _ _ E). apply Hwf. Qed.

Lemma Ext_refl (M : nat) (w : World) : Ext M w w.
Proof. by split. Qed.

Lemma Ext_trans (M : nat) (w1 w2 w3 : World) : Ext M w1 w2 → Ext M w2 w3 → Ext M w1 w3.
Proof.
  intros E1 E2. split.
  - rewrite (e_length _ _ _ E2). apply E1.
  - intros c. rewrite (e_parent _ _ _ E2). apply E1.
  - intros c t p Hc Hp. by apply E2, E1.
  - intros c t p v Hc Hp Hv.
    eapply (e_inst _ _ _ E2); [done|by apply (e_other _ _ _ E1)|].
    by eapply (e_inst _ _ _ E1).
  - intros Hwf c t x Hc Hx.
    apply (e_lookup _ _ _ E2); [by eapply Ext_wf_parents|done|].
    by apply (e_lookup _ _ _ E1).
  - intros Hk. by apply E2, E1.
Qed.

Lemma Frame_Ext (M this : nat) (R : list Token) (w w' : World) :
  Frame this R w w' → Ext M w w'.
Proof.
  intros F. split; try apply F.
  - intros c t p _. apply F.
  - intros c t p v _. apply F.
  - intros Hwf c t x _. by apply F.
  - by eapply fr_keyed.
Qed.

Lemma register_Ext (M : nat) (q : Provider) (w : World) : Ext M w (register M q w).
Proof.
  split.
  - apply length_heap_register.
  - intros c. apply parent_register.
  - intros c t p Hc. rewrite providers_register, decide_False; [done|]. by intros (-> & _).
  - intros c t p v Hc _. rewrite instances_register_ne; [done|]. by intros [= -> _].
  - intros Hwf c t x Hc. by rewrite lookup_register_below.
  - apply keyed_register.
Qed.

Lemma lookup_Some_valid (w : World) (c : nat) (t : Token) x :
  lookupProvider w c t = Some x → c < length (heap w).
Proof.
  intros Hl. destruct (decide (c < length (heap w))); [done|].
  unfold lookupProvider in Hl.
  assert (Hb : cont w c = blank None false) by (apply cont_invalid; lia).
  destruct c; simpl in Hl; rewrite Hb in Hl; cbn in Hl; by rewrite lookup_empty in Hl.
Qed.

(** What [get] returns for a value provider or a singleton. *)
Lemma get_shared (fuel c : nat) (e : TokenArg) (w : World) (p : Provider) (o : nat)
    (v : Value) (w' : World) :
  keyed w → lookupProvider w c (actualToken e) = Some (p, o) →
  is_value p = true ∨ lifetime_of p = Singleton →
  get fuel c e w = Some (Normal v, w') →
  body p = UseValue v ∨ (is_value p = false ∧ cached w' o p = Some v).
Proof.
  intros Hk Hl Hshared Hget. destruct fuel as [|fuel]; [done|].
  unfold get in Hget.
  destruct (resolve (S fuel) c (actualToken e) [] w) as [[[r R1] w1]|] eqn:E; [|done].
  injection Hget as -> ->.
  destruct (is_value p) eqn:Hv.
  - left. rewrite resolve_unfold, Hl, Hv in E. destruct (body p); [|done..]. congruence.
  - right. split; [done|]. destruct Hshared as [|Hs]; [done|].
    destruct (cached w o p) as [u|] eqn:Hc.
    + rewrite resolve_unfold, Hl, Hv, Hc in E. congruence.
    + assert (Hp : pending w c (actualToken e) p o).
      { split; [done|]. split; [by eapply keyed_lookup|]. done. }
      destruct (resolve_creates functions _ _ _ _ _ _ _ _ _ _ Hp (not_elem_of_nil _) E)
        as (_ & _ & Hc' & _).
      by rewrite Hs in Hc'.
Qed.

(** The provider that [registerValue] registers. *)
Definition value_provider (t : Token) (v : Value) : Provider :=
  {| provide := t; lifetime := None; body := UseValue v |}.

Lemma cont_newContainer_root (w : World) (c : nat) :
  cont (newContainer None None w).2 c = cont w c.
Proof.
  rewrite cont_newContainer. destruct (decide _) as [->|]; [|done].
  by rewrite cont_invalid.
Qed.

Lemma lookup_newContainer_root (w : World) (c : nat) (t : Token) :
  lookupProvider (newContainer None None w).2 c t = lookupProvider w c t.
Proof. apply lookup_from_ext; intros c'; by rewrite cont_newContainer_root. Qed.

Lemma has_here (w : World) (c : nat) (token : TokenArg) :
  is_Some (providers (cont w c) !! actualToken token) → has w c token = true.
Proof.
  intros Hs. unfold has. destruct c; cbn [has_from];
    by rewrite bool_decide_eq_true_2.
Qed.

Lemma has_root_false (w : World) (c : nat) (token : TokenArg) :
  providers (cont w c) !! actualToken token = None → parent (cont w c) = None →
  has w c token = false.
Proof.
  intros Hn Hp. unfold has. destruct c; cbn [has_from];
    rewrite Hn, Hp, bool_decide_is_Some; done.
Qed.

Lemma elem_of_import_pairs (imports : list ModuleDefinition) (i : ModuleDefinition)
    (e : TokenArg) :
  i ∈ imports → e ∈ m_exports i → (m_container i, e) ∈ import_pairs imports.
Proof.
  intros Hi He. unfold import_pairs. apply list_elem_of_In, in_concat.
  exists ((λ e, (m_container i, e)) <$> m_exports i). split; apply list_elem_of_In.
  - by apply (list_elem_of_fmap_2 (λ i, (λ e, (m_container i, e)) <$> m_exports i)).
  - by apply (list_elem_of_fmap_2 (λ e, (m_container i, e))).
Qed.

Lemma import_pairs_inv (imports : list ModuleDefinition) (c : nat) (e : TokenArg) :
  (c, e) ∈ import_pairs imports →
  ∃ i, i ∈ imports ∧ c = m_container i ∧ e ∈ m_exports i.
Proof.
  unfold import_pairs. intros H. apply list_elem_of_In, in_concat in H as (l & Hl & H).
  apply list_elem_of_In, list_elem_of_fmap in Hl as (i & -> & Hi).
  apply list_elem_of_In, list_elem_of_fmap in H as (e' & [= -> ->] & He).
  by exists i.
Qed.

(** What is left of [defineModule] from some point of the import loop on:
    any property kept by the remaining steps holds at the end. *)
Definition tail_from (fuel M : nat) (l2 : list (nat * TokenArg)) (ps : list Provider)
    (w final : World) : Prop :=
  ∀ Inv : World → Prop,
    (∀ c e w r w', (c, e) ∈ l2 → Inv w → get fuel c e w = Some (r, w') → Inv w') →
    (∀ c e w v, (c, e) ∈ l2 → Inv w → Inv (registerValue M e v w)) →
    (∀ q w, q ∈ ps → Inv w → Inv (register M q w)) →
    (∀ t w r w', Inv w → get fuel M t w = Some (r, w') → Inv w') →
    Inv w → Inv final.

(** [defineModule] around the import of one exported token. *)
Lemma defineModule_at (fuel : nat) (config : ModuleConfig) (s : Store)
    (m : ModuleDefinition) (s' : Store) (l1 : list (nat * TokenArg)) (c : nat)
    (e : TokenArg) (l2 : list (nat * TokenArg)) :
  defineModule fuel config s = Some (Normal m, s') →
  import_pairs (cfg_imports config) = (l1 ++ (c, e) :: l2)%list →
  let M := length (heap (di s)) in
  m_container m = M ∧
  ∃ wa,
    importPairs fuel M l1 (newContainer None None (di s)).2 = Some (Normal tt, wa)
    ∧ (has wa c e = true →
       ∃ v wb, get fuel c e wa = Some (Normal v, wb)
               ∧ tail_from fuel M l2 (cfg_providers config)
                   (registerValue M e v wb) (di s')).
Proof.
  intros Hdef Hpairs M.
  destruct (defineModule_steps _ _ _ _ _ Hdef) as (w1 & Himp & Hctl & HM & _).
  split; [done|]. fold M in Himp, Hctl.
  rewrite Hpairs, importPairs_app in Himp.
  destruct (importPairs fuel M l1 _) as [[[[]|err] wa]|] eqn:E1; [|done..].
  exists wa. split; [done|]. intros Hhas. cbn [importPairs] in Himp.
  rewrite Hhas in Himp.
  destruct (get fuel c e wa) as [[[v|err] wb]|] eqn:Eg; [|done..].
  exists v, wb. split; [done|].
  intros Inv H1 H2 H3 H4 Hstart.
  eapply (instantiateControllers_inv Inv); [done| |exact Hctl]. simpl.
  apply registerMany_inv; [done|].
  by eapply (importPairs_inv Inv); [| | |exact Himp].
Qed.

Lemma newContainer_valid (par : option nat) (dbg : option bool) (w : World) :
  length (heap w) < length (heap (newContainer par dbg w).2).
Proof. unfold newContainer. simpl. rewrite length_app. simpl. lia. Qed.

(** A token that is neither imported nor provided by the module, and is not
    a constructor, has no provider in the module's container. *)
Lemma defineModule_hidden (fuel : nat) (config : ModuleConfig) (s : Store)
    (m : ModuleDefinition) (s' : Store) (t : Token) :
  defineModule fuel config s = Some (Normal m, s') →
  t ∉ own_tokens config →
  t ∉ (λ ce, actualToken ce.2) <$> import_pairs (cfg_imports config) →
  isConstructorToken t = false →
  has (di s') (m_container m) (ArgToken t) = false.
Proof.
  intros Hdef Hown Himp Hctor.
  destruct (defineModule_steps _ _ _ _ _ Hdef) as (_ & _ & _ & HM & _).
  rewrite HM. set (M := length (heap (di s))).
  assert (Hinv : providers (cont (di s') M) !! t = None ∧ parent (cont (di s') M) = None).
  { apply (defineModule_inv
             (λ w, providers (cont w M) !! t = None ∧ parent (cont w M) = None)
             fuel config s m s'); try done.
    - intros c e w r w' _ [Hn Hp] Hget. apply get_Frame in Hget as F.
      split; [|by rewrite (fr_parent _ _ _ _ _ F)].
      destruct (providers (cont w' M) !! t) as [q|] eqn:Hq; [|done].
      destruct (fr_new _ _ _ _ _ F _ _ _ Hq) as [?|(f & -> & _ & ?)]; congruence.
    - intros c e w v Hin [Hn Hp]. unfold registerValue.
      rewrite providers_register, parent_register. split; [|done].
      rewrite decide_False; [done|]. cbn [provide]. intros (_ & _ & ->).
      apply Himp. by apply (list_elem_of_fmap_2 (λ ce, actualToken ce.2) _ (c, e)).
    - intros q w Hq [Hn Hp]. rewrite providers_register, parent_register.
      split; [|done]. rewrite decide_False; [done|]. intros (_ & _ & ->).
      apply Hown. by apply list_elem_of_fmap_2.
    - intros token w r w' [Hn Hp] Hget. apply get_Frame in Hget as F.
      split; [|by rewrite (fr_parent _ _ _ _ _ F)].
      destruct (providers (cont w' M) !! t) as [q|] eqn:Hq; [|done].
      destruct (fr_new _ _ _ _ _ F _ _ _ Hq) as [?|(f & -> & _ & ?)]; congruence.
    - rewrite cont_newContainer_root, cont_invalid by done. cbn. by rewrite lookup_empty. }
  destruct Hinv as [Hn Hp]. by apply has_root_false.
Qed.

(** The same for a class constructor, when the imported modules were
    defined before and the setup callbacks resolve nothing: nothing is
    requested from the new container, so nothing is registered in it
    automatically. *)
Lemma defineModule_hidden_class (fuel : nat) (config : ModuleConfig) (s : Store)
    (m : ModuleDefinition) (s' : Store) (t : Token) :
  defineModule fuel config s = Some (Normal m, s') →
  t ∉ own_tokens config →
  t ∉ (λ ce, actualToken ce.2) <$> import_pairs (cfg_imports config) →
  (∀ i, i ∈ cfg_imports config → m_container i < length (heap (di s))) →
  (∀ cf, cf ∈ cfg_controllers config → setup_resolves_nothing cf) →
  has (di s') (m_container m) (ArgToken t) = false.
Proof.
  intros Hdef Hown Himp Hold Hpure.
  destruct (defineModule_steps _ _ _ _ _ Hdef) as (w1 & Hi & Hc & HM & _).
  rewrite HM. set (M := length (heap (di s))) in *.
  apply instantiateControllers_resolves_nothing in Hc; [|done].
  cbn [di] in Hc. rewrite Hc.
  set (Inv := λ w : World, providers (cont w M) !! t = None ∧ parent (cont w M) = None).
  assert (Hinv : Inv (registerMany M (cfg_providers config) w1)).
  { apply registerMany_inv.
    - intros q w Hq [Hn Hp]. unfold Inv. rewrite providers_register, parent_register.
      split; [|done]. rewrite decide_False; [done|]. intros (_ & _ & ->).
      apply Hown. by apply list_elem_of_fmap_2.
    - eapply (importPairs_inv Inv); [| | |exact Hi].
      + intros c e w r w' Hin [Hn Hp] Hget. apply get_Frame in Hget as F.
        assert (Hc' : M ≠ c).
        { apply import_pairs_inv in Hin as (i & Hin & -> & _).
          specialize (Hold i Hin). fold M in Hold. lia. }
        split; [by rewrite (fr_other _ _ _ _ _ F)|by rewrite (fr_parent _ _ _ _ _ F)].
      + intros c e w v Hin [Hn Hp]. unfold Inv, registerValue.
        rewrite providers_register, parent_register. split; [|done].
        rewrite decide_False; [done|]. cbn [provide]. intros (_ & _ & ->).
        apply Himp. by apply (list_elem_of_fmap_2 (λ ce, actualToken ce.2) _ (c, e)).
      + unfold Inv. rewrite cont_newContainer_root, cont_invalid by done.
        cbn. by rewrite lookup_empty. }
  destruct Hinv as [Hn Hp]. by apply has_root_false.
Qed.

(** An exported token that the imported module has becomes a provider of the
    importing module. *)
Lemma defineModule_visible (fuel : nat) (config : ModuleConfig) (s : Store)
    (m : ModuleDefinition) (s' : Store) (i : ModuleDefinition) (e : TokenArg) :
  defineModule fuel config s = Some (Normal m, s') →
  i ∈ cfg_imports config → e ∈ m_exports i →
  has (di s) (m_container i) e = true →
  has (di s') (m_container m) e = true.
Proof.
  intros Hdef Hi He Hhas.
  destruct (list_elem_of_split _ _ (elem_of_import_pairs _ _ _ Hi He)) as (l1 & l2 & Hsplit).
  destruct (defineModule_at _ _ _ _ _ _ _ _ _ Hdef Hsplit) as (HM & wa & H1 & Hstep).
  rewrite HM. set (M := length (heap (di s))) in *.
  set (w0 := (newContainer None None (di s)).2) in *.
  assert (Hg : grows w0 wa ∧ length (heap wa) = length (heap w0)).
  { apply (importPairs_inv (λ w, grows w0 w ∧ length (heap w) = length (heap w0))
             fuel M l1) with (w := w0) (r := Normal tt); [| | |exact H1].
    - intros c e0 w r w' _ [Hw Hl] Hget. apply get_Frame in Hget as F.
      split; [eauto using grows_trans, Frame_grows|].
      by rewrite (fr_length _ _ _ _ _ F).
    - intros c e0 w v _ [Hw Hl]. unfold registerValue.
      split; [eauto using grows_trans, register_grows|].
      by rewrite length_heap_register.
    - split; [apply grows_refl|done]. }
  destruct Hg as [Hg Hlen].
  assert (Hhas_a : has wa (m_container i) e = true).
  { apply (has_grows w0); [done|]. unfold has in *.
    rewrite <-Hhas. clear. generalize (m_container i) at 1 3 as n. intros n.
    generalize (m_container i) as c.
    induction n as [|n IH]; intros c; cbn [has_from]; unfold w0;
      rewrite cont_newContainer_root; [done|].
    destruct (parent (cont (di s) c)); [by rewrite IH|done]. }
  destruct (Hstep Hhas_a) as (v & wb & Hget & Htail).
  apply has_here.
  apply (Htail (λ w, is_Some (providers (cont w M) !! actualToken e))).
  - intros c e0 w r w' _ Hs Hg0. apply get_Frame in Hg0 as F.
    by apply (proj2 (Frame_grows _ _ _ _ F)).
  - intros c e0 w v0 _ Hs. by apply (proj2 (register_grows _ _ _)).
  - intros q w _ Hs. by apply (proj2 (register_grows _ _ _)).
  - intros t w r w' Hs Hg0. apply get_Frame in Hg0 as F.
    by apply (proj2 (Frame_grows _ _ _ _ F)).
  - unfold registerValue. rewrite providers_register. cbn [provide].
    rewrite decide_True; [done|]. repeat split.
    apply get_Frame, fr_length in Hget. rewrite Hget, Hlen. apply newContainer_valid.
Qed.

(** The last export of a token, with no provider of the module for the same
    token: the module gets, as a value, the instance that the exporting
    module's container returned, which that container keeps returning when
    its provider is a value or a singleton. *)
Lemma defineModule_shared (fuel : nat) (config : ModuleConfig) (s : Store)
    (m : ModuleDefinition) (s' : Store) (l1 : list (nat * TokenArg)) (c : nat)
    (e : TokenArg) (l2 : list (nat * TokenArg)) (p : Provider) (o : nat) :
  defineModule fuel config s = Some (Normal m, s') →
  keyed (di s) → wf_parents (di s) →
  import_pairs (cfg_imports config) = (l1 ++ (c, e) :: l2)%list →
  actualToken e ∉ (λ ce, actualToken ce.2) <$> l2 →
  actualToken e ∉ own_tokens config →
  lookupProvider (di s) c (actualToken e) = Some (p, o) →
  is_value p = true ∨ lifetime_of p = Singleton →
  ∃ v,
    providers (cont (di s') (m_container m)) !! actualToken e
    = Some (value_provider (actualToken e) v)
    ∧ (is_value p = false → instances (cont (di s') o) !! actualToken e = Some v)
    ∧ ∀ fuel', get (S fuel') (m_container m) e (di s') = Some (Normal v, di s')
               ∧ get (S fuel') c e (di s') = Some (Normal v, di s').
Proof.
  intros Hdef Hk Hwf Hsplit Hlast Hown Hl Hshared.
  destruct (defineModule_at _ _ _ _ _ _ _ _ _ Hdef Hsplit) as (HM & wa & H1 & Hstep).
  rewrite HM. set (M := length (heap (di s))) in *. set (t := actualToken e) in *.
  set (w0 := (newContainer None None (di s)).2) in *.
  assert (HcM : c < M) by (by eapply lookup_Some_valid).
  assert (HoM : o < M) by (by eapply owner_valid).
  assert (Hpt : provide p = t) by (by eapply keyed_lookup).
  assert (Hk0 : keyed w0) by (by apply keyed_newContainer).
  assert (Hwf0 : wf_parents w0) by (by apply wf_parents_newContainer).
  assert (Hl0 : lookupProvider w0 c t = Some (p, o))
    by (unfold w0; by rewrite lookup_newContainer_root).
  assert (Ha : Ext M w0 wa).
  { apply (importPairs_inv (Ext M w0) fuel M l1) with (w := w0) (r := Normal tt);
      [| |apply Ext_refl|exact H1].
    - intros c0 e0 w r w' _ Hw Hget. apply get_Frame in Hget as F.
      eapply Ext_trans; [done|]. by eapply Frame_Ext.
    - intros c0 e0 w v _ Hw. eapply Ext_trans; [done|]. apply register_Ext. }
  pose proof (e_keyed _ _ _ Ha Hk0) as Hka.
  pose proof (Ext_wf_parents _ _ _ Ha Hwf0) as Hwfa.
  pose proof (e_lookup _ _ _ Ha Hwf0 _ _ _ HcM Hl0) as Hla.
  assert (Hhas : has wa c e = true).
  { rewrite has_lookup. fold t. rewrite Hla. by apply bool_decide_eq_true_2. }
  destruct (Hstep Hhas) as (v & wb & Hget & Htail).
  pose proof (get_Frame _ _ _ _ _ _ Hget) as Fb.
  pose proof (get_shared _ _ _ _ _ _ _ _ Hka Hla Hshared Hget) as Hv.
  pose proof (fr_lookup_all _ _ _ _ _ Fb Hwfa _ _ _ Hla) as Hlb.
  pose proof (Frame_wf_parents _ _ _ _ _ Fb Hwfa) as Hwfb.
  pose proof (fr_keyed _ _ _ _ _ Fb Hka) as Hkb.
  set (wc := registerValue M e v wb) in *.
  assert (Hvalid : M < length (heap wb)).
  { rewrite (fr_length _ _ _ _ _ Fb), (e_length _ _ _ Ha). apply newContainer_valid. }
  assert (Hc : Ext M wb wc) by apply register_Ext.
  assert (Hfinal : Ext M wb (di s')
                   ∧ providers (cont (di s') M) !! t = Some (value_provider t v)).
  { apply (Htail (λ w, Ext M wb w
                       ∧ providers (cont w M) !! t = Some (value_provider t v))).
    - intros c0 e0 w r w' _ [Hw Hp] Hg0. apply get_Frame in Hg0 as F. split.
      + eapply Ext_trans; [done|]. by eapply Frame_Ext.
      + by apply (fr_providers _ _ _ _ _ F).
    - intros c0 e0 w v0 Hin [Hw Hp]. split.
      + eapply Ext_trans; [done|]. apply register_Ext.
      + unfold registerValue. rewrite providers_register, decide_False; [done|].
        cbn [provide]. intros (_ & _ & Heq). apply Hlast. rewrite Heq.
        by apply (list_elem_of_fmap_2 (λ ce, actualToken ce.2) _ (c0, e0)).
    - intros q w Hq [Hw Hp]. split.
      + eapply Ext_trans; [done|]. apply register_Ext.
      + rewrite providers_register, decide_False; [done|].
        intros (_ & _ & Heq). apply Hown. rewrite Heq. by apply list_elem_of_fmap_2.
    - intros t0 w r w' [Hw Hp] Hg0. apply get_Frame in Hg0 as F. split.
      + eapply Ext_trans; [done|]. by eapply Frame_Ext.
      + by apply (fr_providers _ _ _ _ _ F).
    - split; [done|]. unfold wc, registerValue. rewrite providers_register.
      by rewrite decide_True. }
  destruct Hfinal as [Hf HpM].
  pose proof (e_lookup _ _ _ Hf Hwfb _ _ _ HcM Hlb) as Hlf.
  assert (Hinst : is_value p = false → instances (cont (di s') o) !! t = Some v).
  { intros Hnv. destruct Hv as [Hb|[_ Hcv]].
    - unfold is_value in Hnv. by rewrite Hb in Hnv.
    - unfold cached in Hcv. destruct Hshared as [|Hs]; [congruence|].
      rewrite Hs, Hpt in Hcv.
      eapply (e_inst _ _ _ Hf); [lia| |done]. by eapply lookup_owner. }
  exists v. split; [done|]. split; [done|]. intros fuel'. split.
  - unfold get. fold t.
    rewrite resolve_unfold, (lookup_here _ _ _ _ HpM). done.
  - destruct Hv as [Hb|[Hnv Hcv]].
    + unfold get. fold t. rewrite resolve_unfold, Hlf. unfold is_value. by rewrite Hb.
    + unfold get. fold t. erewrite resolve_cached; [done..|].
      unfold cached. destruct Hshared as [|Hs]; [congruence|].
      rewrite Hs, Hpt. by apply Hinst.
Qed.

(** C5 (as amended). For a module [m] built by [defineModule]:
    every exported token of an imported module [i] that [i]'s container has
    is had by [m]'s container; when it is the last export of that token
    among the imports, [m] has no provider of its own for the token, and
    [i]'s provider is a value or a singleton, [m]'s container returns the
    very instance that [i]'s container returns and holds; and a token that
    no import exports and [m] does not provide itself is not had by [m]'s
    container, unless it is a class constructor that was requested from
    that container (by a setup callback, or through an import that is not a
    module defined before). *)
Theorem defineModule_links_imports_to_exports (fuel : nat) (config : ModuleConfig)
    (s : Store) (m : ModuleDefinition) (s' : Store) :
  defineModule fuel config s = Some (Normal m, s') →
  (∀ i e, i ∈ cfg_imports config → e ∈ m_exports i →
          has (di s) (m_container i) e = true →
          has (di s') (m_container m) e = true)
  ∧ (∀ l1 c e l2 p o,
       keyed (di s) → wf_parents (di s) →
       import_pairs (cfg_imports config) = (l1 ++ (c, e) :: l2)%list →
       (actualToken e ∉ (λ ce, actualToken ce.2) <$> l2) →
       (actualToken e ∉ own_tokens config) →
       lookupProvider (di s) c (actualToken e) = Some (p, o) →
       is_value p = true ∨ lifetime_of p = Singleton →
       ∃ v,
         providers (cont (di s') (m_container m)) !! actualToken e
         = Some (value_provider (actualToken e) v)
         ∧ (is_value p = false → instances (cont (di s') o) !! actualToken e = Some v)
         ∧ ∀ fuel', get (S fuel') (m_container m) e (di s') = Some (Normal v, di s')
                    ∧ get (S fuel') c e (di s') = Some (Normal v, di s'))
  ∧ (∀ t, (t ∉ own_tokens config) →
          (t ∉ (λ ce, actualToken ce.2) <$> import_pairs (cfg_imports config)) →
          isConstructorToken t = false
          ∨ ((∀ i, i ∈ cfg_imports config → m_container i < length (heap (di s)))
             ∧ ∀ cf, cf ∈ cfg_controllers config → setup_resolves_nothing cf) →
          has (di s') (m_container m) (ArgToken t) = false).
Proof.
  intros Hdef. split; [|split].
  - intros i e. eapply defineModule_visible. exact Hdef.
  - intros l1 c e l2 p o. eapply defineModule_shared. exact Hdef.
  - intros t Hown Himp [Hctor|[Hold Hpure]].
    + eapply defineModule_hidden; [exact Hdef|done..].
    + eapply defineModule_hidden_class; [exact Hdef|done..].
Qed.

End ModuleFacts.

(** ** Stores built by [defineModule] *)

Section ModuleStores.

Variable functions : nat → JsFunction.

Lemma defineModule_keyed (fuel : nat) (config : ModuleConfig) (s : Store)
    (m : ModuleDefinition) (s' : Store) :
  defineModule functions fuel config s = Some (Normal m, s') →
  keyed (di s) → keyed (di s').
Proof.
  intros Hdef Hk. apply (defineModule_inv functions keyed fuel config s m s'); try done.
  - intros c e w r w' _ Hw Hget. apply get_Frame in Hget. by eapply fr_keyed.
  - intros c e w v _ Hw. by apply keyed_register.
  - intros q w _ Hw. by apply keyed_register.
  - intros t w r w' Hw Hget. apply get_Frame in Hget. by eapply fr_keyed.
  - by apply keyed_newContainer.
Qed.

Lemma defineModule_wf_parents (fuel : nat) (config : ModuleConfig) (s : Store)
    (m : ModuleDefinition) (s' : Store) :
  defineModule functions fuel config s = Some (Normal m, s') →
  wf_parents (di s) → wf_parents (di s').
Proof.
  intros Hdef Hk. apply (defineModule_inv functions wf_parents fuel config s m s'); try done.
  - intros c e w r w' _ Hw Hget. apply get_Frame in Hget. by eapply Frame_wf_parents.
  - intros c e w v _ Hw. by apply wf_parents_register.
  - intros q w _ Hw. by apply wf_parents_register.
  - intros t w r w' Hw Hget. apply get_Frame in Hget. by eapply Frame_wf_parents.
  - by apply wf_parents_newContainer.
Qed.

End ModuleStores.

(** * The container, beyond the claims *)

Section MoreContainer.

Variable functions : nat → JsFunction.

#[local] Abbreviation register := (register functions).
#[local] Abbreviation registerMany := (registerMany functions).
#[local] Abbreviation registerValue := (registerValue functions).
#[local] Abbreviation resolve := (resolve functions).
#[local] Abbreviation get := (get functions).
#[local] Abbreviation isConstructorToken := (isConstructorToken functions).
#[local] Abbreviation getTokenName := (getTokenName functions).
#[local] Abbreviation declaredDeps := (declaredDeps functions).
#[local] Abbreviation finish := (finish functions).
#[local] Abbreviation Frame := (Frame functions).

(** ** Resolution as a sequence of steps

    Whatever [resolve] does to the store, it does by registering a class
    for a constructor token that has no provider, by calling a factory or a
    constructor, and by caching an instance. *)
Section Steps.

Variable this : nat.
Variable P : World → World → Prop.
Hypothesis P_refl : ∀ w, P w w.
Hypothesis P_trans : ∀ w1 w2 w3, P w1 w2 → P w2 w3 → P w1 w3.
Hypothesis P_register : ∀ f w,
  isConstructorToken (TFunction f) = true →
  lookupProvider w this (TFunction f) = None →
  P w (register this (auto_provider f) w).
Hypothesis P_finish : ∀ p args w, is_value p = false → P w (finish p args w).2.
Hypothesis P_cache : ∀ o p v w, P w (cache o p v w).

Lemma resolveDependencies_steps rec (ds R : list Token) (w : World) r R' w' :
  (∀ t R w r R' w', rec this t R w = Some (r, R', w') → P w w') →
  resolveDependencies rec this ds R w = Some (r, R', w') → P w w'.
Proof.
  intros Hrec. revert R w r R' w'.
  induction ds as [|d ds IH]; intros R w r R' w'; cbn [resolveDependencies].
  - intros [= <- <- <-]. apply P_refl.
  - destruct (rec this d R w) as [[[[v|e] R1] w1]|] eqn:E; [| |done].
    + destruct (resolveDependencies rec this ds R1 w1) as [[[[vs|e] R2] w2]|] eqn:E2;
        [| |done]; intros [= <- <- <-];
        (eapply P_trans; [eapply Hrec, E|eapply IH, E2]).
    + intros [= <- <- <-]. eapply Hrec, E.
Qed.

Lemma resolve_steps (fuel : nat) (t : Token) (R : list Token) (w : World) r R' w' :
  resolve fuel this t R w = Some (r, R', w') → P w w'.
Proof.
  revert t R w r R' w'. induction fuel as [|fuel IH]; intros t R w r R' w'; [done|].
  rewrite resolve_unfold.
  destruct (lookupProvider w this t) as [[p o]|] eqn:Hl.
  - destruct (is_value p) eqn:Hv.
    { destruct (body p); [|done..]. intros [= <- <- <-]. apply P_refl. }
    destruct (cached w o p); [intros [= <- <- <-]; apply P_refl|].
    destruct (set_has (provide p) R); [intros [= <- <- <-]; apply P_refl|].
    rewrite instantiate_eq.
    destruct (resolveDependencies _ _ _ _ _) as [[[[args|e] R1] w1]|] eqn:E; [| |done].
    + apply (resolveDependencies_steps _ _ _ _ _ _ _ IH) in E.
      pose proof (P_finish p args w1 Hv) as Hf.
      destruct ((finish p args w1).1); intros [= <- <- <-].
      * eapply P_trans; [exact E|]. eapply P_trans; [exact Hf|apply P_cache].
      * eapply P_trans; [exact E|exact Hf].
    + apply (resolveDependencies_steps _ _ _ _ _ _ _ IH) in E.
      by intros [= <- <- <-].
  - destruct (isConstructorToken t) eqn:Hk; [|intros [= <- <- <-]; apply P_refl].
    destruct t as [| |f]; [done..|]. intros E.
    eapply P_trans; [by apply P_register|]. eapply IH, E.
Qed.

Lemma get_steps (fuel : nat) (token : TokenArg) (w : World) r w' :
  get fuel this token w = Some (r, w') → P w w'.
Proof.
  unfold get. destruct (resolve fuel _ _ _ _) as [[[r0 R1] w1]|] eqn:E; [|done].
  intros [= <- <-]. eapply resolve_steps, E.
Qed.

End Steps.

(** ** Registration takes effect at once *)

Lemma get_registered_value (fuel this : nat) (token : TokenArg) (value : Value)
    (w : World) :
  this < length (heap w) →
  get (S fuel) this token (registerValue this token value w)
  = Some (Normal value, registerValue this token value w).
Proof.
  intros Hlt. unfold registerValue.
  set (pv := {| provide := actualToken token; lifetime := None; body := UseValue value |}).
  assert (Hl : lookupProvider (register this pv w) this (actualToken token)
               = Some (pv, this)) by (by apply (lookup_register_eq functions this pv)).
  unfold get. by rewrite resolve_unfold, Hl.
Qed.

(** X1. [registerValue] followed by [get], on a container of the store:
    whatever was registered or instantiated for the token before, [get]
    returns the value, the container has the token, the value is its
    cached instance, and neither call runs a factory or changes the store
    further. *)
Theorem registerValue_then_get (fuel this : nat) (token : TokenArg) (value : Value)
    (w : World) :
  this < length (heap w) →
  get (S fuel) this token (registerValue this token value w)
  = Some (Normal value, registerValue this token value w)
  ∧ has (registerValue this token value w) this token = true
  ∧ instances (cont (registerValue this token value w) this) !! actualToken token
    = Some value
  ∧ calls (registerValue this token value w) = calls w.
Proof.
  intros Hlt. unfold registerValue.
  set (pv := {| provide := actualToken token; lifetime := None; body := UseValue value |}).
  assert (Hl : lookupProvider (register this pv w) this (actualToken token)
               = Some (pv, this)) by (by apply (lookup_register_eq functions this pv)).
  split; [|split; [|split]].
  - by apply get_registered_value.
  - rewrite has_lookup, Hl. apply bool_decide_eq_true_2. by eexists.
  - rewrite cont_register, decide_True by done. cbn. by rewrite lookup_insert_eq.
  - apply calls_register.
Qed.

Lemma pending_registered (this : nat) (p : Provider) (w : World) :
  this < length (heap w) → is_value p = false →
  pending (register this p w) this (provide p) p this.
Proof.
  intros Hlt Hv. split; [by apply lookup_register_eq|]. split; [done|]. split; [done|].
  unfold cached. destruct (lifetime_of p); [|done].
  rewrite cont_register, decide_True by done. cbn.
  unfold is_value in Hv. destruct (body p); [done|..]; by rewrite lookup_delete_eq.
Qed.

(** X2. Registering a class or factory provider over a token that the
    container has already instantiated discards the cached instance: the
    new provider is the one found, nothing is cached for it, and a [get]
    that returns has called the new provider's factory or constructor
    (once, as the last call it made) and returns what that call returned. *)
Theorem register_discards_cached_instance (this : nat) (p : Provider) (w : World) :
  this < length (heap w) → is_value p = false →
  lookupProvider (register this p w) this (provide p) = Some (p, this)
  ∧ cached (register this p w) this p = None
  ∧ ∀ fuel v w',
      get fuel this (ArgToken (provide p)) (register this p w) = Some (Normal v, w') →
      ∃ mid args,
        calls w' = (calls w ++ mid ++ [entry (provide p) (callee p) args (Normal v)])%list
        ∧ Forall (λ i, inv_for i ≠ provide p) mid.
Proof.
  intros Hlt Hv.
  destruct (pending_registered this p w Hlt Hv) as (Hl & _ & _ & Hc).
  split; [done|]. split; [done|].
  intros fuel v w' Hget. unfold get in Hget. simpl actualToken in Hget.
  destruct fuel as [|fuel]; [done|].
  destruct (resolve (S fuel) this (provide p) [] (register this p w))
    as [[[r R1] w1]|] eqn:E; [|done].
  injection Hget as -> ->.
  assert (Hp : pending (register this p w) this (provide p) p this)
    by (by apply pending_registered).
  destruct (resolve_creates functions _ _ _ _ _ _ _ _ _ _ Hp (not_elem_of_nil _) E)
    as (Hcalls & _).
  by rewrite calls_register in Hcalls.
Qed.

(** ** What [get] never does *)

Lemma console_register_new (this : nat) (p : Provider) (w : World) :
  providers (cont w this) !! provide p = None →
  console (register this p w) = console w.
Proof.
  intros Hn. unfold register. rewrite Hn, bool_decide_is_Some. done.
Qed.

Lemma debug_register (this : nat) (p : Provider) (w : World) (c : nat) :
  debug (cont (register this p w) c) = debug (cont w c).
Proof. rewrite cont_register. by destruct (decide _) as [[-> _]|]. Qed.

Lemma console_finish (p : Provider) (args : list Value) (w : World) :
  console (finish p args w).2 = console w.
Proof.
  unfold finish, invoke. destruct (body p) as [v|k deps|f deps]; simpl; [done| |].
  - by destruct (fn_body (functions k) _ _).
  - destruct (_ && _); [done|]. by destruct (fn_body (functions f) _ _).
Qed.

Lemma cont_finish (p : Provider) (args : list Value) (w : World) (c : nat) :
  cont (finish p args w).2 c = cont w c.
Proof. unfold cont. by rewrite finish_heap. Qed.

Lemma console_cache (o : nat) (p : Provider) (v : Value) (w : World) :
  console (cache o p v w) = console w.
Proof. unfold cache. by destruct (lifetime_of p). Qed.

Lemma debug_cache (o : nat) (p : Provider) (v : Value) (w : World) (c : nat) :
  debug (cont (cache o p v w) c) = debug (cont w c).
Proof. rewrite cont_cache. by destruct (decide _) as [(_ & -> & _)|]. Qed.

(** X3. A [get], whether it returns or throws, writes nothing to the
    console (the class it may register for a constructor token is never a
    duplicate), creates no container, changes no parent and no debug flag,
    and registers nothing in any container but the one it was called on. *)
Theorem get_keeps_console_and_tree (fuel this : nat) (token : TokenArg) (w : World)
    r w' :
  get fuel this token w = Some (r, w') →
  console w' = console w
  ∧ length (heap w') = length (heap w)
  ∧ (∀ c, parent (cont w' c) = parent (cont w c)
          ∧ debug (cont w' c) = debug (cont w c))
  ∧ ∀ c, c ≠ this → providers (cont w' c) = providers (cont w c).
Proof.
  intros Hget.
  assert (Hq : console w' = console w ∧ ∀ c, debug (cont w' c) = debug (cont w c)).
  { apply (get_steps this (λ a b, console b = console a
                                  ∧ ∀ c, debug (cont b c) = debug (cont a c)))
      with (fuel := fuel) (token := token) (r := r); [| | | | |done].
    - done.
    - intros w1 w2 w3 [H1 H2] [H3 H4]. split; [congruence|].
      intros c. by rewrite H4.
    - intros f w0 _ Hl. split; [|intros; apply debug_register].
      apply console_register_new. by apply lookup_None_here.
    - intros p args w0 _. split; [apply console_finish|].
      intros c. by rewrite cont_finish.
    - intros o p v w0. split; [apply console_cache|intros; apply debug_cache]. }
  destruct Hq as [Hcon Hdbg].
  unfold get in Hget.
  destruct (resolve fuel _ _ _ _) as [[[r0 R1] w1]|] eqn:E; [|done].
  injection Hget as <- <-.
  apply resolve_framed in E as [_ F].
  split; [done|]. split; [apply (fr_length _ _ _ _ _ F)|]. split.
  - intros c. split; [apply (fr_parent _ _ _ _ _ F)|apply Hdbg].
  - intros c Hc. apply map_eq. intros t. by apply (fr_other _ _ _ _ _ F).
Qed.

(** X4. A [get], whether it returns or throws, takes nothing back: a token
    that some container resolved to a value or to a cached singleton
    before still resolves to that very instance afterwards, from the same
    container, without any call. *)
Theorem get_keeps_resolved_instances (fuel this : nat) (token : TokenArg) (w : World)
    r w' (c : nat) (t : Token) (p : Provider) (o : nat) (v : Value) :
  keyed w → wf_parents w →
  get fuel this token w = Some (r, w') →
  lookupProvider w c t = Some (p, o) →
  body p = UseValue v ∨ (is_value p = false ∧ cached w o p = Some v) →
  ∀ fuel', get (S fuel') c (ArgToken t) w' = Some (Normal v, w').
Proof.
  intros Hk Hwf Hget Hl Hv fuel'.
  unfold get in Hget.
  destruct (resolve fuel _ _ _ _) as [[[r0 R1] w1]|] eqn:E; [|done].
  injection Hget as <- <-.
  apply resolve_framed in E as [_ F].
  assert (Hl' : lookupProvider w1 c t = Some (p, o))
    by (by apply (fr_lookup_all _ _ _ _ _ F)).
  destruct Hv as [Hb|[Hnv Hc]].
  - unfold get. simpl actualToken. rewrite resolve_unfold, Hl'.
    unfold is_value. by rewrite Hb.
  - eapply get_cached; [done..|].
    unfold cached in *. destruct (lifetime_of p); [|done].
    eapply (fr_instances _ _ _ _ _ F); [|done].
    assert (provide p = t) as -> by eauto using keyed_lookup.
    eapply lookup_owner, Hl.
Qed.

(** ** Dependencies and the factory call *)

(** A dependency that resolves at once to [v]: a value provider, or a
    singleton whose cached instance is [v]. *)
Definition settled_as (w : World) (this : nat) (d : Token) (v : Value) : Prop :=
  ∃ p o, lookupProvider w this d = Some (p, o)
         ∧ (body p = UseValue v ∨ (is_value p = false ∧ cached w o p = Some v)).

Lemma resolve_settled_as (fuel this : nat) (d : Token) (R : list Token) (w : World)
    (v : Value) :
  settled_as w this d v → resolve (S fuel) this d R w = Some (Normal v, R, w).
Proof.
  intros (p & o & Hl & [Hb|[Hv Hc]]); rewrite resolve_unfold, Hl.
  - unfold is_value. by rewrite Hb.
  - by rewrite Hv, Hc.
Qed.

Lemma resolveDependencies_settled_as (fuel this : nat) (ds : list Token)
    (vs : list Value) (R : list Token) (w : World) :
  Forall2 (settled_as w this) ds vs →
  resolveDependencies (resolve (S fuel)) this ds R w = Some (Normal vs, R, w).
Proof.
  induction 1 as [|d v ds vs Hd _ IH]; cbn [resolveDependencies]; [done|].
  by rewrite (resolve_settled_as _ _ _ _ _ _ Hd), IH.
Qed.

Lemma resolveDependencies_length rec (this : nat) (ds R : list Token) (w : World)
    vs R' w' :
  resolveDependencies rec this ds R w = Some (Normal vs, R', w') →
  length vs = length ds.
Proof.
  revert R w vs R' w'. induction ds as [|d ds IH]; intros R w vs R' w';
    cbn [resolveDependencies].
  - by intros [= <- <- <-].
  - destruct (rec this d R w) as [[[[v|e] R1] w1]|]; [|done..].
    destruct (resolveDependencies rec this ds R1 w1) as [[[[us|e] R2] w2]|] eqn:E;
      [|done..].
    intros [= <- <- <-]. simpl. f_equal. eapply IH, E.
Qed.

(** X5. A factory that declares parameters is given as many dependencies
    as it declares, or it is not called: when the provider found for [t]
    is a factory provider not yet instantiated, its dependencies resolve,
    and their number differs from the (non-zero) number of parameters of
    the factory, [get] throws the count-mismatch error, makes no call for
    [t] and caches nothing for it. *)
Theorem factory_parameter_count_checked (fuel this : nat) (t : Token) (w : World)
    (p : Provider) (o f : nat) (deps : option (list Token)) (vs : list Value)
    (R1 : list Token) (w1 : World) :
  pending w this t p o →
  body p = UseFactory f deps →
  resolveDependencies (resolve fuel) this (default [] deps) [t] w
  = Some (Normal vs, R1, w1) →
  0 < fn_length (functions f) →
  length (default [] deps) ≠ fn_length (functions f) →
  get (S fuel) this (ArgToken t) w
  = Some (Throw (count_mismatch_message functions t (fn_length (functions f))
                   (length (default [] deps)) (default [] deps)), w1)
  ∧ (∃ mid, calls w1 = (calls w ++ mid)%list ∧ Forall (λ i, inv_for i ≠ t) mid)
  ∧ cached w1 o p = None.
Proof.
  intros Hp Hb Hdeps Hpos Hne. pose proof Hp as (Hl & Hpt & Hv & Hc).
  assert (Hd : declaredDeps p = default [] deps) by (unfold declaredDeps; by rewrite Hb).
  assert (Hlen : length vs = length (default [] deps))
    by (eapply resolveDependencies_length, Hdeps).
  assert (HR : set_add t [] = [t]) by done.
  pose proof (resolveDependencies_framed functions _ _ _ _ _ _ _ _
                (resolve_framed functions fuel) Hdeps) as [-> F].
  split; [|split].
  - unfold get. simpl actualToken.
    rewrite resolve_unfold, Hl, Hv, Hc, Hpt, set_has_false by apply not_elem_of_nil.
    rewrite instantiate_eq, Hd, HR, Hdeps. unfold finish. rewrite Hb, Hpt, Hd, Hlen.
    by rewrite !bool_decide_eq_true_2 by done.
  - destruct (fr_calls _ _ _ _ _ F) as (delta & Hcalls & Hfor).
    exists delta. split; [done|]. eapply Hfor; [left|done].
  - eapply pending_cached, (fr_pending _ _ _ _ _ F); [left|done].
Qed.

(** The call that [get] makes when the dependencies are settled. *)
Lemma get_with_settled_dependencies (fuel this : nat) (t : Token) (w : World)
    (p : Provider) (o : nat) (vs : list Value) :
  pending w this t p o →
  Forall2 (settled_as w this) (declaredDeps p) vs →
  (∀ f deps, body p = UseFactory f deps →
             fn_length (functions f) = 0 ∨ fn_length (functions f) = length vs) →
  ∃ w',
    resolve (S (S fuel)) this t [] w
    = Some (match fn_body (functions (callee p)) (length (calls w)) vs with
            | Normal v => Normal v
            | Throw e => Throw (failed_message functions p e)
            end, [], w')
    ∧ calls w'
      = (calls w ++ [entry t (callee p) vs
                       (fn_body (functions (callee p)) (length (calls w)) vs)])%list.
Proof.
  intros (Hl & Hpt & Hv & Hc) Hdeps Hcount.
  rewrite resolve_unfold, Hl, Hv, Hc, Hpt, set_has_false by apply not_elem_of_nil.
  rewrite instantiate_eq, (resolveDependencies_settled_as _ _ _ _ _ _ Hdeps).
  rewrite set_delete_add by (apply set_has_false, not_elem_of_nil).
  unfold finish, failed_message, callee, invoke, entry. rewrite Hpt.
  unfold is_value in Hv. destruct (body p) as [u|k deps|f deps] eqn:Hb; [done| |].
  - destruct (fn_body (functions k) (length (calls w)) vs) as [v|e] eqn:Ef;
      cbn [fst snd]; eexists; (split; [reflexivity|]);
      by rewrite ?calls_cache.
  - assert (Hok : bool_decide (0 < fn_length (functions f))
                  && bool_decide (length vs ≠ fn_length (functions f)) = false).
    { destruct (Hcount f deps eq_refl) as [H0|Hn].
      - rewrite H0. by rewrite bool_decide_eq_false_2 by lia.
      - rewrite (bool_decide_eq_false_2 (length vs ≠ _)) by (intros ?; congruence).
        apply andb_false_r. }
    rewrite Hok.
    destruct (fn_body (functions f) (length (calls w)) vs) as [v|e] eqn:Ef;
      cbn [fst snd]; eexists; (split; [reflexivity|]);
      by rewrite ?calls_cache.
Qed.

(** X6. The factory or constructor receives the instances of the declared
    dependencies, in the declared order: when every declared dependency of
    the provider found for [t] is a value or a cached singleton, a [get]
    for [t] makes one call, of the provider's function on the list of these
    instances, and returns what the call returns (or throws the container's
    failure message around what it throws).  A factory without declared
    parameters is called whatever the number of its dependencies; a class
    constructor, whatever the number of its parameters. *)
Theorem dependencies_injected_in_order (fuel this : nat) (t : Token) (w : World)
    (p : Provider) (o : nat) (vs : list Value) :
  pending w this t p o →
  Forall2 (settled_as w this) (declaredDeps p) vs →
  (∀ f deps, body p = UseFactory f deps →
             fn_length (functions f) = 0 ∨ fn_length (functions f) = length vs) →
  ∃ w',
    get (S (S fuel)) this (ArgToken t) w
    = Some (match fn_body (functions (callee p)) (length (calls w)) vs with
            | Normal v => Normal v
            | Throw e => Throw (failed_message functions p e)
            end, w')
    ∧ calls w'
      = (calls w ++ [entry t (callee p) vs
                       (fn_body (functions (callee p)) (length (calls w)) vs)])%list
    ∧ ∀ i d, declaredDeps p !! i = Some d →
        ∃ v, vs !! i = Some v ∧ settled_as w this d v.
Proof.
  intros Hp Hdeps Hcount.
  destruct (get_with_settled_dependencies fuel this t w p o vs Hp Hdeps Hcount)
    as (w' & E & Hcalls).
  exists w'. unfold get. simpl actualToken. rewrite E. split; [done|]. split; [done|].
  intros i d Hi. destruct (Forall2_lookup_l _ _ _ _ _ Hdeps Hi) as (v & Hv & Hs). eauto.
Qed.

(** ** Resolution that succeeds *)

(** The parameter check of [instantiateProvider] passes. *)
Definition count_ok (p : Provider) : Prop :=
  match body p with
  | UseFactory f _ =>
      fn_length (functions f) = 0 ∨ length (declaredDeps p) = fn_length (functions f)
  | _ => True
  end.

(** A function that returns whenever it is called. *)
Definition never_throws (f : nat) : Prop :=
  ∀ n args, ∃ v, fn_body (functions f) n args = Normal v.

Section Healthy.

Variable this : nat.

(** The tokens in use, and a rank that decreases along every declared
    dependency (so the declarations have no cycle). *)
Variable U : list Token.
Variable rank : Token → nat.

(** Seen from [this], every token in use has a provider, whose declared
    dependencies are in use and of lower rank, whose parameter count
    matches, and whose factory or constructor returns. *)
Definition healthy (w : World) : Prop :=
  ∀ t, t ∈ U →
    ∃ p o, lookupProvider w this t = Some (p, o) ∧ provide p = t
           ∧ (∀ d, d ∈ declaredDeps p → d ∈ U ∧ rank d < rank t)
           ∧ count_ok p
           ∧ (is_value p = false → never_throws (callee p)).

Lemma healthy_Frame (R : list Token) (w w' : World) :
  Frame this R w w' → healthy w → healthy w'.
Proof.
  intros F H t Ht. destruct (H t Ht) as (p & o & Hl & Hrest).
  exists p, o. split; [|done]. by apply (fr_lookup _ _ _ _ _ F).
Qed.

Lemma resolveDependencies_healthy (n : nat) (ds R : list Token) (w : World) :
  (∀ t R w, healthy w → t ∈ U → rank t < n → (∀ x, x ∈ R → rank t < rank x) →
            ∃ v w', resolve n this t R w = Some (Normal v, R, w')) →
  healthy w →
  (∀ d, d ∈ ds → d ∈ U ∧ rank d < n ∧ ∀ x, x ∈ R → rank d < rank x) →
  ∃ vs w', resolveDependencies (resolve n) this ds R w = Some (Normal vs, R, w').
Proof.
  intros IH. revert w. induction ds as [|d ds IHds]; intros w Hw Hds;
    cbn [resolveDependencies]; [eauto|].
  destruct (Hds d) as (HdU & Hdn & HdR); [left|].
  destruct (IH d R w Hw HdU Hdn HdR) as (v & w1 & E). rewrite E.
  apply resolve_framed in E as [_ F].
  destruct (IHds w1) as (vs & w2 & E2).
  - by eapply healthy_Frame.
  - intros d' Hd'. apply Hds. by right.
  - rewrite E2. eauto.
Qed.

Lemma resolve_healthy (n : nat) (t : Token) (R : list Token) (w : World) :
  healthy w → t ∈ U → rank t < n → (∀ x, x ∈ R → rank t < rank x) →
  ∃ v w', resolve n this t R w = Some (Normal v, R, w').
Proof.
  revert t R w. induction n as [|n IH]; intros t R w Hw Ht Hn HR; [lia|].
  destruct (Hw t Ht) as (p & o & Hl & Hpt & Hdeps & Hcount & Hfn).
  rewrite resolve_unfold, Hl. destruct (is_value p) eqn:Hv.
  { unfold is_value in Hv. destruct (body p); [eauto|done..]. }
  destruct (cached w o p); [eauto|].
  assert (HtR : t ∉ R) by (intros Hin; apply HR in Hin; lia).
  rewrite Hpt, set_has_false, instantiate_eq by done.
  destruct (resolveDependencies_healthy n (declaredDeps p) (set_add t R) w IH Hw)
    as (vs & w1 & E).
  { intros d Hd. destruct (Hdeps d Hd) as [HdU Hlt]. split; [done|]. split; [lia|].
    intros x Hx. apply set_add_spec in Hx as [Hx| ->]; [|done].
    apply HR in Hx. lia. }
  rewrite E. rewrite set_delete_add by (by apply set_has_false).
  assert (Hlen : length vs = length (declaredDeps p))
    by (eapply resolveDependencies_length, E).
  assert (Hfin : ∃ v, (finish p vs w1).1 = Normal v).
  { unfold finish. unfold count_ok in Hcount. unfold never_throws, callee in Hfn.
    unfold is_value in Hv. destruct (body p) as [u|k deps|f deps]; [done| |].
    - destruct (Hfn eq_refl (length (calls w1)) vs) as [v Ev]. exists v.
      unfold invoke. by rewrite Ev.
    - assert (Hok : bool_decide (0 < fn_length (functions f))
                    && bool_decide (length vs ≠ fn_length (functions f)) = false).
      { destruct Hcount as [H0|Hc].
        - rewrite H0. by rewrite bool_decide_eq_false_2 by lia.
        - rewrite (bool_decide_eq_false_2 (length vs ≠ _)) by (intros ?; congruence).
          apply andb_false_r. }
      rewrite Hok. destruct (Hfn eq_refl (length (calls w1)) vs) as [v Ev]. exists v.
      unfold invoke. by rewrite Ev. }
  destruct Hfin as [v Ev]. rewrite Ev. eauto.
Qed.

Lemma get_healthy (fuel : nat) (token : TokenArg) (w : World) :
  healthy w → actualToken token ∈ U → rank (actualToken token) < fuel →
  ∃ v w', get fuel this token w = Some (Normal v, w') ∧ healthy w'.
Proof.
  intros Hw Ht Hlt. unfold get.
  destruct (resolve_healthy fuel (actualToken token) [] w Hw Ht Hlt) as (v & w' & E).
  { intros x Hx. by apply elem_of_nil in Hx. }
  rewrite E. exists v, w'. split; [done|].
  apply resolve_framed in E as [_ F]. by eapply healthy_Frame.
Qed.

(** X7. In a container where every token in use has a provider, the
    declared dependencies have no cycle, the parameter counts match and no
    factory or constructor throws, [get] returns an instance for every
    token in use, with a recursion depth of the token's rank; and the store
    it leaves is again such a store. *)
Theorem get_succeeds_on_healthy_store (w : World) (t : Token) :
  healthy w → t ∈ U →
  ∃ v w', get (S (rank t)) this (ArgToken t) w = Some (Normal v, w') ∧ healthy w'.
Proof. intros Hw Ht. apply get_healthy; [done|done|]. simpl actualToken. lia. Qed.

End Healthy.

(** ** Containers created later *)

(** Two stores with the same call log and the same containers up to the
    address [c0]. *)
Definition agree (c0 : nat) (w1 w2 : World) : Prop :=
  calls w1 = calls w2
  ∧ ∀ c, c ≤ c0 →
      (c < length (heap w1) ↔ c < length (heap w2)) ∧ cont w1 c = cont w2 c.

Lemma lookup_from_agree (c0 n : nat) (w1 w2 : World) (c : nat) (t : Token) :
  wf_parents w1 → agree c0 w1 w2 → c ≤ c0 →
  lookupProvider_from n w2 c t = lookupProvider_from n w1 c t.
Proof.
  intros Hwf [_ Ha]. revert c. induction n as [|n IH]; intros c Hc;
    cbn [lookupProvider_from]; destruct (Ha c Hc) as [_ ->]; [done|].
  destruct (providers (cont w2 c) !! t); [done|].
  destruct (parent (cont w2 c)) as [q|] eqn:Hq; [|done].
  apply IH. destruct (Ha c Hc) as [_ Hcc]. rewrite <-Hcc in Hq. apply Hwf in Hq. lia.
Qed.

Lemma lookup_from_owner_le (n : nat) (w : World) (c : nat) (t : Token) (p : Provider)
    (o : nat) :
  wf_parents w → lookupProvider_from n w c t = Some (p, o) → o ≤ c.
Proof.
  intros Hwf. revert c. induction n as [|n IH]; intros c; cbn [lookupProvider_from].
  - destruct (providers (cont w c) !! t); [by intros [= _ <-]|by destruct (parent _)].
  - destruct (providers (cont w c) !! t); [by intros [= _ <-]|].
    destruct (parent (cont w c)) as [q|] eqn:Hq; [|done].
    intros H. apply IH in H. apply Hwf in Hq. lia.
Qed.

Lemma agree_register (c0 this : nat) (p : Provider) (w1 w2 : World) :
  this ≤ c0 → agree c0 w1 w2 → agree c0 (register this p w1) (register this p w2).
Proof.
  intros Hle [Hcalls Ha]. split; [by rewrite !calls_register|].
  intros c Hc. rewrite !length_heap_register, !cont_register.
  destruct (Ha c Hc) as [Hv Hcc]. destruct (Ha this Hle) as [Hvt Hct].
  split; [done|]. rewrite Hcc, Hct.
  destruct (decide (c = this ∧ this < length (heap w1))) as [[-> H1]|Hn].
  - by rewrite decide_True by tauto.
  - by rewrite decide_False by tauto.
Qed.

Lemma agree_cache (c0 o : nat) (p : Provider) (v : Value) (w1 w2 : World) :
  o ≤ c0 → agree c0 w1 w2 → agree c0 (cache o p v w1) (cache o p v w2).
Proof.
  intros Hle [Hcalls Ha]. split; [by rewrite !calls_cache|].
  intros c Hc. rewrite !length_heap_cache, !cont_cache.
  destruct (Ha c Hc) as [Hv Hcc]. destruct (Ha o Hle) as [Hvo Hco].
  split; [done|]. rewrite Hcc, Hco.
  destruct (decide (lifetime_of p = Singleton ∧ c = o ∧ o < length (heap w1)))
    as [(? & -> & ?)|Hn].
  - by rewrite decide_True by tauto.
  - by rewrite decide_False by tauto.
Qed.

Lemma agree_finish (c0 : nat) (p : Provider) (args : list Value) (w1 w2 : World) :
  agree c0 w1 w2 →
  (finish p args w1).1 = (finish p args w2).1
  ∧ agree c0 (finish p args w1).2 (finish p args w2).2.
Proof.
  intros [Hcalls Ha].
  assert (Hkeep : ∀ l, agree c0 {| heap := heap w1; calls := (calls w1 ++ l)%list;
                                   console := console w1 |}
                              {| heap := heap w2; calls := (calls w1 ++ l)%list;
                                 console := console w2 |}).
  { intros l. split; [done|]. intros c Hc. apply (Ha c Hc). }
  unfold finish, invoke. destruct (body p) as [u|k deps|f deps].
  - done.
  - rewrite <-Hcalls. destruct (fn_body (functions k) _ _); cbn [fst snd];
      (split; [done|apply Hkeep]).
  - destruct (_ && _); [done|].
    rewrite <-Hcalls. destruct (fn_body (functions f) _ _); cbn [fst snd];
      (split; [done|apply Hkeep]).
Qed.

Lemma resolveDependencies_agree rec (this : nat) (ds R : list Token) (w1 w2 : World)
    r R' w1' :
  (∀ t R w1 w2 r R' w1', wf_parents w1 → agree this w1 w2 →
     rec this t R w1 = Some (r, R', w1') →
     ∃ w2', rec this t R w2 = Some (r, R', w2') ∧ agree this w1' w2') →
  framed functions rec →
  wf_parents w1 → agree this w1 w2 →
  resolveDependencies rec this ds R w1 = Some (r, R', w1') →
  ∃ w2', resolveDependencies rec this ds R w2 = Some (r, R', w2') ∧ agree this w1' w2'.
Proof.
  intros Hrec Hfr. revert R w1 w2 r R' w1'.
  induction ds as [|d ds IH]; intros R w1 w2 r R' w1' Hwf Ha; cbn [resolveDependencies].
  - intros [= <- <- <-]. eauto.
  - destruct (rec this d R w1) as [[[[v|e] R1] u1]|] eqn:E; [| |done].
    + destruct (Hrec _ _ _ _ _ _ _ Hwf Ha E) as (u2 & -> & Ha1).
      apply Hfr in E as [_ F].
      destruct (resolveDependencies rec this ds R1 u1) as [[[[vs|e] R2] x1]|] eqn:E2;
        [| |done]; intros [= <- <- <-];
        (destruct (IH _ _ u2 _ _ _ (Frame_wf_parents functions _ _ _ _ F Hwf) Ha1 E2)
           as (x2 & -> & Ha2)); eauto.
    + destruct (Hrec _ _ _ _ _ _ _ Hwf Ha E) as (u2 & -> & Ha1).
      intros [= <- <- <-]. eauto.
Qed.

Lemma resolve_agree (fuel this : nat) (t : Token) (R : list Token) (w1 w2 : World)
    r R' w1' :
  wf_parents w1 → agree this w1 w2 →
  resolve fuel this t R w1 = Some (r, R', w1') →
  ∃ w2', resolve fuel this t R w2 = Some (r, R', w2') ∧ agree this w1' w2'.
Proof.
  revert t R w1 w2 r R' w1'. induction fuel as [|fuel IH];
    intros t R w1 w2 r R' w1' Hwf Ha; [done|].
  rewrite !resolve_unfold.
  assert (Hl2 : lookupProvider w2 this t = lookupProvider w1 this t)
    by (by apply (lookup_from_agree this)).
  rewrite Hl2. destruct (lookupProvider w1 this t) as [[p o]|] eqn:Hl.
  - assert (Ho : o ≤ this) by (by eapply lookup_from_owner_le).
    assert (Hc2 : cached w2 o p = cached w1 o p).
    { unfold cached. destruct Ha as [_ Ha]. by destruct (Ha o Ho) as [_ ->]. }
    rewrite Hc2. destruct (is_value p) eqn:Hv.
    { destruct (body p); [|done..]. intros [= <- <- <-]. eauto. }
    destruct (cached w1 o p); [intros [= <- <- <-]; eauto|].
    destruct (set_has (provide p) R); [intros [= <- <- <-]; eauto|].
    rewrite !instantiate_eq.
    destruct (resolveDependencies (resolve fuel) this (declaredDeps p) _ w1)
      as [[[[args|e] R1] u1]|] eqn:E; [| |done].
    + destruct (resolveDependencies_agree _ _ _ _ _ _ _ _ _ IH
                  (resolve_framed functions fuel) Hwf Ha E) as (u2 & -> & Ha1).
      destruct (agree_finish this p args u1 u2 Ha1) as [Hr Ha2]. rewrite <-Hr.
      destruct ((finish p args u1).1); intros [= <- <- <-]; eexists; (split; [done|]).
      * by apply agree_cache.
      * done.
    + destruct (resolveDependencies_agree _ _ _ _ _ _ _ _ _ IH
                  (resolve_framed functions fuel) Hwf Ha E) as (u2 & -> & Ha1).
      intros [= <- <- <-]. eauto.
  - destruct (isConstructorToken t) eqn:Hk; [|intros [= <- <- <-]; eauto].
    destruct t as [| |f]; [done..|]. intros E.
    eapply IH; [| |exact E].
    + by apply wf_parents_register.
    + by apply agree_register.
Qed.

Lemma agree_register_later (this c : nat) (p : Provider) (w : World) :
  this < c → agree this w (register c p w).
Proof.
  intros Hlt. split; [by rewrite calls_register|].
  intros c' Hc'. rewrite length_heap_register, cont_register.
  split; [done|]. rewrite decide_False; [done|lia].
Qed.

(** X8. What [get] does on a container depends only on the call log and
    on the containers created up to that one, its ancestors among them:
    in two stores that agree on these, [get] completes in the same way and
    leaves stores that agree again.  So whatever is registered in a child,
    or in any container created later, changes nothing for [get] on this
    container. *)
Theorem get_ignores_later_containers (fuel this : nat) (token : TokenArg)
    (w1 w2 : World) r w1' :
  wf_parents w1 → agree this w1 w2 →
  get fuel this token w1 = Some (r, w1') →
  ∃ w2', get fuel this token w2 = Some (r, w2') ∧ agree this w1' w2'.
Proof.
  intros Hwf Ha. unfold get.
  destruct (resolve fuel this _ [] w1) as [[[r1 R1] u1]|] eqn:E; [|done].
  intros [= <- <-].
  destruct (resolve_agree _ _ _ _ _ _ _ _ _ Hwf Ha E) as (u2 & -> & Ha').
  eauto.
Qed.

(** ** Warnings in debug mode *)

Definition overwrite_warning (t : Token) : string :=
  "[DI Container] Warning: Overwriting existing provider for token "
  +:+ DQ +:+ getTokenName t +:+ DQ +:+ ". "
  +:+ "This may indicate a misconfiguration.".

(** The tokens of the providers in [ps] that overwrite a registration:
    their token is among [seen] or is that of an earlier provider of the
    list. *)
Fixpoint overwritten (seen : gset Token) (ps : list Provider) : list Token :=
  match ps with
  | [] => []
  | p :: rest =>
      (if bool_decide (provide p ∈ seen) then [provide p] else [])
      ++ overwritten ({[provide p]} ∪ seen) rest
  end.

Lemma console_register (this : nat) (p : Provider) (w : World) :
  console (register this p w)
  = (console w
     ++ if bool_decide (provide p ∈ dom (providers (cont w this))) && debug (cont w this)
        then [overwrite_warning (provide p)] else [])%list.
Proof.
  unfold register, overwrite_warning.
  assert (Hd : bool_decide (provide p ∈ dom (providers (cont w this)))
               = bool_decide (is_Some (providers (cont w this) !! provide p))).
  { apply bool_decide_ext. by rewrite elem_of_dom. }
  rewrite Hd. destruct (_ && _); cbn; [done|by rewrite app_nil_r].
Qed.

(** X9. In debug mode [registerMany] logs one warning for each provider of
    the list, in order, whose token the container itself already registers
    (from before or from earlier in the list), naming the token; a provider
    that shadows one of the parent is not reported; and without debug mode
    nothing is logged. *)
Theorem registerMany_warns_of_overwrites (this : nat) (ps : list Provider) (w : World) :
  this < length (heap w) →
  console (registerMany this ps w)
  = (console w
     ++ if debug (cont w this)
        then overwrite_warning <$> overwritten (dom (providers (cont w this))) ps
        else [])%list.
Proof.
  unfold registerMany. revert w. induction ps as [|p ps IH]; intros w Hlt;
    cbn [foldl overwritten].
  - destruct (debug _); by rewrite app_nil_r.
  - rewrite IH by (by rewrite length_heap_register).
    rewrite console_register, debug_register.
    assert (Hdom : dom (providers (cont (register this p w) this))
                   = {[provide p]} ∪ dom (providers (cont w this))).
    { rewrite cont_register, decide_True by done. cbn. by rewrite dom_insert_L. }
    rewrite Hdom, <-app_assoc. f_equal.
    destruct (debug (cont w this)); [|by rewrite andb_false_r].
    rewrite andb_true_r, fmap_app. f_equal. by destruct (bool_decide _).
Qed.

End MoreContainer.

(** * Controllers, modules and the app, beyond the claims *)

(** ** [defineController] *)

(** What [defineController(prefix, setup)] returns: the factory, carrying
    the [prefix] and the [app] of a default instance. *)
Record Controller := {
  ctl_factory : ControllerFactory;
  ctl_prefix : string;
  ctl_app : Hono;
}.

(** The controller instance at an address. *)
Definition controllerAt (s : Store) (a : nat) : ControllerDefinition :=
  default {| prefix := EmptyString; app := newHono None |} (controllerHeap s !! a).

Section Controllers.

Variable functions : nat → JsFunction.

(** [defineController]: the default instance is made at once, by the
    factory, on a new container that has no provider. *)
Definition defineController (fuel : nat) (prefix' : string) (setup : list SetupOp)
    (s : Store) : option (Completion Controller * Store) :=
  let factory := {| cf_prefix := prefix'; cf_setup := setup |} in
  let (defaultContainer, w0) := newContainer None None (di s) in
  match controllerFactory functions fuel factory defaultContainer
          {| di := w0; controllerHeap := controllerHeap s |} with
  | None => None
  | Some (Throw e, s1) => Some (Throw e, s1)
  | Some (Normal defaultDefinition, s1) =>
      Some (Normal {| ctl_factory := factory;
                      ctl_prefix := prefix (controllerAt s1 defaultDefinition);
                      ctl_app := app (controllerAt s1 defaultDefinition) |},
            s1)
  end.

(** ** The testing module *)

(** [createTestingModule(config)]: the module, defined at once, with
    [get], [override] and [createApp] on it. *)
Record TestingModule := {
  tm_module : ModuleDefinition;
  tm_container : nat;
}.

Definition createTestingModule (fuel : nat) (config : ModuleConfig) (s : Store)
  : option (Completion TestingModule * Store) :=
  match defineModule functions fuel config s with
  | None => None
  | Some (Throw e, s1) => Some (Throw e, s1)
  | Some (Normal module, s1) =>
      Some (Normal {| tm_module := module; tm_container := m_container module |}, s1)
  end.

(** [get(token)]: [module.container.get(token)] *)
Definition tm_get (fuel : nat) (tm : TestingModule) (token : TokenArg) (w : World)
  : option (Completion Value * World) :=
  get functions fuel (m_container (tm_module tm)) token w.

(** [override(token, value)]: [module.container.registerValue(token, value)] *)
Definition tm_override (tm : TestingModule) (token : TokenArg) (value : Value)
    (w : World) : World :=
  registerValue functions (m_container (tm_module tm)) token value w.

(** [createApp()]: [createApp(module)] *)
Definition tm_createApp (Hono_members : list string) (heap : list ControllerDefinition)
    (tm : TestingModule) : View :=
  createApp Hono_members heap (tm_module tm) None.

End Controllers.

(** ** Routes *)

(** The calls that a setup callback makes on its route builder, in order. *)
Definition routes_of (setup : list SetupOp) : list HonoEntry :=
  omap (λ op, match op with
              | r_use path handlers => Some (HUse path handlers)
              | r_on method path handlers => Some (HOn method path handlers)
              | deps_get _ => None
              end) setup.

(** The instance that a controller factory makes. *)
Definition instance_of (cf : ControllerFactory) : ControllerDefinition :=
  {| prefix := cf_prefix cf;
     app := {| hono_options := None; entries := routes_of (cf_setup cf) |} |}.

(** The members of a list in the order of their first occurrence. *)
Fixpoint first_occurrences (l : list nat) : list nat :=
  match l with
  | [] => []
  | x :: rest => x :: filter (λ y, y ≠ x) (first_occurrences rest)
  end.

Lemma filter_all {A} (P : A → Prop) `{∀ x, Decision (P x)} (l : list A) :
  (∀ y, y ∈ l → P y) → filter P l = l.
Proof.
  induction l as [|x l IH]; intros Hl; [done|].
  rewrite filter_cons_True by (apply Hl; left). f_equal.
  apply IH. intros y Hy. apply Hl. by right.
Qed.

Lemma set_add_all_first (l acc : list nat) :
  foldl (λ a x, set_add x a) acc l
  = (acc ++ filter (λ y, y ∉ acc) (first_occurrences l))%list.
Proof.
  revert acc. induction l as [|x l IH]; intros acc; cbn [foldl first_occurrences].
  - by rewrite app_nil_r.
  - rewrite IH. unfold set_add, set_has. rewrite filter_cons.
    case_bool_decide as Hx.
    + rewrite decide_False by tauto. f_equal. rewrite list_filter_filter.
      apply list_filter_iff. intros y. split; [|tauto].
      intros Hy. split; [done|]. by intros ->.
    + rewrite decide_True by done. rewrite <-app_assoc. cbn. do 2 f_equal.
      rewrite list_filter_filter. apply list_filter_iff. intros y.
      rewrite elem_of_app, list_elem_of_singleton. tauto.
Qed.

Lemma collectControllers_fold (m : ModuleDefinition) (acc : list nat) :
  collectControllers m acc = foldl (λ a x, set_add x a) acc (tree_controllers m).
Proof.
  revert acc. induction m as [cs imports ex ps k IH] using ModuleDefinition_tree_ind.
  intros acc. cbn [collectControllers tree_controllers m_controllers m_imports].
  rewrite foldl_app. generalize (foldl (λ a x, set_add x a) acc cs) as start.
  induction IH as [|i imports Hi _ IHl]; intros start; cbn [foldl map concat]; [done|].
  by rewrite foldl_app, IHl, Hi.
Qed.

Lemma first_occurrences_app (l1 l2 : list nat) :
  first_occurrences (l1 ++ l2)
  = (first_occurrences l1
     ++ filter (λ y, y ∉ l1) (first_occurrences l2))%list.
Proof.
  induction l1 as [|x l1 IH].
  - rewrite app_nil_l. symmetry. apply filter_all. intros y _. apply not_elem_of_nil.
  - rewrite <-app_comm_cons. cbn [first_occurrences].
    rewrite IH, filter_app, <-app_comm_cons. do 2 f_equal. rewrite list_filter_filter.
    apply list_filter_iff. intros y. rewrite not_elem_of_cons. tauto.
Qed.

Lemma first_occurrences_NoDup (l : list nat) : NoDup l → first_occurrences l = l.
Proof.
  induction 1 as [|x l Hx _ IH]; cbn [first_occurrences]; [done|].
  rewrite IH. f_equal. apply filter_all. intros y Hy ->. done.
Qed.

Lemma createApp_entries (Hono_members : list string) (heap : list ControllerDefinition)
    (rootModule : ModuleDefinition) (options : option Options) :
  entries (target (createApp Hono_members heap rootModule options))
  = (((λ mw, HUse "*" [mw]) <$> global_middleware options)
     ++ omap (route_of heap) (collectControllers rootModule []))%list.
Proof.
  unfold createApp. cbn [target]. rewrite mount_all_entries. f_equal.
  unfold global_middleware, isCreateAppOptions.
  destruct options as [[o|o]|]; try done.
  destruct (opt_middleware o) as [mws|] eqn:Hm; simpl.
  - by rewrite use_all_entries.
  - by destruct (bool_decide _).
Qed.

(** X10. [createApp] mounts the controllers in the order of a pre-order
    walk of the module tree: those of a module before those of its imports,
    the imports in the order listed, a controller met again being skipped;
    all of them after the global middleware. *)
Theorem createApp_mounts_in_preorder (Hono_members : list string)
    (heap : list ControllerDefinition) (rootModule : ModuleDefinition)
    (options : option Options) :
  collectControllers rootModule [] = first_occurrences (tree_controllers rootModule)
  ∧ entries (target (createApp Hono_members heap rootModule options))
    = (((λ mw, HUse "*" [mw]) <$> global_middleware options)
       ++ omap (route_of heap) (first_occurrences (tree_controllers rootModule)))%list.
Proof.
  assert (H : collectControllers rootModule []
              = first_occurrences (tree_controllers rootModule)).
  { rewrite collectControllers_fold, set_add_all_first, app_nil_l.
    apply filter_all. intros y _. apply not_elem_of_nil. }
  split; [done|]. by rewrite createApp_entries, H.
Qed.

Section MoreModules.

Variable functions : nat → JsFunction.

#[local] Abbreviation register := (register functions).
#[local] Abbreviation registerValue := (registerValue functions).
#[local] Abbreviation resolve := (resolve functions).
#[local] Abbreviation get := (get functions).
#[local] Abbreviation isConstructorToken := (isConstructorToken functions).
#[local] Abbreviation defineModule := (defineModule functions).

(** ** What a controller factory makes *)

Lemma routes_of_app (l1 l2 : list SetupOp) :
  routes_of (l1 ++ l2) = (routes_of l1 ++ routes_of l2)%list.
Proof. apply omap_app. Qed.

Lemma runSetup_entries (fuel container : nat) (setup : list SetupOp) (router : Hono)
    (w : World) (router' : Hono) (w' : World) :
  runSetup functions fuel container setup router w = Some (Normal router', w') →
  router' = {| hono_options := hono_options router;
               entries := (entries router ++ routes_of setup)%list |}.
Proof.
  revert router w. induction setup as [|[path hs|mt path hs|t] setup IH];
    intros router w; cbn [runSetup].
  - intros [= <- <-]. destruct router. cbn. by rewrite app_nil_r.
  - intros E. apply IH in E as ->. cbn. by rewrite <-app_assoc.
  - intros E. apply IH in E as ->. cbn. by rewrite <-app_assoc.
  - destruct (get fuel container t w) as [[[v|e] w1]|]; [|done..]. apply IH.
Qed.

Lemma runSetup_routes_only (fuel container : nat) (setup : list SetupOp) (router : Hono)
    (w : World) :
  (∀ token, deps_get token ∉ setup) →
  runSetup functions fuel container setup router w
  = Some (Normal {| hono_options := hono_options router;
                    entries := (entries router ++ routes_of setup)%list |}, w).
Proof.
  revert router. induction setup as [|[path hs|mt path hs|t] setup IH];
    intros router Hpure; cbn [runSetup].
  - destruct router. cbn. by rewrite app_nil_r.
  - rewrite IH by (intros token Hin; apply (Hpure token); by right).
    cbn. by rewrite <-app_assoc.
  - rewrite IH by (intros token Hin; apply (Hpure token); by right).
    cbn. by rewrite <-app_assoc.
  - destruct (Hpure t). left.
Qed.

Lemma controllerFactory_instance (fuel : nat) (cf : ControllerFactory) (container : nat)
    (s : Store) (a : nat) (s' : Store) :
  controllerFactory functions fuel cf container s = Some (Normal a, s') →
  a = length (controllerHeap s)
  ∧ controllerHeap s' = (controllerHeap s ++ [instance_of cf])%list.
Proof.
  unfold controllerFactory.
  destruct (runSetup functions fuel container (cf_setup cf) (newHono None) (di s))
    as [[[router|e] w1]|] eqn:E; [|done..].
  intros [= <- <-]. split; [done|]. cbn. by apply runSetup_entries in E as ->.
Qed.

Lemma instantiateControllers_instances (fuel container : nat)
    (cfs : list ControllerFactory) (s : Store) (cs : list nat) (s' : Store) :
  instantiateControllers functions fuel container cfs s = Some (Normal cs, s') →
  cs = seq (length (controllerHeap s)) (length cfs)
  ∧ controllerHeap s' = (controllerHeap s ++ (instance_of <$> cfs))%list.
Proof.
  revert s cs s'. induction cfs as [|cf cfs IH]; intros s cs s';
    cbn [instantiateControllers].
  - intros [= <- <-]. by rewrite app_nil_r.
  - destruct (controllerFactory functions fuel cf container s) as [[[a|e] s1]|] eqn:E; [|done..].
    apply controllerFactory_instance in E as [-> H1].
    destruct (instantiateControllers functions fuel container cfs s1) as [[[cs'|e] s2]|] eqn:E2;
      [|done..].
    intros [= <- <-]. apply IH in E2 as [-> H2].
    rewrite H2, H1, length_app, <-app_assoc. cbn. split; [|done].
    f_equal. f_equal. lia.
Qed.

(** X11. [defineModule] calls each controller factory once, in the order
    of the list: the module's controllers are as many new objects, the
    [i]-th with the prefix of the [i]-th factory and a router that holds
    the calls its setup made on the route builder, in order; no other
    controller object is created or changed. *)
Theorem defineModule_instantiates_controllers_in_order (fuel : nat)
    (config : ModuleConfig) (s : Store) (m : ModuleDefinition) (s' : Store) :
  defineModule fuel config s = Some (Normal m, s') →
  m_controllers m = seq (length (controllerHeap s)) (length (cfg_controllers config))
  ∧ controllerHeap s'
    = (controllerHeap s ++ (instance_of <$> cfg_controllers config))%list
  ∧ ∀ i cf, cfg_controllers config !! i = Some cf →
      ∃ a, m_controllers m !! i = Some a
           ∧ controllerHeap s' !! a
             = Some {| prefix := cf_prefix cf;
                       app := {| hono_options := None;
                                 entries := routes_of (cf_setup cf) |} |}.
Proof.
  intros Hdef.
  destruct (defineModule_steps functions _ _ _ _ _ Hdef) as (w1 & _ & Hctl & _).
  apply instantiateControllers_instances in Hctl as [Hcs Hheap]. cbn in Hcs, Hheap.
  split; [done|]. split; [done|].
  intros i cf Hi. exists (length (controllerHeap s) + i). split.
  - rewrite Hcs. apply lookup_seq. split; [done|]. by eapply lookup_lt_Some.
  - rewrite Hheap, lookup_app_r by lia.
    replace (length (controllerHeap s) + i - length (controllerHeap s)) with i by lia.
    by rewrite list_lookup_fmap, Hi.
Qed.

Lemma omap_route_of_new (heap : list ControllerDefinition)
    (cfs : list ControllerFactory) (rest : list ControllerDefinition) :
  omap (route_of (heap ++ (instance_of <$> cfs) ++ rest))
    (seq (length heap) (length cfs))
  = (λ cf, HRoute (cf_prefix cf) (routes_of (cf_setup cf))) <$> cfs.
Proof.
  revert heap. induction cfs as [|cf cfs IH]; intros heap; [done|].
  cbn [length seq fmap list_fmap].
  assert (Hr : route_of (heap ++ (instance_of cf :: (instance_of <$> cfs)) ++ rest)
                 (length heap)
               = Some (HRoute (cf_prefix cf) (routes_of (cf_setup cf)))).
  { unfold route_of. by rewrite lookup_app_r, Nat.sub_diag by lia. }
  cbn [omap list_omap]. rewrite Hr. f_equal.
  specialize (IH (heap ++ [instance_of cf])%list).
  rewrite length_app, <-app_assoc in IH. cbn [length app] in IH.
  by rewrite Nat.add_1_r in IH.
Qed.

Lemma omap_ext_in {A B} (f g : A → option B) (l : list A) :
  (∀ y, y ∈ l → f y = g y) → omap f l = omap g l.
Proof.
  induction l as [|x l IH]; intros H; [done|]. cbn.
  rewrite (H x) by left. rewrite IH; [done|]. intros y Hy. apply H. by right.
Qed.

Lemma elem_of_first_occurrences (l : list nat) (y : nat) :
  y ∈ first_occurrences l → y ∈ l.
Proof.
  revert y. induction l as [|x l IH]; intros y; cbn [first_occurrences]; [done|].
  rewrite !elem_of_cons, list_elem_of_filter. intros [->|[_ Hy]]; [by left|].
  right. by apply IH.
Qed.

(** X12. The routing table of an app made from a module just defined:
    after the global middleware, one [route] per controller factory of the
    module, in the order of the list, under the factory's prefix and with
    the routes its setup registered in order; then the controllers of the
    imported modules (objects that existed before), in pre-order. *)
Theorem createApp_of_defined_module (Hono_members : list string) (fuel : nat)
    (config : ModuleConfig) (s : Store) (m : ModuleDefinition) (s' : Store)
    (options : option Options) :
  defineModule fuel config s = Some (Normal m, s') →
  (∀ c, c ∈ concat (map tree_controllers (cfg_imports config)) →
        c < length (controllerHeap s)) →
  entries (target (createApp Hono_members (controllerHeap s') m options))
  = (((λ mw, HUse "*" [mw]) <$> global_middleware options)
     ++ ((λ cf, HRoute (cf_prefix cf) (routes_of (cf_setup cf)))
           <$> cfg_controllers config)
     ++ omap (route_of (controllerHeap s))
          (first_occurrences (concat (map tree_controllers (cfg_imports config)))))%list.
Proof.
  intros Hdef Hold.
  destruct (defineModule_steps functions _ _ _ _ _ Hdef)
    as (w1 & _ & Hctl & _ & Himp & _).
  apply instantiateControllers_instances in Hctl as [Hcs Hheap]. cbn in Hcs, Hheap.
  rewrite createApp_entries. f_equal.
  rewrite collectControllers_fold, set_add_all_first, app_nil_l.
  rewrite filter_all by (intros y _; apply not_elem_of_nil).
  destruct m as [cs imports ex ps k]. cbn in Hcs, Himp. subst cs imports.
  cbn [tree_controllers m_controllers m_imports].
  rewrite first_occurrences_app, first_occurrences_NoDup by apply NoDup_seq.
  rewrite (filter_all (λ y, y ∉ seq _ _)).
  2:{ intros y Hy Hin. apply elem_of_first_occurrences, Hold in Hy.
      apply elem_of_seq in Hin. lia. }
  rewrite omap_app. f_equal.
  - rewrite Hheap.
    pose proof (omap_route_of_new (controllerHeap s) (cfg_controllers config) [])
      as Hnew.
    by rewrite app_nil_r in Hnew.
  - apply omap_ext_in. intros y Hy. apply elem_of_first_occurrences, Hold in Hy.
    unfold route_of. by rewrite Hheap, lookup_app_l.
Qed.

(** ** [defineController] *)

Lemma lookup_new_root (w : World) (t : Token) :
  lookupProvider (newContainer None None w).2 (length (heap w)) t = None.
Proof.
  rewrite lookup_newContainer_root. apply eq_None_not_Some. intros [x Hx].
  apply lookup_Some_valid in Hx. lia.
Qed.

(** X13. [defineController] runs the setup callback at once, on a new
    container that has no provider: a setup that calls [deps.get] on a
    token that is not a class constructor (after any calls on the route
    builder) makes [defineController] itself throw the missing-provider
    error, and no controller comes out of it. *)
Theorem defineController_runs_setup_at_once (fuel : nat) (prefix' : string)
    (before : list SetupOp) (token : TokenArg) (after : list SetupOp) (s : Store) :
  (∀ tok, deps_get tok ∉ before) →
  isConstructorToken (actualToken token) = false →
  defineController functions (S fuel) prefix' (before ++ deps_get token :: after) s
  = Some (Throw (missing_provider_message functions [] (actualToken token)),
          {| di := (newContainer None None (di s)).2;
             controllerHeap := controllerHeap s |}).
Proof.
  intros Hpure Hk. unfold defineController. cbn [newContainer].
  unfold controllerFactory. cbn [cf_setup di controllerHeap].
  set (w0 := {| heap := (heap (di s) ++ [blank None (default false None)])%list;
                calls := calls (di s); console := console (di s) |}).
  assert (Hw0 : w0 = (newContainer None None (di s)).2) by done.
  assert (Hrun : ∀ router,
    runSetup functions (S fuel) (length (heap (di s)))
      (before ++ deps_get token :: after) router w0
    = Some (Throw (missing_provider_message functions [] (actualToken token)), w0)).
  { clear -Hpure Hk Hw0. induction before as [|[path hs|mt path hs|t] before IH];
      intros router.
    - rewrite app_nil_l. cbn [runSetup]. unfold get.
      by rewrite resolve_unfold, Hw0, lookup_new_root, Hk.
    - rewrite <-app_comm_cons. cbn [runSetup]. apply IH.
      intros tok Hin. apply (Hpure tok). by right.
    - rewrite <-app_comm_cons. cbn [runSetup]. apply IH.
      intros tok Hin. apply (Hpure tok). by right.
    - destruct (Hpure t). left. }
  by rewrite Hrun.
Qed.

(** X14. A setup callback that resolves nothing: [defineController]
    returns; its default instance has the given prefix and the routes the
    setup registers, in order; every instance that the factory makes later,
    for whatever container, has the same prefix and the same routes, and
    making it leaves the containers alone.  Of the store, [defineController]
    changes only this: one empty container and one controller object more. *)
Theorem defineController_default_instance (fuel : nat) (prefix' : string)
    (setup : list SetupOp) (s : Store) :
  (∀ tok, deps_get tok ∉ setup) →
  ∃ ctl s1,
    defineController functions fuel prefix' setup s = Some (Normal ctl, s1)
    ∧ ctl_prefix ctl = prefix'
    ∧ ctl_app ctl = {| hono_options := None; entries := routes_of setup |}
    ∧ di s1 = (newContainer None None (di s)).2
    ∧ controllerHeap s1 = (controllerHeap s ++ [instance_of (ctl_factory ctl)])%list
    ∧ ∀ fuel' container s2,
        controllerFactory functions fuel' (ctl_factory ctl) container s2
        = Some (Normal (length (controllerHeap s2)),
                {| di := di s2;
                   controllerHeap :=
                     (controllerHeap s2
                      ++ [{| prefix := ctl_prefix ctl; app := ctl_app ctl |}])%list |}).
Proof.
  intros Hpure. unfold defineController. cbn [newContainer].
  unfold controllerFactory. cbn [cf_setup cf_prefix di controllerHeap].
  rewrite runSetup_routes_only by done. cbn [newHono hono_options entries app].
  eexists _, _. split; [reflexivity|]. unfold controllerAt. cbn [controllerHeap].
  rewrite lookup_app_r, Nat.sub_diag by lia. cbn.
  split; [done|]. split; [done|]. split; [done|]. split; [done|].
  intros fuel' container s2. by rewrite runSetup_routes_only by done.
Qed.

(** ** The testing module *)

Lemma defineModule_container_valid (fuel : nat) (config : ModuleConfig) (s : Store)
    (m : ModuleDefinition) (s' : Store) :
  defineModule fuel config s = Some (Normal m, s') →
  m_container m = length (heap (di s))
  ∧ length (heap (di s)) < length (heap (di s')).
Proof.
  intros Hdef.
  destruct (defineModule_steps functions _ _ _ _ _ Hdef) as (_ & _ & _ & HM & _).
  split; [done|].
  apply (defineModule_inv functions (λ w, length (heap (di s)) < length (heap w))
           fuel config s m s'); try done.
  - intros c e w r w' _ Hw Hget. apply get_Frame in Hget.
    by rewrite (fr_length _ _ _ _ _ Hget).
  - intros c e w v _ Hw. unfold registerValue. by rewrite length_heap_register.
  - intros q w _ Hw. by rewrite length_heap_register.
  - intros t w r w' Hw Hget. apply get_Frame in Hget.
    by rewrite (fr_length _ _ _ _ _ Hget).
  - apply newContainer_valid.
Qed.

(** X15. [override] on a testing module and then [get]: the mock is
    returned, whatever the module provided or imported for the token and
    whether or not it was instantiated.  The override stays in the module's
    own container: every container created before (those of the imported
    modules among them) finds the providers and holds the instances it
    did. *)
Theorem testing_override_then_get (fuel : nat) (config : ModuleConfig) (s : Store)
    (tm : TestingModule) (s1 : Store) (token : TokenArg) (value : Value) :
  wf_parents (di s) →
  createTestingModule functions fuel config s = Some (Normal tm, s1) →
  (∀ fuel',
     tm_get functions (S fuel') tm token (tm_override functions tm token value (di s1))
     = Some (Normal value, tm_override functions tm token value (di s1)))
  ∧ ∀ c t, c < length (heap (di s)) →
      lookupProvider (tm_override functions tm token value (di s1)) c t
      = lookupProvider (di s1) c t
      ∧ instances (cont (tm_override functions tm token value (di s1)) c)
        = instances (cont (di s1) c).
Proof.
  intros Hwf. unfold createTestingModule.
  destruct (defineModule fuel config s) as [[[m|e] s2]|] eqn:Hdef; [|done..].
  intros [= <- <-]. cbn [tm_module].
  destruct (defineModule_container_valid _ _ _ _ _ Hdef) as [HM Hlt].
  unfold tm_get, tm_override. cbn [tm_module]. rewrite HM.
  split.
  - intros fuel'. by apply get_registered_value.
  - intros c t Hc. unfold registerValue. split.
    + apply lookup_register_below; [|done].
      by eapply defineModule_wf_parents.
    + rewrite cont_register, decide_False; [done|lia].
Qed.

End MoreModules.

(** * Injectables ([define-injectable.ts]) *)

(** [Injectable]: the symbol token, the name, the dependencies as given
    (tokens or injectables), the factory, the lifetime, and the provider
    to register. *)
Unset Elimination Schemes.
Inductive Injectable :=
  | mkInjectable (token : Token) (name : string) (deps : list InjectableToken)
      (factory : nat) (lifetime : Lifetime) (provider : Provider)
with InjectableToken :=
  | DepToken (t : Token)
  | DepInjectable (i : Injectable).
Set Elimination Schemes.

Definition i_token (i : Injectable) : Token :=
  match i with mkInjectable token _ _ _ _ _ => token end.
Definition i_name (i : Injectable) : string :=
  match i with mkInjectable _ name _ _ _ _ => name end.
Definition i_deps (i : Injectable) : list InjectableToken :=
  match i with mkInjectable _ _ deps _ _ _ => deps end.
Definition i_factory (i : Injectable) : nat :=
  match i with mkInjectable _ _ _ factory _ _ => factory end.
Definition i_lifetime (i : Injectable) : Lifetime :=
  match i with mkInjectable _ _ _ _ lifetime _ => lifetime end.
Definition i_provider (i : Injectable) : Provider :=
  match i with mkInjectable _ _ _ _ _ provider => provider end.

(** [InjectableConfig] *)
Record InjectableConfig := {
  ic_name : string;
  ic_deps : option (list InjectableToken);
  ic_factory : nat;
  ic_lifetime : option Lifetime;
}.

(** The first argument of [defineInjectable]: a function, an array or a
    configuration object; and the second, if any: a function or an array. *)
Inductive InjectableArg :=
  | ArgFactory (factory : nat)
  | ArgDeps (deps : list InjectableToken)
  | ArgConfig (config : InjectableConfig).

Inductive InjectableArg2 :=
  | Arg2Factory (factory : nat)
  | Arg2Deps (deps : list InjectableToken).

(** [isInjectable(dep) ? dep.token : dep]: the test holds exactly of the
    injectables, whose token is a symbol by their type. *)
Definition extractDep (dep : InjectableToken) : Token :=
  match dep with
  | DepInjectable i => i_token i
  | DepToken t => t
  end.

(** An injectable where the container expects a token. *)
Definition as_token (i : Injectable) : TokenArg :=
  ArgInjectable {| inj_token := i_token i; inj_provider := i_provider i |}.

Section Injectables.

Variable functions : nat → JsFunction.

(** [defineInjectable(factoryOrDepsOrConfig, maybeFactoryOrDeps)].  The
    state is the number of symbols created so far; [Symbol(name)] is the
    next one, with [name] as its description. *)
Definition defineInjectable (factoryOrDepsOrConfig : InjectableArg)
    (maybeFactoryOrDeps : option InjectableArg2) (symbols : nat)
  : Completion Injectable * nat :=
  let parsed : Completion (string * list InjectableToken * nat * Lifetime) :=
    match factoryOrDepsOrConfig with
    | ArgFactory factory =>
        let deps :=
          match maybeFactoryOrDeps with
          | Some (Arg2Deps deps) => deps
          | _ => []
          end in
        Normal (or_else (fn_name (functions factory)) "AnonymousInjectable",
                deps, factory, Singleton)
    | ArgDeps deps =>
        match maybeFactoryOrDeps with
        | Some (Arg2Factory factory) =>
            Normal (or_else (fn_name (functions factory)) "AnonymousInjectable",
                    deps, factory, Singleton)
        | _ => Throw "Factory function is required when providing dependencies"
        end
    | ArgConfig config =>
        Normal (ic_name config, default [] (ic_deps config), ic_factory config,
                default Singleton (ic_lifetime config))
    end in
  match parsed with
  | Throw e => (Throw e, symbols)
  | Normal (name, deps, factory, lifetime) =>
      let token := TSymbol symbols (Some name) in
      let extractedDeps := extractDep <$> deps in
      (Normal (mkInjectable token name deps factory lifetime
                 {| provide := token; lifetime := Some lifetime;
                    body := UseFactory factory (Some extractedDeps) |}),
       S symbols)
  end.

#[local] Abbreviation register := (register functions).
#[local] Abbreviation resolve := (resolve functions).
#[local] Abbreviation get := (get functions).
#[local] Abbreviation declaredDeps := (declaredDeps functions).

Lemma defineInjectable_result (a : InjectableArg) (b : option InjectableArg2)
    (symbols : nat) (i : Injectable) (symbols' : nat) :
  defineInjectable a b symbols = (Normal i, symbols') →
  symbols' = S symbols
  ∧ i_token i = TSymbol symbols (Some (i_name i))
  ∧ i_provider i
    = {| provide := i_token i; lifetime := Some (i_lifetime i);
         body := UseFactory (i_factory i) (Some (extractDep <$> i_deps i)) |}.
Proof.
  unfold defineInjectable.
  destruct a as [f|deps|config]; [|destruct b as [[f|deps']|]|];
    intros [= <- <-] || intros [=]; done.
Qed.

(** X16. Every injectable gets a token of its own: the token is a new
    symbol, so two injectables, defined from whatever arguments (the same
    factory and the same name included), have different tokens, and their
    providers can be registered in one container without one replacing the
    other. *)
Theorem injectables_have_tokens_of_their_own (a1 a2 : InjectableArg)
    (b1 b2 : option InjectableArg2) (n n1 m m2 : nat) (i1 i2 : Injectable) :
  defineInjectable a1 b1 n = (Normal i1, n1) →
  n1 ≤ m →
  defineInjectable a2 b2 m = (Normal i2, m2) →
  i_token i1 ≠ i_token i2
  ∧ ∀ c w, c < length (heap w) →
      lookupProvider (register c (i_provider i2) (register c (i_provider i1) w)) c
        (i_token i1) = Some (i_provider i1, c)
      ∧ lookupProvider (register c (i_provider i2) (register c (i_provider i1) w)) c
          (i_token i2) = Some (i_provider i2, c).
Proof.
  intros H1 Hle H2.
  apply defineInjectable_result in H1 as (-> & Ht1 & Hp1).
  apply defineInjectable_result in H2 as (-> & Ht2 & Hp2).
  assert (Hne : i_token i1 ≠ i_token i2).
  { rewrite Ht1, Ht2. intros [= ? _]. lia. }
  split; [done|]. intros c w Hc.
  assert (Hk1 : provide (i_provider i1) = i_token i1) by (by rewrite Hp1).
  assert (Hk2 : provide (i_provider i2) = i_token i2) by (by rewrite Hp2).
  split.
  - rewrite lookup_register_ne by (by rewrite Hk2).
    rewrite <-Hk1. by apply lookup_register_eq.
  - rewrite <-Hk2. apply lookup_register_eq. by rewrite length_heap_register.
Qed.

Lemma settled_as_register (c : nat) (p : Provider) (w : World) (d : Token) (v : Value) :
  keyed w → d ≠ provide p →
  settled_as w c d v → settled_as (register c p w) c d v.
Proof.
  intros Hk Hne (q & o & Hl & Hv). exists q, o.
  split; [by rewrite lookup_register_ne|].
  destruct Hv as [Hb|[Hnv Hc]]; [by left|right]. split; [done|].
  unfold cached in *. destruct (lifetime_of q); [|done].
  rewrite instances_register_ne; [done|].
  assert (provide q = d) by eauto using keyed_lookup. intros [= _ ?]. congruence.
Qed.

Lemma Forall2_settled_as_register (c : nat) (p : Provider) (w : World)
    (ds : list Token) (vs : list Value) :
  keyed w → provide p ∉ ds →
  Forall2 (settled_as w c) ds vs → Forall2 (settled_as (register c p w) c) ds vs.
Proof.
  intros Hk Hn H. induction H as [|d v ds vs Hd _ IH]; constructor.
  - apply settled_as_register; [done| |done]. intros ->. apply Hn. left.
  - apply IH. intros Hin. apply Hn. by right.
Qed.

(** X17. An injectable, registered and resolved: when the tokens of its
    dependencies (an injectable standing for its token) are values or
    cached singletons of the container, and the factory declares no
    parameters or as many as there are dependencies, registering the
    injectable's provider and asking the container for the injectable
    calls the factory once, on the instances of the dependencies in the
    order they were given to [defineInjectable], and returns what the factory
    returns. *)
Theorem injectable_resolves_with_its_dependencies (fuel : nat) (a : InjectableArg)
    (b : option InjectableArg2) (n n' : nat) (i : Injectable) (c : nat) (w : World)
    (vs : list Value) :
  defineInjectable a b n = (Normal i, n') →
  keyed w → c < length (heap w) →
  Forall2 (settled_as w c) (extractDep <$> i_deps i) vs →
  (i_token i ∉ extractDep <$> i_deps i) →
  fn_length (functions (i_factory i)) = 0
  ∨ fn_length (functions (i_factory i)) = length vs →
  ∃ w',
    get (S (S fuel)) c (as_token i) (register c (i_provider i) w)
    = Some (match fn_body (functions (i_factory i)) (length (calls w)) vs with
            | Normal v => Normal v
            | Throw e =>
                Throw (factory_failed_message functions (i_token i) e
                         (extractDep <$> i_deps i))
            end, w')
    ∧ calls w'
      = (calls w
         ++ [entry (i_token i) (i_factory i) vs
               (fn_body (functions (i_factory i)) (length (calls w)) vs)])%list.
Proof.
  intros Hdef Hk Hc Hdeps Hself Hcount.
  apply defineInjectable_result in Hdef as (_ & _ & Hp).
  set (p := i_provider i) in *.
  assert (Hpt : provide p = i_token i) by (by rewrite Hp).
  assert (Hd : declaredDeps p = extractDep <$> i_deps i)
    by (unfold declaredDeps; by rewrite Hp).
  assert (Hv : is_value p = false) by (unfold is_value; by rewrite Hp).
  assert (Hcallee : callee p = i_factory i) by (unfold callee; by rewrite Hp).
  assert (Hpend : pending (register c p w) c (i_token i) p c).
  { rewrite <-Hpt. by apply pending_registered. }
  destruct (get_with_settled_dependencies functions fuel c (i_token i)
              (register c p w) p c vs Hpend) as (w' & E & Hcalls).
  - rewrite Hd. apply Forall2_settled_as_register; [done| |done]. by rewrite Hpt.
  - intros f deps Hb. rewrite Hp in Hb. injection Hb as <- _. done.
  - exists w'. unfold get. cbn [as_token actualToken inj_token].
    rewrite E, Hcallee, calls_register.
    split; [|by rewrite Hcalls, Hcallee, calls_register].
    destruct (fn_body (functions (i_factory i)) (length (calls w)) vs) as [v|e].
    + done.
    + unfold failed_message. rewrite Hd, Hpt. by rewrite Hp.
Qed.

End Injectables.

(** * Test fixtures ([createFactory]) *)

(** A plain object: its own enumerable properties. *)
Abbreviation JsObject := (gmap string Value).

(** [typeof v === "number"] *)
Definition is_number (v : Value) : bool :=
  match v with
  | VNumber _ => true
  | _ => false
  end.

(** [sequence++] on the counter, a number that holds a natural: below
    [2^53] the sum is exact; at [2^53] adding one is absorbed by rounding. *)
Definition increment (sequence : Z) : Z :=
  if decide (sequence < 2 ^ 53)%Z then (sequence + 1)%Z else sequence.

(** [build(overrides)]: [{ ...defaults, ...sequenceData, ...overrides }],
    a later spread overwriting an earlier one. *)
Definition build (defaults : JsObject) (overrides : option JsObject) (sequence : Z)
  : JsObject * Z :=
  let sequence1 := increment sequence in
  let sequenceData : JsObject :=
    (λ _, VNumber sequence1) <$> filter (λ kv, is_number kv.2 = true) defaults in
  (default ∅ overrides ∪ (sequenceData ∪ defaults), sequence1).

(** The calls of the mapping function of [Array.from], one per index. *)
Fixpoint build_times (n : nat) (defaults : JsObject) (overrides : option JsObject)
    (sequence : Z) : list JsObject * Z :=
  match n with
  | 0 => ([], sequence)
  | S n' =>
      let (x, sequence1) := build defaults overrides sequence in
      let (xs, sequence2) := build_times n' defaults overrides sequence1 in
      (x :: xs, sequence2)
  end.

(** [ToLength], on an integer. *)
Definition ToLength (n : Z) : Z := Z.min (Z.max n 0) (2 ^ 53 - 1).

(** [buildMany(count, overrides)]:
    [Array.from({ length: count }, () => this.build(overrides))], for an
    integer [count].  The array is created first, which throws a
    [RangeError] (the message is the engine's) above [2^32 - 1]. *)
Definition buildMany (defaults : JsObject) (count : Z) (overrides : option JsObject)
    (sequence : Z) : Completion (list JsObject) * Z :=
  let len := ToLength count in
  if decide (2 ^ 32 - 1 < len)%Z then (Throw "Invalid array length", sequence)
  else
    let (xs, sequence1) := build_times (Z.to_nat len) defaults overrides sequence in
    (Normal xs, sequence1).

(** [reset()] *)
Definition reset (sequence : Z) : Z := 0%Z.

(** The fixture made when the counter has reached [n]. *)
Definition fixture (defaults : JsObject) (overrides : option JsObject) (n : Z)
  : JsObject :=
  default ∅ overrides
  ∪ (((λ _, VNumber n) <$> filter (λ kv, is_number kv.2 = true) defaults) ∪ defaults).

Lemma fixture_lookup (defaults : JsObject) (overrides : option JsObject) (n : Z)
    (k : string) :
  fixture defaults overrides n !! k
  = match default ∅ overrides !! k with
    | Some v => Some v
    | None =>
        match defaults !! k with
        | Some (VNumber _) => Some (VNumber n)
        | other => other
        end
    end.
Proof.
  unfold fixture. rewrite !lookup_union, lookup_fmap, map_lookup_filter.
  destruct (default ∅ overrides !! k) as [v|];
    destruct (defaults !! k) as [[]|]; cbn; (done || by rewrite ?option_guard_True).
Qed.

Lemma build_times_spec (n : nat) (defaults : JsObject) (overrides : option JsObject)
    (sequence : Z) :
  (sequence + Z.of_nat n ≤ 2 ^ 53)%Z →
  build_times n defaults overrides sequence
  = ((λ i, fixture defaults overrides (sequence + 1 + Z.of_nat i)) <$> seq 0 n,
     (sequence + Z.of_nat n)%Z).
Proof.
  revert sequence. induction n as [|n IH]; intros sequence Hle; cbn [build_times].
  - cbn. f_equal. lia.
  - unfold build. unfold increment. rewrite decide_True by lia.
    rewrite IH by lia. cbn [seq fmap list_fmap]. f_equal; [|lia].
    f_equal.
    + unfold fixture. replace (sequence + 1 + Z.of_nat 0)%Z with (sequence + 1)%Z by lia.
      done.
    + rewrite <-fmap_S_seq, <-list_fmap_compose. apply list_fmap_ext.
      intros i x _. cbn. f_equal. lia.
Qed.

(** X18. [buildMany(count)] makes [count] fixtures (none for a negative
    count), the counter going up by one for each: in the [i]-th, a property
    given in the overrides has the overriding value; any other property
    whose default is a number holds the counter's value, that is the value
    before the call plus [i + 1]; and every other property has its default.
    This as long as the counter stays within [2^53] and the count within
    the length of an array. *)
Theorem buildMany_counts_up (defaults : JsObject) (count : Z)
    (overrides : option JsObject) (sequence : Z) :
  (count ≤ 2 ^ 32 - 1)%Z →
  (sequence + Z.max count 0 ≤ 2 ^ 53)%Z →
  buildMany defaults count overrides sequence
  = (Normal ((λ i, fixture defaults overrides (sequence + 1 + Z.of_nat i))
               <$> seq 0 (Z.to_nat count)),
     (sequence + Z.max count 0)%Z)
  ∧ ∀ n k,
      fixture defaults overrides n !! k
      = match default ∅ overrides !! k with
        | Some v => Some v
        | None =>
            match defaults !! k with
            | Some (VNumber _) => Some (VNumber n)
            | other => other
            end
        end.
Proof.
  intros Hcount Hseq. split; [|apply fixture_lookup].
  unfold buildMany, ToLength.
  assert (Hlen : Z.min (Z.max count 0) (2 ^ 53 - 1) = Z.max count 0) by lia.
  rewrite Hlen, decide_False by lia.
  replace (Z.to_nat (Z.max count 0)) with (Z.to_nat count) by lia.
  rewrite build_times_spec by lia. do 2 f_equal. lia.
Qed.

Section Demand.

Variable functions : nat → JsFunction.

#[local] Abbreviation register := (register functions).
#[local] Abbreviation resolve := (resolve functions).
#[local] Abbreviation get := (get functions).
#[local] Abbreviation isConstructorToken := (isConstructorToken functions).
#[local] Abbreviation declaredDeps := (declaredDeps functions).
#[local] Abbreviation finish := (finish functions).
#[local] Abbreviation Frame := (Frame functions).

(** ** Resolution on demand *)

(** The dependencies that resolving [t] from [this] asks for: those its
    provider declares; for a class constructor without provider, those of
    the class that [resolve] registers. *)
Definition deps_of (w : World) (this : nat) (t : Token) : list Token :=
  match lookupProvider w this t with
  | Some (p, _) => declaredDeps p
  | None =>
      match t with
      | TFunction f =>
          if isConstructorToken t then default [] (getInjectTokens functions f) else []
      | _ => []
      end
  end.

(** [needs w this t x]: [x] is [t] or a dependency of [t], direct or not. *)
Inductive needs (w : World) (this : nat) : Token → Token → Prop :=
  | needs_self t : needs w this t t
  | needs_dependency t d x :
      d ∈ deps_of w this t → needs w this d x → needs w this t x.

Definition same_deps (this : nat) (w w' : World) : Prop :=
  ∀ t, deps_of w' this t = deps_of w this t.

Lemma needs_same_deps (this : nat) (w w' : World) (t x : Token) :
  same_deps this w w' → needs w' this t x → needs w this t x.
Proof.
  intros Hs. induction 1 as [t|t d x Hd _ IH]; [constructor|].
  econstructor; [|exact IH]. by rewrite <-Hs.
Qed.

Lemma deps_of_same_lookup (this : nat) (w w' : World) :
  (∀ t, lookupProvider w' this t = lookupProvider w this t) → same_deps this w w'.
Proof. intros H t. unfold deps_of. by rewrite H. Qed.

Lemma same_deps_register (this f : nat) (w : World) :
  isConstructorToken (TFunction f) = true →
  lookupProvider w this (TFunction f) = None →
  same_deps this w (register this (auto_provider f) w).
Proof.
  intros Hk Hl t. unfold deps_of.
  destruct (decide (t = TFunction f)) as [->|Hne].
  - rewrite Hl, Hk. destruct (decide (this < length (heap w))) as [Hlt|Hge].
    + pose proof (lookup_register_eq functions this (auto_provider f) w Hlt) as E.
      cbn [provide auto_provider] in E. by rewrite E.
    + assert (E : lookupProvider (register this (auto_provider f) w) this (TFunction f)
                  = lookupProvider w this (TFunction f)).
      { apply lookup_from_ext; intros c; rewrite cont_register, decide_False; tauto. }
      by rewrite E, Hl.
  - by rewrite lookup_register_ne.
Qed.

Lemma same_deps_resolve (fuel this : nat) (t : Token) (R : list Token) (w : World)
    r R' w' :
  resolve fuel this t R w = Some (r, R', w') → same_deps this w w'.
Proof.
  apply (resolve_steps functions this (same_deps this)).
  - by intros w0 t0.
  - intros w1 w2 w3 H1 H2 t0. by rewrite H2.
  - intros f w0. apply same_deps_register.
  - intros p args w0 _. apply deps_of_same_lookup. intros t0.
    apply lookup_from_ext; intros c; by rewrite cont_finish.
  - intros o p v w0. apply deps_of_same_lookup. intros t0. apply lookup_cache.
Qed.

Lemma finish_calls_for (p : Provider) (args : list Value) (w : World) :
  ∃ delta, calls (finish p args w).2 = (calls w ++ delta)%list
           ∧ Forall (λ i, inv_for i = provide p) delta.
Proof.
  unfold finish, invoke. destruct (body p) as [v|k deps|f deps].
  - exists []. by rewrite app_nil_r.
  - destruct (fn_body (functions k) _ _); eexists [_]; (split; [done|]);
      by repeat constructor.
  - destruct (_ && _); [exists []; by rewrite app_nil_r|].
    destruct (fn_body (functions f) _ _); eexists [_]; (split; [done|]);
      by repeat constructor.
Qed.

Lemma resolveDependencies_on_demand rec (this : nat) (ds R : list Token) (w : World)
    r R' w' :
  (∀ t R w r R' w', keyed w → rec this t R w = Some (r, R', w') →
     keyed w' ∧ same_deps this w w'
     ∧ ∃ delta, calls w' = (calls w ++ delta)%list
                ∧ Forall (λ i, needs w this t (inv_for i)) delta) →
  keyed w →
  resolveDependencies rec this ds R w = Some (r, R', w') →
  keyed w' ∧ same_deps this w w'
  ∧ ∃ delta, calls w' = (calls w ++ delta)%list
             ∧ Forall (λ i, ∃ d, d ∈ ds ∧ needs w this d (inv_for i)) delta.
Proof.
  intros Hrec. revert R w r R' w'.
  induction ds as [|d ds IH]; intros R w r R' w' Hk; cbn [resolveDependencies].
  - intros [= <- <- <-]. split; [done|]. split; [by intros t|].
    exists []. by rewrite app_nil_r.
  - destruct (rec this d R w) as [[[[v|e] R1] w1]|] eqn:E; [| |done].
    + destruct (Hrec _ _ _ _ _ _ Hk E) as (Hk1 & Hs1 & delta1 & Hc1 & Hf1).
      destruct (resolveDependencies rec this ds R1 w1) as [[[[vs|e] R2] w2]|] eqn:E2;
        [| |done]; intros [= <- <- <-];
        destruct (IH _ _ _ _ _ Hk1 E2) as (Hk2 & Hs2 & delta2 & Hc2 & Hf2);
        (split; [done|]); (split; [intros t; by rewrite Hs2|]);
        exists (delta1 ++ delta2)%list; (split; [by rewrite Hc2, Hc1, app_assoc|]);
        apply Forall_app; (split;
          [eapply Forall_impl; [exact Hf1|]; intros i Hi; exists d; split; [left|done]
          |eapply Forall_impl; [exact Hf2|]; intros i (d' & Hd' & Hi); exists d';
           split; [by right|by eapply needs_same_deps]]).
    + destruct (Hrec _ _ _ _ _ _ Hk E) as (Hk1 & Hs1 & delta1 & Hc1 & Hf1).
      intros [= <- <- <-]. split; [done|]. split; [done|].
      exists delta1. split; [done|].
      eapply Forall_impl; [exact Hf1|]. intros i Hi. exists d. split; [left|done].
Qed.

Lemma resolve_on_demand (fuel this : nat) (t : Token) (R : list Token) (w : World)
    r R' w' :
  keyed w → resolve fuel this t R w = Some (r, R', w') →
  keyed w' ∧ same_deps this w w'
  ∧ ∃ delta, calls w' = (calls w ++ delta)%list
             ∧ Forall (λ i, needs w this t (inv_for i)) delta.
Proof.
  revert t R w r R' w'. induction fuel as [|fuel IH]; intros t R w r R' w' Hk E;
    [done|].
  pose proof (same_deps_resolve _ _ _ _ _ _ _ _ E) as Hs.
  assert (Hk' : keyed w').
  { apply resolve_framed in E as [_ F]. by eapply fr_keyed. }
  split; [done|]. split; [done|].
  rewrite resolve_unfold in E.
  assert (Hnil : ∃ delta, calls w = (calls w ++ delta)%list
                          ∧ Forall (λ i, needs w this t (inv_for i)) delta)
    by (exists []; by rewrite app_nil_r).
  destruct (lookupProvider w this t) as [[p o]|] eqn:Hl.
  - assert (Hpt : provide p = t) by eauto using keyed_lookup.
    destruct (is_value p) eqn:Hv.
    { destruct (body p); [|done..]. by injection E as <- <- <-. }
    destruct (cached w o p); [by injection E as <- <- <-|].
    destruct (set_has (provide p) R); [by injection E as <- <- <-|].
    rewrite instantiate_eq in E.
    destruct (resolveDependencies (resolve fuel) this (declaredDeps p) _ w)
      as [[[[args|e] R1] w1]|] eqn:Ed; [| |done].
    + destruct (resolveDependencies_on_demand _ _ _ _ _ _ _ _ IH Hk Ed)
        as (_ & _ & delta1 & Hc1 & Hf1).
      destruct (finish_calls_for p args w1) as (delta2 & Hc2 & Hf2).
      assert (Hall : calls (finish p args w1).2 = (calls w ++ delta1 ++ delta2)%list
                     ∧ Forall (λ i, needs w this t (inv_for i)) (delta1 ++ delta2)).
      { split; [by rewrite Hc2, Hc1, app_assoc|]. apply Forall_app. split.
        - eapply Forall_impl; [exact Hf1|]. intros i (d & Hd & Hi).
          econstructor; [|exact Hi]. unfold deps_of. by rewrite Hl.
        - eapply Forall_impl; [exact Hf2|]. intros i ->. rewrite Hpt. constructor. }
      destruct Hall as [Hc Hf]. exists (delta1 ++ delta2)%list.
      destruct ((finish p args w1).1); injection E as <- <- <-;
        (split; [|done]); by rewrite ?calls_cache.
    + destruct (resolveDependencies_on_demand _ _ _ _ _ _ _ _ IH Hk Ed)
        as (_ & _ & delta1 & Hc1 & Hf1).
      injection E as <- <- <-. exists delta1. split; [done|].
      eapply Forall_impl; [exact Hf1|]. intros i (d & Hd & Hi).
      econstructor; [|exact Hi]. unfold deps_of. by rewrite Hl.
  - destruct (isConstructorToken t) eqn:Hc; [|by injection E as <- <- <-].
    destruct t as [| |f]; [done..|].
    destruct (IH _ _ _ _ _ _ (keyed_register functions this (auto_provider f) w Hk) E)
      as (_ & _ & delta & Hcalls & Hf).
    exists delta. rewrite calls_register in Hcalls. split; [done|].
    eapply Forall_impl; [exact Hf|]. intros i Hi.
    eapply needs_same_deps; [|exact Hi]. by apply same_deps_register.
Qed.

(** X19. Resolution is on demand: the factories and constructors that a
    [get] for a token calls are those of the token itself and of its
    dependencies, direct or not; no other provider of the container is
    instantiated, whether the [get] returns or throws. *)
Theorem get_instantiates_only_what_is_needed (fuel this : nat) (token : TokenArg)
    (w : World) r w' :
  keyed w →
  get fuel this token w = Some (r, w') →
  ∃ delta, calls w' = (calls w ++ delta)%list
           ∧ Forall (λ i, needs w this (actualToken token) (inv_for i)) delta.
Proof.
  intros Hk. unfold get.
  destruct (resolve fuel this _ [] w) as [[[r0 R1] w1]|] eqn:E; [|done].
  intros [= <- <-]. by destruct (resolve_on_demand _ _ _ _ _ _ _ _ Hk E) as (_ & _ & H).
Qed.

End Demand.

Section ModulesKeep.

Variable functions : nat → JsFunction.

(** X20. Defining a module takes nothing away from the containers that
    exist: the store gets one container more, the module's, which has no
    parent; every container from before has its parent, its providers and
    the instances it held for them, and finds, for every token, the
    provider it found before.  Importing a module cannot break it. *)
Theorem defineModule_keeps_existing_containers (fuel : nat) (config : ModuleConfig)
    (s : Store) (m : ModuleDefinition) (s' : Store) :
  defineModule functions fuel config s = Some (Normal m, s') →
  wf_parents (di s) →
  length (heap (di s')) = S (length (heap (di s)))
  ∧ m_container m = length (heap (di s))
  ∧ parent (cont (di s') (m_container m)) = None
  ∧ ∀ c, c < length (heap (di s)) →
      parent (cont (di s') c) = parent (cont (di s) c)
      ∧ (∀ t p, providers (cont (di s) c) !! t = Some p →
                providers (cont (di s') c) !! t = Some p)
      ∧ (∀ t p v, providers (cont (di s) c) !! t = Some p →
                  instances (cont (di s) c) !! t = Some v →
                  instances (cont (di s') c) !! t = Some v)
      ∧ (∀ t x, lookupProvider (di s) c t = Some x →
                lookupProvider (di s') c t = Some x).
Proof.
  intros Hdef Hwf.
  destruct (defineModule_steps functions _ _ _ _ _ Hdef) as (_ & _ & _ & HM & _).
  set (M := length (heap (di s))) in *.
  set (w0 := (newContainer None None (di s)).2).
  assert (HE : Ext M w0 (di s')).
  { apply (defineModule_inv functions (λ w, Ext M w0 w) fuel config s m s');
      [| | | |exact Hdef|apply Ext_refl].
    - intros c e w r w' _ Hw Hget. apply get_Frame in Hget.
      eapply Ext_trans; [exact Hw|]. by eapply Frame_Ext.
    - intros c e w v _ Hw. eapply Ext_trans; [exact Hw|]. apply register_Ext.
    - intros q w _ Hw. eapply Ext_trans; [exact Hw|]. apply register_Ext.
    - intros t w r w' Hw Hget. apply get_Frame in Hget.
      eapply Ext_trans; [exact Hw|]. by eapply Frame_Ext. }
  assert (Hwf0 : wf_parents w0) by (by apply wf_parents_newContainer).
  split; [|split; [done|split]].
  - rewrite (e_length _ _ _ HE). unfold w0, newContainer. cbn.
    rewrite length_app. cbn. lia.
  - rewrite HM, (e_parent _ _ _ HE). unfold w0.
    by rewrite cont_newContainer, decide_True.
  - intros c Hc. assert (Hne : c ≠ M) by lia.
    assert (Hc0 : cont w0 c = cont (di s) c) by apply cont_newContainer_root.
    split; [by rewrite (e_parent _ _ _ HE), Hc0|]. split; [|split].
    + intros t p Hp. apply (e_other _ _ _ HE); [done|]. by rewrite Hc0.
    + intros t p v Hp Hv. eapply (e_inst _ _ _ HE); [done| |]; by rewrite Hc0.
    + intros t x Hx. apply (e_lookup _ _ _ HE); [done..|].
      unfold w0. by rewrite lookup_newContainer_root.
Qed.

(** ** A module that can be defined *)

Lemma runSetup_healthy (U : list Token) (rank : Token → nat) (fuel container : nat)
    (setup : list SetupOp) (router : Hono) (w : World) :
  healthy functions container U rank w →
  (∀ token, deps_get token ∈ setup →
            actualToken token ∈ U ∧ rank (actualToken token) < fuel) →
  ∃ router' w', runSetup functions fuel container setup router w
                = Some (Normal router', w')
                ∧ healthy functions container U rank w'.
Proof.
  revert router w. induction setup as [|[path hs|mt path hs|t] setup IH];
    intros router w Hw Hin; cbn [runSetup].
  - eauto.
  - apply IH; [done|]. intros token Ht. apply Hin. by right.
  - apply IH; [done|]. intros token Ht. apply Hin. by right.
  - destruct (Hin t) as [HtU Hlt]; [left|].
    destruct (get_healthy functions container U rank fuel t w Hw HtU Hlt)
      as (v & w1 & -> & Hw1).
    apply IH; [done|]. intros token Ht. apply Hin. by right.
Qed.

Lemma instantiateControllers_healthy (U : list Token) (rank : Token → nat)
    (fuel container : nat) (cfs : list ControllerFactory) (s : Store) :
  healthy functions container U rank (di s) →
  (∀ cf token, cf ∈ cfs → deps_get token ∈ cf_setup cf →
               actualToken token ∈ U ∧ rank (actualToken token) < fuel) →
  ∃ cs s', instantiateControllers functions fuel container cfs s = Some (Normal cs, s').
Proof.
  revert s. induction cfs as [|cf cfs IH]; intros s Hs Hin; cbn [instantiateControllers].
  - eauto.
  - unfold controllerFactory.
    destruct (runSetup_healthy U rank fuel container (cf_setup cf) (newHono None) (di s))
      as (router & w1 & -> & Hw1); [done|by intros token; apply Hin; left|].
    edestruct (IH {| di := w1;
                     controllerHeap := (controllerHeap s
                                        ++ [{| prefix := cf_prefix cf;
                                               app := router |}])%list |})
      as (cs & s' & ->); [done|intros cf' token Hcf'; apply Hin; by right|].
    eauto.
Qed.

(** X21. A module without imports can be defined whenever its own
    providers are sound: if, in the container as [defineModule] fills it,
    every token in use has a provider, the declared dependencies have no
    cycle, the parameter counts match and no factory or constructor throws,
    and the setup callbacks of the controllers request only tokens in use,
    then [defineModule] returns a module (given recursion depth above the
    ranks of the requested tokens). *)
Theorem defineModule_succeeds (U : list Token) (rank : Token → nat) (fuel : nat)
    (config : ModuleConfig) (s : Store) :
  cfg_imports config = [] →
  healthy functions (length (heap (di s))) U rank
    (registerMany functions (length (heap (di s))) (cfg_providers config)
       (newContainer None None (di s)).2) →
  (∀ cf token, cf ∈ cfg_controllers config → deps_get token ∈ cf_setup cf →
               actualToken token ∈ U ∧ rank (actualToken token) < fuel) →
  ∃ m s', defineModule functions fuel config s = Some (Normal m, s')
          ∧ m_container m = length (heap (di s))
          ∧ length (m_controllers m) = length (cfg_controllers config).
Proof.
  intros Himp Hw Hin. unfold defineModule. cbn [newContainer]. rewrite Himp.
  cbn [importModules].
  edestruct (instantiateControllers_healthy U rank fuel (length (heap (di s)))
               (cfg_controllers config)) as (cs & s' & E); [| exact Hin |].
  2:{ rewrite E. eexists _, s'. split; [reflexivity|]. split; [done|].
      cbn [m_controllers]. apply instantiateControllers_instances in E as [-> _].
      by rewrite length_seq. }
  exact Hw.
Qed.

End ModulesKeep.

(** * Examples *)

Module Examples.

Definition fresh (name : string) (len : nat) : JsFunction :=
  {| fn_name := name; fn_length := len; fn_prototype := false; fn_inject := None;
     fn_body := λ n _, Normal (VObject n) |}.

(** The function objects of the examples: two factories with one
    parameter, the class [Clock], a factory that throws when it is the
    first call of the program, and factories without parameters. *)
Definition functions (f : nat) : JsFunction :=
  match f with
  | 0 => fresh "makeA" 1
  | 1 => fresh "makeB" 1
  | 2 => {| fn_name := "Clock"; fn_length := 0; fn_prototype := true;
            fn_inject := None; fn_body := λ n _, Normal (VObject n) |}
  | 3 => {| fn_name := "flaky"; fn_length := 0; fn_prototype := false;
            fn_inject := None;
            fn_body := λ n _, match n with
                              | 0 => Throw "boom"
                              | _ => Normal (VObject n)
                              end |}
  | _ => fresh "make" 0
  end.

Definition A : Token := TSymbol 0 (Some "ServiceA").
Definition B : Token := TSymbol 1 (Some "ServiceB").
Definition CONFIG : Token := TString "CONFIG".
Definition Clock : Token := TFunction 2.

Definition factory (t : Token) (f : nat) (deps : list Token) (lt : option Lifetime)
  : Provider :=
  {| provide := t; lifetime := lt; body := UseFactory f (Some deps) |}.

(** One container, nothing registered. *)
Definition root : World := (newContainer None None empty_world).2.

Lemma keyed_root : keyed root.
Proof. apply keyed_newContainer, keyed_empty. Qed.

Lemma wf_parents_root : wf_parents root.
Proof. apply wf_parents_newContainer; [apply wf_parents_empty|done]. Qed.



(** *** C2 *)


(** *** C3 *)

Definition singletonA : Provider := factory A 4 [] None.
Definition transientB : Provider := factory B 4 [] (Some Transient).

Definition lifetimes : World :=
  register functions 0 transientB (register functions 0 singletonA root).

Definition lifetimes_after_A : World :=
  default lifetimes (snd <$> get functions 1 0 (ArgToken A) lifetimes).

Lemma keyed_lifetimes : keyed lifetimes.
Proof. do 2 apply keyed_register. apply keyed_root. Qed.


(** Two [get]s of the transient: two calls of the factory, two objects. *)
Example transient_twice :
  get_times functions 1 0 (ArgToken B) 2 lifetimes_after_A
  = Some ([Normal (VObject 1); Normal (VObject 2)],
          default lifetimes (snd <$> get_times functions 1 0 (ArgToken B) 2
                                       lifetimes_after_A)).
Proof. reflexivity. Qed.

(** *** C9 *)



(** *** C10 *)

Definition FLAKY : Token := TString "Flaky".
Definition flaky : Provider := factory FLAKY 3 [] None.
Definition with_flaky : World := register functions 0 flaky root.

Definition with_flaky_failed : World :=
  {| heap := heap with_flaky;
     calls := [entry FLAKY 3 [] (Throw "boom")];
     console := [] |}.

Lemma failed_instantiation_leaves_no_trace_witness :
  keyed with_flaky
  ∧ lookupProvider with_flaky 0 FLAKY = Some (flaky, 0)
  ∧ is_value flaky = false
  ∧ cached with_flaky 0 flaky = None
  ∧ resolve functions 1 0 FLAKY [] with_flaky
    = Some (Throw (failed_message functions flaky "boom"), [], with_flaky_failed)
  ∧ calls with_flaky_failed
    = (calls with_flaky ++ [] ++ [entry FLAKY (callee flaky) [] (Throw "boom")])%list
  ∧ instances (cont with_flaky_failed 0) !! FLAKY = None
  ∧ get functions 1 0 (ArgToken FLAKY) with_flaky_failed
    = match instantiateProvider functions (resolve functions 0) 0 flaky [FLAKY]
              with_flaky_failed with
      | None => None
      | Some (Normal instance, _, w2) => Some (Normal instance, cache 0 flaky instance w2)
      | Some (Throw error, _, w2) => Some (Throw error, w2)
      end.
Proof.
  assert (Hk : keyed with_flaky) by apply keyed_register, keyed_root.
  assert (Hres : resolve functions 1 0 FLAKY [] with_flaky
                 = Some (Throw (failed_message functions flaky "boom"), [],
                         with_flaky_failed)) by reflexivity.
  assert (Hcalls : calls with_flaky_failed
                   = (calls with_flaky ++ []
                      ++ [entry FLAKY (callee flaky) [] (Throw "boom")])%list)
    by reflexivity.
  pose proof (failed_instantiation_leaves_no_trace functions 0 0 FLAKY [] with_flaky
                flaky 0 _ _ _ [] [] "boom" Hk eq_refl eq_refl eq_refl Hres Hcalls)
    as (_ & _ & _ & _ & _ & Hnone & Hagain).
  split; [exact Hk|]. split; [reflexivity|]. split; [reflexivity|].
  split; [reflexivity|]. split; [exact Hres|]. split; [exact Hcalls|].
  split; [exact (Hnone eq_refl)|exact (Hagain 0)].
Defined.

(** The second attempt calls the factory again, and this time it returns. *)
Example flaky_second_attempt :
  fst <$> get functions 1 0 (ArgToken FLAKY) with_flaky_failed
  = Some (Normal (VObject 1)).
Proof. reflexivity. Qed.

(** *** C4 *)

Definition family : World := (createChild 0 (register functions 0 singletonA root)).2.

Definition family_after_child : World :=
  default family (snd <$> get functions 1 1 (ArgToken A) family).

Lemma keyed_family : keyed family.
Proof. apply keyed_newContainer, keyed_register, keyed_root. Qed.

Lemma wf_parents_family : wf_parents family.
Proof.
  apply wf_parents_newContainer; [apply wf_parents_register, wf_parents_root|].
  intros q [= <-]. rewrite length_heap_register. cbn. lia.
Qed.

Lemma child_container_shares_ancestor_singleton_witness :
  keyed family ∧ wf_parents family
  ∧ parent (cont family 1) = Some 0
  ∧ lookupProvider family 0 A = Some (singletonA, 0)
  ∧ lookupProvider family 1 A = Some (singletonA, 0)
  ∧ get functions 1 1 (ArgToken A) family = Some (Normal (VObject 0), family_after_child)
  ∧ instances (cont family_after_child 0) !! A = Some (VObject 0)
  ∧ get functions 1 0 (ArgToken A) family_after_child
    = Some (Normal (VObject 0), family_after_child).
Proof.
  assert (Hget : get functions 1 1 (ArgToken A) family
                 = Some (Normal (VObject 0), family_after_child)) by reflexivity.
  pose proof (child_container_shares_ancestor_singleton functions 1 1 0 A family
                singletonA 0 keyed_family wf_parents_family eq_refl eq_refl)
    as [Hchild _].
  destruct (Hchild eq_refl) as (Hl & _ & Hshare).
  destruct (Hshare _ _ eq_refl eq_refl Hget) as (Hi & Ho & _ & _ & Hall).
  split; [exact keyed_family|]. split; [exact wf_parents_family|].
  split; [reflexivity|]. split; [reflexivity|]. split; [exact Hl|].
  split; [exact Hget|]. split; [exact Hi|exact (Hall 0 0 Ho)].
Defined.

(** *** C1 *)











(** *** C7 *)






(** *** C5 *)

Definition SECRET : Token := TString "secret".

Definition secret : Provider :=
  {| provide := SECRET; lifetime := None; body := UseValue (VNumber 1) |}.

Definition own_secret : Provider :=
  {| provide := SECRET; lifetime := None; body := UseValue (VNumber 7) |}.

(** A module that provides a singleton, a transient and a value, and exports
    the first two. *)
Definition config_shared : ModuleConfig :=
  {| cfg_controllers := []; cfg_imports := [];
     cfg_exports := [ArgToken A; ArgToken B];
     cfg_providers := [singletonA; transientB; secret] |}.

Definition shared_module : ModuleDefinition :=
  {| m_controllers := []; m_imports := [];
     m_exports := [ArgToken A; ArgToken B];
     m_providers := [singletonA; transientB; secret]; m_container := 0 |}.

Definition shared_store : Store :=
  default empty_store (snd <$> defineModule functions 1 config_shared empty_store).

(** A module that imports it and provides a value for the token of the
    value that the other module keeps to itself. *)
Definition config_importer : ModuleConfig :=
  {| cfg_controllers := []; cfg_imports := [shared_module]; cfg_exports := [];
     cfg_providers := [own_secret] |}.

Definition importer_module : ModuleDefinition :=
  {| m_controllers := []; m_imports := [shared_module]; m_exports := [];
     m_providers := [own_secret]; m_container := 1 |}.

Definition importer_store : Store :=
  default shared_store (snd <$> defineModule functions 1 config_importer shared_store).

Lemma shared_defined :
  defineModule functions 1 config_shared empty_store
  = Some (Normal shared_module, shared_store).
Proof. vm_compute. reflexivity. Qed.

Lemma importer_defined :
  defineModule functions 1 config_importer shared_store
  = Some (Normal importer_module, importer_store).
Proof. vm_compute. reflexivity. Qed.

(** The importing module returns the transient instance made while
    importing, which the exporting container neither holds nor returns; and
    it has a provider for the token that the exporting module does not
    export. *)
Lemma import_export_claim_counterexample :
  defineModule functions 1 config_importer shared_store
  = Some (Normal importer_module, importer_store)
  ∧ shared_module ∈ m_imports importer_module
  ∧ ArgToken B ∈ m_exports shared_module
  ∧ has (di shared_store) (m_container shared_module) (ArgToken B) = true
  ∧ get functions 1 (m_container importer_module) (ArgToken B) (di importer_store)
    = Some (Normal (VObject 1), di importer_store)
  ∧ instances (cont (di importer_store) (m_container shared_module)) !! B = None
  ∧ (fst <$> get functions 1 (m_container shared_module) (ArgToken B) (di importer_store))
    = Some (Normal (VObject 2))
  ∧ secret ∈ m_providers shared_module
  ∧ (ArgToken SECRET ∉ m_exports shared_module)
  ∧ has (di importer_store) (m_container importer_module) (ArgToken SECRET) = true.
Proof.
  split; [exact importer_defined|]. split; [left|]. split; [right; left|].
  split; [vm_compute; reflexivity|]. split; [vm_compute; reflexivity|].
  split; [vm_compute; reflexivity|]. split; [vm_compute; reflexivity|].
  split; [do 2 right; left|]. split; [|vm_compute; reflexivity].
  intros H. apply elem_of_cons in H as [H|H]; [discriminate H|].
  apply list_elem_of_singleton in H. discriminate H.
Qed.

Lemma defineModule_links_imports_to_exports_witness :
  defineModule functions 1 config_importer shared_store
  = Some (Normal importer_module, importer_store)
  ∧ has (di importer_store) (m_container importer_module) (ArgToken A) = true
  ∧ (∃ v, ∀ fuel',
       get functions (S fuel') (m_container importer_module) (ArgToken A)
         (di importer_store) = Some (Normal v, di importer_store)
       ∧ get functions (S fuel') 0 (ArgToken A) (di importer_store)
         = Some (Normal v, di importer_store))
  ∧ has (di importer_store) (m_container importer_module) (ArgToken CONFIG) = false
  ∧ has (di importer_store) (m_container importer_module) (ArgToken Clock) = false.
Proof.
  pose proof (defineModule_links_imports_to_exports functions 1 config_importer
                shared_store importer_module importer_store importer_defined)
    as (Hvisible & Hshared & Hhidden).
  split; [exact importer_defined|]. split; [|split; [|split]].
  - apply (Hvisible shared_module (ArgToken A)); [left|left|vm_compute; reflexivity].
  - destruct (Hshared [] 0 (ArgToken A) [(0, ArgToken B)] singletonA 0)
      as (v & _ & _ & Hboth).
    + eapply defineModule_keyed; [exact shared_defined|apply keyed_empty].
    + eapply defineModule_wf_parents; [exact shared_defined|apply wf_parents_empty].
    + reflexivity.
    + intros H. apply list_elem_of_singleton in H. discriminate H.
    + intros H. apply list_elem_of_singleton in H. discriminate H.
    + vm_compute. reflexivity.
    + by right.
    + by exists v.
  - apply Hhidden; [| |left; reflexivity].
    + intros H. apply list_elem_of_singleton in H. discriminate H.
    + intros H. apply elem_of_cons in H as [H|H]; [discriminate H|].
      apply list_elem_of_singleton in H. discriminate H.
  - apply Hhidden; [| |right; split].
    + intros H. apply list_elem_of_singleton in H. discriminate H.
    + intros H. apply elem_of_cons in H as [H|H]; [discriminate H|].
      apply list_elem_of_singleton in H. discriminate H.
    + intros i Hi. apply list_elem_of_singleton in Hi as ->. vm_compute. lia.
    + intros cf Hcf. by apply elem_of_nil in Hcf.
Defined.

(** ** Beyond the claims *)

(** *** X1, X2: registration over an instance *)

(** [A] is instantiated; then it is overridden by a value. *)
Lemma registerValue_then_get_witness :
  0 < length (heap lifetimes_after_A)
  ∧ instances (cont lifetimes_after_A 0) !! A = Some (VObject 0)
  ∧ get functions 1 0 (ArgToken A)
      (registerValue functions 0 (ArgToken A) (VString "mock") lifetimes_after_A)
    = Some (Normal (VString "mock"),
            registerValue functions 0 (ArgToken A) (VString "mock") lifetimes_after_A).
Proof.
  assert (H0 : 0 < length (heap lifetimes_after_A)) by (vm_compute; lia).
  split; [exact H0|]. split; [reflexivity|].
  exact (proj1 (registerValue_then_get functions 0 0 (ArgToken A) (VString "mock")
                  lifetimes_after_A H0)).
Defined.

(** [A] is instantiated; then its provider is registered again. *)
Lemma register_discards_cached_instance_witness :
  0 < length (heap lifetimes_after_A)
  ∧ is_value singletonA = false
  ∧ cached lifetimes_after_A 0 singletonA = Some (VObject 0)
  ∧ cached (register functions 0 singletonA lifetimes_after_A) 0 singletonA = None
  ∧ fst <$> get functions 1 0 (ArgToken A)
              (register functions 0 singletonA lifetimes_after_A)
    = Some (Normal (VObject 1)).
Proof.
  assert (H0 : 0 < length (heap lifetimes_after_A)) by (vm_compute; lia).
  split; [exact H0|]. split; [reflexivity|]. split; [reflexivity|].
  split; [|reflexivity].
  exact (proj1 (proj2 (register_discards_cached_instance functions 0 singletonA
                         lifetimes_after_A H0 eq_refl))).
Defined.

(** *** X3, X9: the console *)

(** One container in debug mode. *)
Definition debug_root : World := (newContainer None (Some true) empty_world).2.

Definition debug_root_after_Clock : World :=
  default debug_root (snd <$> get functions 2 0 (ArgToken Clock) debug_root).

Lemma get_keeps_console_and_tree_witness :
  get functions 2 0 (ArgToken Clock) debug_root
  = Some (Normal (VObject 0), debug_root_after_Clock)
  ∧ providers (cont debug_root_after_Clock 0) !! Clock = Some (auto_provider 2)
  ∧ console debug_root_after_Clock = console debug_root
  ∧ length (heap debug_root_after_Clock) = length (heap debug_root).
Proof.
  assert (Hget : get functions 2 0 (ArgToken Clock) debug_root
                 = Some (Normal (VObject 0), debug_root_after_Clock)) by reflexivity.
  pose proof (get_keeps_console_and_tree functions 2 0 (ArgToken Clock) debug_root
                _ _ Hget) as (Hc & Hl & _).
  split; [exact Hget|]. split; [reflexivity|]. split; [exact Hc|exact Hl].
Defined.

Lemma registerMany_warns_of_overwrites_witness :
  0 < length (heap debug_root)
  ∧ console (registerMany functions 0 [singletonA; transientB; singletonA] debug_root)
    = ["[DI Container] Warning: Overwriting existing provider for token "
       +:+ DQ +:+ "ServiceA" +:+ DQ +:+ ". This may indicate a misconfiguration."].
Proof.
  assert (H0 : 0 < length (heap debug_root)) by (vm_compute; lia).
  split; [exact H0|].
  rewrite (registerMany_warns_of_overwrites functions 0
             [singletonA; transientB; singletonA] debug_root H0).
  vm_compute. reflexivity.
Defined.

(** *** X4: instances are kept *)

Lemma keyed_lifetimes_after_A : keyed lifetimes_after_A.
Proof.
  apply (fr_keyed functions 0 [] lifetimes); [|apply keyed_lifetimes].
  by apply (get_Frame functions 1 0 (ArgToken A) lifetimes (Normal (VObject 0))).
Qed.

Lemma wf_parents_lifetimes_after_A : wf_parents lifetimes_after_A.
Proof.
  apply (Frame_wf_parents functions 0 [] lifetimes).
  - by apply (get_Frame functions 1 0 (ArgToken A) lifetimes (Normal (VObject 0))).
  - do 2 apply wf_parents_register. apply wf_parents_root.
Qed.

Definition lifetimes_after_B : World :=
  default lifetimes_after_A (snd <$> get functions 1 0 (ArgToken B) lifetimes_after_A).

Lemma get_keeps_resolved_instances_witness :
  keyed lifetimes_after_A ∧ wf_parents lifetimes_after_A
  ∧ get functions 1 0 (ArgToken B) lifetimes_after_A
    = Some (Normal (VObject 1), lifetimes_after_B)
  ∧ lookupProvider lifetimes_after_A 0 A = Some (singletonA, 0)
  ∧ cached lifetimes_after_A 0 singletonA = Some (VObject 0)
  ∧ get functions 1 0 (ArgToken A) lifetimes_after_B
    = Some (Normal (VObject 0), lifetimes_after_B).
Proof.
  assert (Hget : get functions 1 0 (ArgToken B) lifetimes_after_A
                 = Some (Normal (VObject 1), lifetimes_after_B)) by reflexivity.
  assert (Hl : lookupProvider lifetimes_after_A 0 A = Some (singletonA, 0))
    by reflexivity.
  assert (Hc : cached lifetimes_after_A 0 singletonA = Some (VObject 0)) by reflexivity.
  split; [exact keyed_lifetimes_after_A|]. split; [exact wf_parents_lifetimes_after_A|].
  split; [exact Hget|]. split; [exact Hl|]. split; [exact Hc|].
  exact (get_keeps_resolved_instances functions 1 0 (ArgToken B) lifetimes_after_A
           _ _ 0 A singletonA 0 (VObject 0) keyed_lifetimes_after_A
           wf_parents_lifetimes_after_A Hget Hl (or_intror (conj eq_refl Hc)) 0).
Defined.

(** *** X5, X6: the factory call *)

(** [makeA] declares one parameter and is given no dependency. *)
Definition short_of_dependencies : World :=
  register functions 0 (factory A 0 [] None) root.

Lemma factory_parameter_count_checked_witness :
  pending short_of_dependencies 0 A (factory A 0 [] None) 0
  ∧ resolveDependencies (resolve functions 0) 0 [] [A] short_of_dependencies
    = Some (Normal [], [A], short_of_dependencies)
  ∧ 0 < fn_length (functions 0)
  ∧ length (default [] (Some ([] : list Token))) ≠ fn_length (functions 0)
  ∧ get functions 1 0 (ArgToken A) short_of_dependencies
    = Some (Throw (count_mismatch_message functions A 1 0 []), short_of_dependencies)
  ∧ calls short_of_dependencies = [].
Proof.
  assert (Hp : pending short_of_dependencies 0 A (factory A 0 [] None) 0)
    by (repeat split).
  assert (Hpos : 0 < fn_length (functions 0)) by (cbn; lia).
  assert (Hne : length (default [] (Some ([] : list Token))) ≠ fn_length (functions 0))
    by (cbn; lia).
  split; [exact Hp|]. split; [reflexivity|]. split; [exact Hpos|]. split; [exact Hne|].
  split; [|reflexivity].
  exact (proj1 (factory_parameter_count_checked functions 0 0 A short_of_dependencies
                  (factory A 0 [] None) 0 0 (Some []) [] [A] short_of_dependencies
                  Hp eq_refl eq_refl Hpos Hne)).
Defined.

(** [CONFIG] is a value and [B] an instantiated singleton; [A] depends on
    both, in this order. *)
Definition dependencies_ready : World :=
  register functions 0 (factory A 4 [CONFIG; B] None)
    (default root
       (snd <$> get functions 1 0 (ArgToken B)
                  (register functions 0 (factory B 4 [] None)
                     (registerValue functions 0 (ArgToken CONFIG)
                        (VString "production") root)))).

Lemma settled_dependencies_ready :
  Forall2 (settled_as dependencies_ready 0) [CONFIG; B]
    [VString "production"; VObject 0].
Proof.
  constructor; [|constructor; [|constructor]].
  - exists {| provide := CONFIG; lifetime := None;
              body := UseValue (VString "production") |}, 0.
    split; [vm_compute; reflexivity|]. by left.
  - exists (factory B 4 [] None), 0.
    split; [vm_compute; reflexivity|]. right. split; [reflexivity|].
    vm_compute. reflexivity.
Qed.

Lemma dependencies_injected_in_order_witness :
  pending dependencies_ready 0 A (factory A 4 [CONFIG; B] None) 0
  ∧ Forall2 (settled_as dependencies_ready 0) [CONFIG; B]
      [VString "production"; VObject 0]
  ∧ ∃ w', get functions 2 0 (ArgToken A) dependencies_ready
          = Some (Normal (VObject 1), w')
          ∧ calls w'
            = [entry B 4 [] (Normal (VObject 0));
               entry A 4 [VString "production"; VObject 0] (Normal (VObject 1))].
Proof.
  assert (Hp : pending dependencies_ready 0 A (factory A 4 [CONFIG; B] None) 0).
  { split; [vm_compute; reflexivity|]. split; [reflexivity|]. split; [reflexivity|].
    vm_compute. reflexivity. }
  split; [exact Hp|]. split; [exact settled_dependencies_ready|].
  destruct (dependencies_injected_in_order functions 0 0 A dependencies_ready
              (factory A 4 [CONFIG; B] None) 0 [VString "production"; VObject 0]
              Hp settled_dependencies_ready) as (w' & Hget & Hcalls & _).
  - intros f deps [= <- _]. by left.
  - exists w'. split; [exact Hget|exact Hcalls].
Defined.

(** *** X7: a store without fault *)

Definition sound_store : World :=
  register functions 0 (factory B 1 [CONFIG] None)
    (register functions 0 (factory A 4 [CONFIG; B] None)
       (registerValue functions 0 (ArgToken CONFIG) (VString "production") root)).

Definition rank_of (t : Token) : nat :=
  match t with
  | TSymbol 0 _ => 2
  | TSymbol _ _ => 1
  | _ => 0
  end.

Lemma fresh_never_throws (f : nat) : f ≠ 3 → never_throws functions f.
Proof.
  intros Hf n args. destruct f as [|[|[|[|f]]]]; [by eexists..|done|by eexists].
Qed.

Lemma healthy_sound_store : healthy functions 0 [A; B; CONFIG] rank_of sound_store.
Proof.
  intros t Ht.
  apply elem_of_cons in Ht as [->|Ht]; [|apply elem_of_cons in Ht as [->|Ht]];
    [| |apply list_elem_of_singleton in Ht as ->].
  - exists (factory A 4 [CONFIG; B] None), 0.
    split; [vm_compute; reflexivity|]. split; [reflexivity|]. split; [|split].
    + intros d Hd. apply elem_of_cons in Hd as [->|Hd];
        [|apply list_elem_of_singleton in Hd as ->].
      * split; [by right; right; left|cbn; lia].
      * split; [by right; left|cbn; lia].
    + by left.
    + intros _. by apply fresh_never_throws.
  - exists (factory B 1 [CONFIG] None), 0.
    split; [vm_compute; reflexivity|]. split; [reflexivity|]. split; [|split].
    + intros d Hd. apply list_elem_of_singleton in Hd as ->.
      split; [by right; right; left|cbn; lia].
    + by right.
    + intros _. by apply fresh_never_throws.
  - exists {| provide := CONFIG; lifetime := None;
              body := UseValue (VString "production") |}, 0.
    split; [vm_compute; reflexivity|]. split; [reflexivity|]. split; [|split].
    + intros d Hd. by apply elem_of_nil in Hd.
    + done.
    + intros [=].
Qed.

Lemma get_succeeds_on_healthy_store_witness :
  healthy functions 0 [A; B; CONFIG] rank_of sound_store
  ∧ A ∈ [A; B; CONFIG]
  ∧ (∃ v w', get functions 3 0 (ArgToken A) sound_store = Some (Normal v, w'))
  ∧ fst <$> get functions 3 0 (ArgToken A) sound_store = Some (Normal (VObject 1)).
Proof.
  assert (HA : A ∈ [A; B; CONFIG]) by left.
  split; [exact healthy_sound_store|]. split; [exact HA|]. split; [|reflexivity].
  destruct (get_succeeds_on_healthy_store functions 0 [A; B; CONFIG] rank_of sound_store
              A healthy_sound_store HA) as (v & w' & Hget & _).
  exists v, w'. exact Hget.
Defined.

(** *** X8: a registration in the child *)

Definition family_overridden : World :=
  register functions 1 (factory A 4 [] (Some Transient)) family.

Lemma get_ignores_later_containers_witness :
  wf_parents family
  ∧ agree 0 family family_overridden
  ∧ get functions 1 0 (ArgToken A) family
    = Some (Normal (VObject 0),
            default family (snd <$> get functions 1 0 (ArgToken A) family))
  ∧ fst <$> get functions 1 0 (ArgToken A) family_overridden = Some (Normal (VObject 0))
  ∧ ∃ w2', get functions 1 0 (ArgToken A) family_overridden
           = Some (Normal (VObject 0), w2').
Proof.
  assert (Ha : agree 0 family family_overridden)
    by (apply agree_register_later; lia).
  assert (Hget : get functions 1 0 (ArgToken A) family
                 = Some (Normal (VObject 0),
                         default family (snd <$> get functions 1 0 (ArgToken A) family)))
    by reflexivity.
  split; [exact wf_parents_family|]. split; [exact Ha|]. split; [exact Hget|].
  split; [reflexivity|].
  destruct (get_ignores_later_containers functions 1 0 (ArgToken A) family
              family_overridden _ _ wf_parents_family Ha Hget) as (w2' & Hget2 & _).
  exists w2'. exact Hget2.
Defined.

(** *** X11, X12: the controllers of a module *)

(** A controller with two routes, which resolves [A] between them. *)
Definition todos : ControllerFactory :=
  {| cf_prefix := "/todos";
     cf_setup := [r_on GET "/" [7]; deps_get (ArgToken A); r_on POST "/" [8]] |}.

Definition health : ControllerFactory :=
  {| cf_prefix := "/health"; cf_setup := [r_use "*" [5]; r_on GET "/" [6]] |}.

Definition config_todos : ModuleConfig :=
  {| cfg_controllers := [todos; health]; cfg_imports := []; cfg_exports := [];
     cfg_providers := [singletonA] |}.

Definition todos_module : ModuleDefinition :=
  {| m_controllers := [0; 1]; m_imports := []; m_exports := [];
     m_providers := [singletonA]; m_container := 0 |}.

Definition todos_store : Store :=
  default empty_store (snd <$> defineModule functions 2 config_todos empty_store).

Lemma todos_defined :
  defineModule functions 2 config_todos empty_store
  = Some (Normal todos_module, todos_store).
Proof. vm_compute. reflexivity. Qed.

Lemma defineModule_instantiates_controllers_in_order_witness :
  defineModule functions 2 config_todos empty_store
  = Some (Normal todos_module, todos_store)
  ∧ controllerHeap todos_store
    = [{| prefix := "/todos";
          app := {| hono_options := None;
                    entries := [HOn GET "/" [7]; HOn POST "/" [8]] |} |};
       {| prefix := "/health";
          app := {| hono_options := None;
                    entries := [HUse "*" [5]; HOn GET "/" [6]] |} |}].
Proof.
  split; [exact todos_defined|].
  exact (proj1 (proj2 (defineModule_instantiates_controllers_in_order functions 2
                         config_todos empty_store todos_module todos_store
                         todos_defined))).
Defined.

Lemma createApp_of_defined_module_witness :
  defineModule functions 2 config_todos empty_store
  = Some (Normal todos_module, todos_store)
  ∧ (∀ c, c ∈ concat (map tree_controllers (cfg_imports config_todos)) →
          c < length (controllerHeap empty_store))
  ∧ entries (target (createApp [] (controllerHeap todos_store) todos_module
                       (Some (NewApi {| opt_hono := None;
                                        opt_middleware := Some [9] |}))))
    = [HUse "*" [9];
       HRoute "/todos" [HOn GET "/" [7]; HOn POST "/" [8]];
       HRoute "/health" [HUse "*" [5]; HOn GET "/" [6]]].
Proof.
  assert (Hold : ∀ c, c ∈ concat (map tree_controllers (cfg_imports config_todos)) →
                      c < length (controllerHeap empty_store)).
  { intros c Hc. by apply elem_of_nil in Hc. }
  split; [exact todos_defined|]. split; [exact Hold|].
  exact (createApp_of_defined_module functions [] 2 config_todos empty_store
           todos_module todos_store
           (Some (NewApi {| opt_hono := None; opt_middleware := Some [9] |}))
           todos_defined Hold).
Defined.

(** *** X13, X14: defining a controller *)

Lemma defineController_runs_setup_at_once_witness :
  (∀ tok, deps_get tok ∉ [r_on GET "/" [7]])
  ∧ isConstructorToken functions (actualToken (ArgToken A)) = false
  ∧ defineController functions 1 "/todos" (cf_setup todos) empty_store
    = Some (Throw (missing_provider_message functions [] A),
            {| di := root; controllerHeap := [] |}).
Proof.
  assert (Hpure : ∀ tok, deps_get tok ∉ [r_on GET "/" [7]]).
  { intros tok H. apply list_elem_of_singleton in H. discriminate H. }
  split; [exact Hpure|]. split; [reflexivity|].
  exact (defineController_runs_setup_at_once functions 0 "/todos" [r_on GET "/" [7]]
           (ArgToken A) [r_on POST "/" [8]] empty_store Hpure eq_refl).
Defined.

Lemma defineController_default_instance_witness :
  (∀ tok, deps_get tok ∉ cf_setup health)
  ∧ ∃ ctl s1,
      defineController functions 0 "/health" (cf_setup health) empty_store
      = Some (Normal ctl, s1)
      ∧ ctl_prefix ctl = "/health"
      ∧ ctl_app ctl = {| hono_options := None;
                         entries := [HUse "*" [5]; HOn GET "/" [6]] |}.
Proof.
  assert (Hpure : ∀ tok, deps_get tok ∉ cf_setup health).
  { intros tok H. apply elem_of_cons in H as [H|H]; [discriminate H|].
    apply list_elem_of_singleton in H. discriminate H. }
  split; [exact Hpure|].
  destruct (defineController_default_instance functions 0 "/health" (cf_setup health)
              empty_store Hpure) as (ctl & s1 & Hdef & Hp & Ha & _).
  exists ctl, s1. split; [exact Hdef|]. split; [exact Hp|exact Ha].
Defined.

(** *** X15: a testing module *)

Definition todos_testing : TestingModule :=
  {| tm_module := todos_module; tm_container := 0 |}.

Lemma testing_override_then_get_witness :
  wf_parents (di empty_store)
  ∧ createTestingModule functions 2 config_todos empty_store
    = Some (Normal todos_testing, todos_store)
  ∧ fst <$> tm_get functions 1 todos_testing (ArgToken A) (di todos_store)
    = Some (Normal (VObject 0))
  ∧ tm_get functions 1 todos_testing (ArgToken A)
      (tm_override functions todos_testing (ArgToken A) (VString "mock")
         (di todos_store))
    = Some (Normal (VString "mock"),
            tm_override functions todos_testing (ArgToken A) (VString "mock")
              (di todos_store)).
Proof.
  assert (Hdef : createTestingModule functions 2 config_todos empty_store
                 = Some (Normal todos_testing, todos_store))
    by (vm_compute; reflexivity).
  split; [exact wf_parents_empty|]. split; [exact Hdef|].
  split; [vm_compute; reflexivity|].
  exact (proj1 (testing_override_then_get functions 2 config_todos empty_store
                  todos_testing todos_store (ArgToken A) (VString "mock")
                  wf_parents_empty Hdef) 0).
Defined.

(** *** X16, X17: injectables *)

(** Two injectables from the same factory, and one that depends on the
    configuration. *)
Definition first_make : Injectable :=
  mkInjectable (TSymbol 0 (Some "make")) "make" [] 4 Singleton
    {| provide := TSymbol 0 (Some "make"); lifetime := Some Singleton;
       body := UseFactory 4 (Some []) |}.

Definition second_make : Injectable :=
  mkInjectable (TSymbol 1 (Some "make")) "make" [] 4 Singleton
    {| provide := TSymbol 1 (Some "make"); lifetime := Some Singleton;
       body := UseFactory 4 (Some []) |}.

Lemma injectables_have_tokens_of_their_own_witness :
  defineInjectable functions (ArgFactory 4) None 0 = (Normal first_make, 1)
  ∧ 1 ≤ 1
  ∧ defineInjectable functions (ArgFactory 4) None 1 = (Normal second_make, 2)
  ∧ i_token first_make ≠ i_token second_make.
Proof.
  split; [reflexivity|]. split; [lia|]. split; [reflexivity|].
  exact (proj1 (injectables_have_tokens_of_their_own functions (ArgFactory 4)
                  (ArgFactory 4) None None 0 1 1 2 first_make second_make
                  eq_refl (le_n 1) eq_refl)).
Defined.

Definition with_config : World :=
  registerValue functions 0 (ArgToken CONFIG) (VString "production") root.

Definition makeB_injectable : Injectable :=
  mkInjectable (TSymbol 0 (Some "makeB")) "makeB" [DepToken CONFIG] 1 Singleton
    {| provide := TSymbol 0 (Some "makeB"); lifetime := Some Singleton;
       body := UseFactory 1 (Some [CONFIG]) |}.

Lemma injectable_resolves_with_its_dependencies_witness :
  defineInjectable functions (ArgFactory 1) (Some (Arg2Deps [DepToken CONFIG])) 0
  = (Normal makeB_injectable, 1)
  ∧ keyed with_config
  ∧ 0 < length (heap with_config)
  ∧ Forall2 (settled_as with_config 0) (extractDep <$> i_deps makeB_injectable)
      [VString "production"]
  ∧ (i_token makeB_injectable ∉ extractDep <$> i_deps makeB_injectable)
  ∧ ∃ w', get functions 2 0 (as_token makeB_injectable)
            (register functions 0 (i_provider makeB_injectable) with_config)
          = Some (Normal (VObject 0), w')
          ∧ calls w'
            = [entry (i_token makeB_injectable) 1 [VString "production"]
                 (Normal (VObject 0))].
Proof.
  assert (Hk : keyed with_config) by apply keyed_register, keyed_root.
  assert (H0 : 0 < length (heap with_config)) by (vm_compute; lia).
  assert (Hs : Forall2 (settled_as with_config 0)
                 (extractDep <$> i_deps makeB_injectable) [VString "production"]).
  { constructor; [|constructor].
    exists {| provide := CONFIG; lifetime := None;
              body := UseValue (VString "production") |}, 0.
    split; [vm_compute; reflexivity|]. by left. }
  assert (Hn : i_token makeB_injectable ∉ extractDep <$> i_deps makeB_injectable).
  { intros H. apply list_elem_of_singleton in H. discriminate H. }
  split; [reflexivity|]. split; [exact Hk|]. split; [exact H0|]. split; [exact Hs|].
  split; [exact Hn|].
  exact (injectable_resolves_with_its_dependencies functions 0 (ArgFactory 1)
           (Some (Arg2Deps [DepToken CONFIG])) 0 1 makeB_injectable 0 with_config
           [VString "production"] eq_refl Hk H0 Hs Hn (or_intror eq_refl)).
Defined.

(** *** X18: fixtures *)

Definition user_defaults : JsObject :=
  {[ "id" := VNumber 1; "name" := VString "John" ]}.

Definition jane : JsObject := {[ "name" := VString "Jane" ]}.

Lemma buildMany_counts_up_witness :
  (3 ≤ 2 ^ 32 - 1)%Z
  ∧ (0 + Z.max 3 0 ≤ 2 ^ 53)%Z
  ∧ buildMany user_defaults 3 (Some jane) 0
    = (Normal [fixture user_defaults (Some jane) 1;
               fixture user_defaults (Some jane) 2;
               fixture user_defaults (Some jane) 3], 3%Z)
  ∧ fixture user_defaults (Some jane) 2 !! "id" = Some (VNumber 2)
  ∧ fixture user_defaults (Some jane) 2 !! "name" = Some (VString "Jane").
Proof.
  assert (H1 : (3 ≤ 2 ^ 32 - 1)%Z) by lia.
  assert (H2 : (0 + Z.max 3 0 ≤ 2 ^ 53)%Z) by lia.
  split; [exact H1|]. split; [exact H2|].
  destruct (buildMany_counts_up user_defaults 3 (Some jane) 0 H1 H2) as [Hb Hf].
  split; [exact Hb|]. split; [by rewrite Hf|by rewrite Hf].
Defined.

(** *** X19: resolution on demand *)

Definition sound_store_after_B : World :=
  default sound_store (snd <$> get functions 2 0 (ArgToken B) sound_store).

Lemma get_instantiates_only_what_is_needed_witness :
  keyed sound_store
  ∧ get functions 2 0 (ArgToken B) sound_store
    = Some (Normal (VObject 0), sound_store_after_B)
  ∧ calls sound_store_after_B = [entry B 1 [VString "production"] (Normal (VObject 0))]
  ∧ ∃ delta, calls sound_store_after_B = (calls sound_store ++ delta)%list
             ∧ Forall (λ i, needs functions sound_store 0 B (inv_for i)) delta.
Proof.
  assert (Hk : keyed sound_store) by (do 3 apply keyed_register; apply keyed_root).
  assert (Hget : get functions 2 0 (ArgToken B) sound_store
                 = Some (Normal (VObject 0), sound_store_after_B)) by reflexivity.
  split; [exact Hk|]. split; [exact Hget|]. split; [reflexivity|].
  exact (get_instantiates_only_what_is_needed functions 2 0 (ArgToken B) sound_store
           _ _ Hk Hget).
Defined.

(** *** X20: the containers that exist *)

Lemma wf_parents_shared_store : wf_parents (di shared_store).
Proof.
  eapply defineModule_wf_parents; [exact shared_defined|apply wf_parents_empty].
Qed.

Lemma defineModule_keeps_existing_containers_witness :
  defineModule functions 1 config_importer shared_store
  = Some (Normal importer_module, importer_store)
  ∧ wf_parents (di shared_store)
  ∧ length (heap (di importer_store)) = 2
  ∧ lookupProvider (di importer_store) 0 SECRET = Some (secret, 0).
Proof.
  destruct (defineModule_keeps_existing_containers functions 1 config_importer
              shared_store importer_module importer_store importer_defined
              wf_parents_shared_store) as (Hlen & _ & _ & Hold).
  split; [exact importer_defined|]. split; [exact wf_parents_shared_store|].
  split; [exact Hlen|].
  assert (H0 : 0 < length (heap (di shared_store))) by (vm_compute; lia).
  destruct (Hold 0 H0) as (_ & _ & _ & Hl).
  apply Hl. vm_compute. reflexivity.
Defined.

(** *** X21: a module that can be defined *)

Definition config_sound : ModuleConfig :=
  {| cfg_controllers := [todos; health]; cfg_imports := []; cfg_exports := [];
     cfg_providers :=
       [{| provide := CONFIG; lifetime := None;
           body := UseValue (VString "production") |};
        factory A 4 [CONFIG; B] None;
        factory B 1 [CONFIG] None] |}.

Lemma defineModule_succeeds_witness :
  cfg_imports config_sound = []
  ∧ healthy functions 0 [A; B; CONFIG] rank_of sound_store
  ∧ (∀ cf token, cf ∈ cfg_controllers config_sound → deps_get token ∈ cf_setup cf →
                 actualToken token ∈ [A; B; CONFIG] ∧ rank_of (actualToken token) < 3)
  ∧ ∃ m s', defineModule functions 3 config_sound empty_store = Some (Normal m, s')
            ∧ m_container m = 0
            ∧ length (m_controllers m) = 2.
Proof.
  assert (Hin : ∀ cf token, cf ∈ cfg_controllers config_sound →
                  deps_get token ∈ cf_setup cf →
                  actualToken token ∈ [A; B; CONFIG]
                  ∧ rank_of (actualToken token) < 3).
  { intros cf token Hcf Ht.
    apply elem_of_cons in Hcf as [->|Hcf]; [|apply list_elem_of_singleton in Hcf as ->].
    - apply elem_of_cons in Ht as [Ht|Ht]; [discriminate Ht|].
      apply elem_of_cons in Ht as [Ht|Ht];
        [injection Ht as ->; split; [left|cbn; lia]|].
      apply list_elem_of_singleton in Ht. discriminate Ht.
    - apply elem_of_cons in Ht as [Ht|Ht]; [discriminate Ht|].
      apply list_elem_of_singleton in Ht. discriminate Ht. }
  split; [reflexivity|]. split; [exact healthy_sound_store|]. split; [exact Hin|].
  exact (defineModule_succeeds functions [A; B; CONFIG] rank_of 3 config_sound
           empty_store eq_refl healthy_sound_store Hin).
Defined.

End Examples.
